(** * Jack syntax analyser: tokenizer and compilation engine

    A shallow embedding of [parser/jack_tokenizer.py],
    [parser/utils/patterns.py], [parser/utils/token_types.py],
    [parser/utils/exceptions.py], [parser/utils/fancy_objects.py],
    [parser/compilation_engine.py] and [syntax_analyzer.py], followed by
    the properties of the analyser that are checked against it.

    Conventions of the embedding.
    - A Python [str] is a [string]; a character is a code point below 256.
    - Python [int]s are [Z].
    - A [dict] keyed by strings is a [gmap string _].
    - Methods that mutate [self] become state-passing functions that return
      a [result] together with the new state; a raised exception leaves the
      mutations made before it in place, as in Python. *)

From Stdlib Require Import ZArith Ascii String List Bool Lia DecimalString.
From stdpp Require Import base gmap strings.
Import ListNotations.

Local Open Scope Z_scope.
Local Open Scope string_scope.

(** ** Characters and strings *)

Definition code (c : ascii) : nat := nat_of_ascii c.

Definition chr (n : nat) : ascii := ascii_of_nat n.

Definition in_range (lo hi : ascii) (c : ascii) : bool :=
  (code lo <=? code c)%nat && (code c <=? code hi)%nat.

Definition is_char (a : ascii) (c : ascii) : bool := Ascii.eqb a c.

(** The double quote and the line feed, which cannot be written inside a
    literal. *)
Definition dquote : ascii := chr 34.
Definition newline : ascii := chr 10.

Definition str1 (c : ascii) : string := String c EmptyString.

(** Membership of a character in the characters of a string (a bracketed
    class whose members are listed one by one). *)
Fixpoint one_of (members : string) (c : ascii) : bool :=
  match members with
  | EmptyString => false
  | String a rest => Ascii.eqb a c || one_of rest c
  end.

(** [\d] on code points below 256: the ASCII digits (no other character of
    that range is a Unicode decimal digit). *)
Definition is_digit (c : ascii) : bool := in_range "0" "9" c.

(** [\w] on code points below 256: [str.isalnum] or the underscore.  Above
    the ASCII range this takes in the Latin-1 letters and the numeric
    characters (superscripts and vulgar fractions). *)
Definition is_word (c : ascii) : bool :=
  in_range "a" "z" c || in_range "A" "Z" c || is_digit c || is_char "_" c
  || existsb (Nat.eqb (code c)) [170; 178; 179; 181; 185; 186; 188; 189; 190]%nat
  || ((192 <=? code c)%nat && negb (code c =? 215)%nat && negb (code c =? 247)%nat).

(** The characters [str.split()] treats as white space, below 256. *)
Definition is_space (c : ascii) : bool :=
  ((9 <=? code c)%nat && (code c <=? 13)%nat)
  || ((28 <=? code c)%nat && (code c <=? 32)%nat)
  || (code c =? 133)%nat || (code c =? 160)%nat.

(** [.] without [re.S]: anything but a line feed. *)
Definition is_dot (c : ascii) : bool := negb (Ascii.eqb c newline).

(** ** Regular expressions ([re])

    The fragment of Python's [re] that [patterns.py] uses: character
    classes, concatenation, ordered alternation, the greedy star and
    fixed-width look-behind.  Matching is by backtracking over positions of
    the subject string, the way [re] does it: alternatives are tried left
    to right, the star takes as many iterations as it can and gives them
    back one by one. *)
Module re.

Inductive regex : Type :=
| Eps
| Cls (p : ascii -> bool)
| Seq (r1 r2 : regex)
| Alt (r1 r2 : regex)
| Star (r : regex)
| Behind (positive : bool) (ps : list (ascii -> bool)).

(** A literal string. *)
Fixpoint Lit (w : string) : regex :=
  match w with
  | EmptyString => Eps
  | String c EmptyString => Cls (is_char c)
  | String c rest => Seq (Cls (is_char c)) (Lit rest)
  end.

(** [r?], greedy. *)
Definition Opt (r : regex) : regex := Alt r Eps.

(** [r{n}] and [r{lo,lo+extra}], greedy. *)
Fixpoint Times (n : nat) (r : regex) : regex :=
  match n with
  | O => Eps
  | S O => r
  | S n' => Seq r (Times n' r)
  end.

Fixpoint UpTo (n : nat) (r : regex) : regex :=
  match n with
  | O => Eps
  | S n' => Opt (Seq r (UpTo n' r))
  end.

Definition Rep (lo extra : nat) (r : regex) : regex :=
  match extra with
  | O => Times lo r
  | _ => Seq (Times lo r) (UpTo extra r)
  end.

(** An alternation of several branches, in order. *)
Fixpoint Alts (rs : list regex) : regex :=
  match rs with
  | [] => Cls (fun _ => false)
  | [r] => r
  | r :: rest => Alt r (Alts rest)
  end.

(** Do the characters just before position [i] satisfy [ps], in order? *)
Fixpoint behind_from (ps : list (ascii -> bool)) (s : string) (j : nat) : bool :=
  match ps with
  | [] => true
  | p :: ps' =>
      match String.get j s with
      | Some c => p c && behind_from ps' s (S j)
      | None => false
      end
  end.

Definition behind (ps : list (ascii -> bool)) (s : string) (i : nat) : bool :=
  (length ps <=? i)%nat && behind_from ps s (i - length ps).

(** The iterations of a greedy star whose body is matched by [body]: as
    many as possible first; an iteration that consumes nothing ends the
    star.  [fuel] bounds the iterations by the characters that are left. *)
Fixpoint star_loop {A : Type} (body : nat -> (nat -> option A) -> option A)
    (k : nat -> option A) (fuel : nat) (i : nat) {struct fuel} : option A :=
  match fuel with
  | O => k i
  | S fuel' =>
      match body i (fun j => if (i <? j)%nat then star_loop body k fuel' j else None) with
      | Some x => Some x
      | None => k i
      end
  end.

(** [rmatch r s i k]: match [r] at position [i] of [s], then hand the end
    position to the continuation [k]; when [k] refuses, backtrack. *)
Fixpoint rmatch {A : Type} (r : regex) (s : string) (i : nat)
    (k : nat -> option A) {struct r} : option A :=
  match r with
  | Eps => k i
  | Cls p =>
      match String.get i s with
      | Some c => if p c then k (S i) else None
      | None => None
      end
  | Seq r1 r2 => rmatch r1 s i (fun j => rmatch r2 s j k)
  | Alt r1 r2 =>
      match rmatch r1 s i k with
      | Some x => Some x
      | None => rmatch r2 s i k
      end
  | Star r1 =>
      star_loop (fun i' k' => rmatch r1 s i' k') k (String.length s - i)%nat i
  | Behind positive ps =>
      if Bool.eqb positive (behind ps s i) then k i else None
  end.

(** [pattern.fullmatch(s)], as a truth value. *)
Definition fullmatch (r : regex) (s : string) : bool :=
  match rmatch r s 0 (fun j => if (j =? String.length s)%nat then Some j else None) with
  | Some _ => true
  | None => false
  end.

(** End of the match that starts at position [i], if there is one. *)
Definition match_at (r : regex) (s : string) (i : nat) : option nat :=
  rmatch r s i (fun j => Some j).

(** Scanning for the non-overlapping matches, left to right.  [scan]
    returns the pieces of [s]: [inl c] for a character no match covers,
    [inr m] for a match.  (No pattern of [patterns.py] matches the empty
    string; a match that does not advance is treated as none.) *)
Fixpoint scan (fuel : nat) (r : regex) (s : string) (i : nat) : list (ascii + string) :=
  match fuel with
  | O => []
  | S fuel' =>
      match String.get i s with
      | None => []
      | Some c =>
          match match_at r s i with
          | Some j =>
              if (i <? j)%nat
              then inr (String.substring i (j - i) s) :: scan fuel' r s j
              else inl c :: scan fuel' r s (S i)
          | None => inl c :: scan fuel' r s (S i)
          end
      end
  end.

Definition pieces (r : regex) (s : string) : list (ascii + string) :=
  scan (String.length s) r s 0.

(** [pattern.search(s)], as a truth value. *)
Definition search (r : regex) (s : string) : bool :=
  existsb (fun p => match p with inr _ => true | inl _ => false end) (pieces r s).

(** [pattern.sub('', s)]. *)
Fixpoint unmatched (ps : list (ascii + string)) : string :=
  match ps with
  | [] => EmptyString
  | inl c :: rest => String c (unmatched rest)
  | inr _ :: rest => unmatched rest
  end.

Definition sub_empty (r : regex) (s : string) : string := unmatched (pieces r s).

(** [m.group(0)] for each [m] of [pattern.finditer(s)]. *)
Fixpoint matched (ps : list (ascii + string)) : list string :=
  match ps with
  | [] => []
  | inl _ :: rest => matched rest
  | inr m :: rest => m :: matched rest
  end.

Definition finditer (r : regex) (s : string) : list string := matched (pieces r s).

End re.

(** ** [parser/utils/patterns.py] *)
Module patterns.
Import re.

(** The pattern: two slashes, then [.*], then a line feed. *)
Definition LINE_COMMENT : regex :=
  Seq (Lit "//") (Seq (Star (Cls is_dot)) (Cls (is_char newline))).

(** The pattern: a slash and a star, anywhere. *)
Definition BLOCK_COMMENT_START : regex := Lit "/*".

(** The pattern: slash star, then [.*] under [re.S] (the dot takes line
    feeds too), then star slash. *)
Definition BLOCK_COMMENT : regex :=
  Seq (Lit "/*") (Seq (Star (Cls (fun _ => true))) (Lit "*/")).

Definition KEYWORD : regex :=
  Alts (map Lit
    ["class"; "constructor"; "function"; "method"; "field"; "static";
     "var"; "int"; "char"; "boolean"; "void"; "true"; "false"; "null"; "this";
     "let"; "do"; "if"; "else"; "while"; "return"]).

(** A bracketed class of the nineteen symbol characters. *)
Definition SYMBOL : regex := Cls (one_of "{}()[].,;+-*/&|<>=~").

(** [\d{1,4}|(\d{5}(?<=[0-3][0-2][0-7][0-6][0-7]))] *)
Definition INT_CONST : regex :=
  Alt (Rep 1 3 (Cls is_digit))
      (Seq (Rep 5 0 (Cls is_digit))
           (Behind true [in_range "0" "3"; in_range "0" "2"; in_range "0" "7";
                         in_range "0" "6"; in_range "0" "7"])).

(** A double quote; any number of [.] each checked by a negative
    look-behind not to be a double quote; a double quote. *)
Definition STRING_CONST : regex :=
  Seq (Cls (is_char dquote))
      (Seq (Star (Seq (Cls is_dot) (Behind false [is_char dquote])))
           (Cls (is_char dquote))).

(** [[A-z_]\w*] *)
Definition IDENTIFIER : regex :=
  Seq (Cls (fun c => in_range "A" "z" c || is_char "_" c)) (Star (Cls is_word)).

(** The five patterns above, each in a group, joined by [|] in this order. *)
Definition ALL_TERMINATORS : regex :=
  Alts [KEYWORD; SYMBOL; INT_CONST; STRING_CONST; IDENTIFIER].

End patterns.

(** ** [parser/utils/token_types.py] *)
Module token_types.
Definition TOKEN_TYPE : Z := 1.
Definition KEYWORD : Z := 2.
Definition SYMBOL : Z := 3.
Definition IDENTIFIER : Z := 4.
Definition INT_CONST : Z := 5.
Definition STRING_CONST : Z := 6.
Definition CLASS : Z := 7.
Definition METHOD : Z := 8.
Definition FUNCTION : Z := 9.
Definition CONSTRUCTOR : Z := 10.
Definition INT : Z := 11.
Definition BOOLEAN : Z := 12.
Definition CHAR : Z := 13.
Definition VOID : Z := 14.
Definition VAR : Z := 15.
Definition STATIC : Z := 16.
Definition FIELD : Z := 17.
Definition LET : Z := 18.
Definition DO : Z := 19.
Definition IF : Z := 20.
Definition ELSE : Z := 21.
Definition WHILE : Z := 22.
Definition RETURN : Z := 23.
Definition TRUE : Z := 24.
Definition FALSE : Z := 25.
Definition NULL : Z := 26.
Definition THIS : Z := 27.
End token_types.

(** ** [parser/utils/exceptions.py], and the built-in exceptions the
    analyser raises *)
Inductive exn_class : Type :=
| CompileError
| CompileKeywordError
| CompileSymbolError
| CompileTypeError
| CompileClassVarDecError
| CompileSubroutineError
| CompileParameterListError
| CompileSubroutineBodyError
| CompileVarDecError
| CompileLetError
| CompileExpressionError
| CompileOpError
| CompileKeywordConstantError
| CompileDoError
| CompileSubroutineCallError
| CompileReturnError
| CompileIfError
| CompileWhileError
| StopIteration
| TypeError
| KeyError
| ValueError.

#[global] Instance exn_class_eq_dec : EqDecision exn_class.
Proof. solve_decision. Defined.

(** The classes declared in [exceptions.py], in the order of the file. *)
Definition declared_classes : list exn_class :=
  [CompileError; CompileKeywordError; CompileSymbolError; CompileTypeError;
   CompileClassVarDecError; CompileSubroutineError; CompileParameterListError;
   CompileSubroutineBodyError; CompileVarDecError; CompileLetError;
   CompileExpressionError; CompileOpError; CompileKeywordConstantError;
   CompileDoError; CompileSubroutineCallError; CompileReturnError;
   CompileIfError; CompileWhileError].

Definition class_name (c : exn_class) : string :=
  match c with
  | CompileError => "CompileError"
  | CompileKeywordError => "CompileKeywordError"
  | CompileSymbolError => "CompileSymbolError"
  | CompileTypeError => "CompileTypeError"
  | CompileClassVarDecError => "CompileClassVarDecError"
  | CompileSubroutineError => "CompileSubroutineError"
  | CompileParameterListError => "CompileParameterListError"
  | CompileSubroutineBodyError => "CompileSubroutineBodyError"
  | CompileVarDecError => "CompileVarDecError"
  | CompileLetError => "CompileLetError"
  | CompileExpressionError => "CompileExpressionError"
  | CompileOpError => "CompileOpError"
  | CompileKeywordConstantError => "CompileKeywordConstantError"
  | CompileDoError => "CompileDoError"
  | CompileSubroutineCallError => "CompileSubroutineCallError"
  | CompileReturnError => "CompileReturnError"
  | CompileIfError => "CompileIfError"
  | CompileWhileError => "CompileWhileError"
  | StopIteration => "StopIteration"
  | TypeError => "TypeError"
  | KeyError => "KeyError"
  | ValueError => "ValueError"
  end.

(** The base class written in the class statement; the built-ins derive
    from [Exception], which is not modelled ([None]). *)
Definition base_class (c : exn_class) : option exn_class :=
  match c with
  | CompileError | StopIteration | TypeError | KeyError | ValueError => None
  | _ => Some CompileError
  end.

(** [issubclass c d], which decides whether [except d] catches a [c]. *)
Definition issubclass (c d : exn_class) : bool :=
  bool_decide (c = d) || bool_decide (base_class c = Some d).

(** An exception instance: its class and the message it was built with
    ([str(ex)]). *)
Record exn : Type := Exn { exn_cls : exn_class; str : string }.

(** The outcome of a call: a returned value, a raised exception, or, for
    the functions that recurse on a step budget, the budget running out. *)
Inductive result (A : Type) : Type :=
| Ok (a : A)
| Raise (e : exn)
| OutOfFuel.
Arguments Ok {A} a.
Arguments Raise {A} e.
Arguments OutOfFuel {A}.

(** ** A state-and-exception monad *)
Definition M (S A : Type) : Type := S -> result A * S.

Definition ret {S A} (a : A) : M S A := fun s => (Ok a, s).

Definition bind {S A B} (m : M S A) (k : A -> M S B) : M S B :=
  fun s =>
    match m s with
    | (Ok a, s') => k a s'
    | (Raise e, s') => (Raise e, s')
    | (OutOfFuel, s') => (OutOfFuel, s')
    end.

Definition raise {S A} (c : exn_class) (msg : string) : M S A :=
  fun s => (Raise (Exn c msg), s).

Definition out_of_fuel {S A} : M S A := fun s => (OutOfFuel, s).

Definition get {S} : M S S := fun s => (Ok s, s).
Definition gets {S A} (f : S -> A) : M S A := fun s => (Ok (f s), s).
Definition modify {S} (f : S -> S) : M S unit := fun s => (Ok tt, f s).

(** [try: m  except c as ex: h ex] *)
Definition try_except {S A} (m : M S A) (c : exn_class) (h : exn -> M S A) : M S A :=
  fun s =>
    match m s with
    | (Raise e, s') => if issubclass (exn_cls e) c then h e s' else (Raise e, s')
    | other => other
    end.

Declare Scope monad_scope.
Delimit Scope monad_scope with monad.
Notation "x <- m ;; k" := (bind m (fun x => k))
  (at level 100, m at next level, right associativity) : monad_scope.
Notation "m ;; k" := (bind m (fun _ => k))
  (at level 100, right associativity) : monad_scope.
Local Open Scope monad_scope.

(** [if b: m] *)
Definition when {S} (b : bool) (m : M S unit) : M S unit :=
  if b then m else ret tt.

(** A list comprehension whose element expression has effects. *)
Fixpoint mapM {S A B} (f : A -> M S B) (l : list A) : M S (list B) :=
  match l with
  | [] => ret []
  | a :: rest => b <- f a ;; bs <- mapM f rest ;; ret (b :: bs)
  end.

(** [any(bs)] *)
Definition any (bs : list bool) : bool := existsb (fun b => b) bs.

(** ** Built-in string operations used by the tokenizer *)

(** [s.split()]: the maximal runs of characters that are not white space. *)
Fixpoint split_acc (word : string) (s : string) : list string :=
  match s with
  | EmptyString => match word with EmptyString => [] | _ => [word] end
  | String c rest =>
      if is_space c
      then match word with
           | EmptyString => split_acc EmptyString rest
           | _ => word :: split_acc EmptyString rest
           end
      else split_acc (word ++ str1 c) rest
  end.

Definition split (s : string) : list string := split_acc EmptyString s.

(** [sep.join(words)] *)
Definition join (sep : string) (words : list string) : string :=
  String.concat sep words.

(** [s[1:-1]] *)
Fixpoint drop_last (s : string) : string :=
  match s with
  | EmptyString => EmptyString
  | String c EmptyString => EmptyString
  | String c rest => String c (drop_last rest)
  end.

Definition slice_1_m1 (s : string) : string :=
  match s with
  | EmptyString => EmptyString
  | String _ rest => drop_last rest
  end.

(** [int(s)] on a non-empty string of ASCII digits; anything else is
    reported as the [ValueError] that [int] raises on a string that is not
    a numeral (the tokenizer only converts lexemes that matched
    [INT_CONST]). *)
Fixpoint int_acc (acc : Z) (s : string) : option Z :=
  match s with
  | EmptyString => Some acc
  | String c rest =>
      if is_digit c then int_acc (10 * acc + Z.of_nat (code c - 48)) rest else None
  end.

Definition int (s : string) : option Z :=
  match s with
  | EmptyString => None
  | _ => int_acc 0 s
  end.

(** [str(n)] for an [int], as [format] renders it. *)
Definition str_of_int (n : Z) : string := NilZero.string_of_int (Z.to_int n).

(** ** [parser/jack_tokenizer.py] *)

(** A value of [token_cache]: a [dict] with any of six keys.  The value
    under [token_type] may itself be [None]. *)
Record cache_entry : Type := {
  ce_token_type : option (option Z);
  ce_key_word : option Z;
  ce_symbol : option string;
  ce_identifier : option string;
  ce_int_val : option Z;
  ce_string_val : option string
}.

Definition empty_entry : cache_entry :=
  {| ce_token_type := None; ce_key_word := None; ce_symbol := None;
     ce_identifier := None; ce_int_val := None; ce_string_val := None |}.

(** [token_queue] starts as the list [[]], which is not an iterator, and
    becomes an [itertools.chain] once a cleaned line has been seen; the
    chain is represented by the lexemes it has still to yield. *)
Inductive py_queue : Type :=
| EmptyList
| Chain (lexemes : list string).

Record JackTokenizer : Type := {
  fd : list string;              (* the lines the open file has still to yield *)
  fd_closed : bool;
  token : string;
  _next_token : string;
  token_queue : py_queue;
  token_cache : gmap string cache_entry;
  more_tokens : bool;
  line_number : Z;
  classified : list string       (* instrumentation, not in the source: the
                                    lexemes on which the five patterns
                                    were run, oldest first *)
}.

Definition KEYWORDS_TABLE : gmap string Z :=
  list_to_map
    [("class", token_types.CLASS); ("method", token_types.METHOD);
     ("function", token_types.FUNCTION); ("constructor", token_types.CONSTRUCTOR);
     ("int", token_types.INT); ("boolean", token_types.BOOLEAN);
     ("char", token_types.CHAR); ("void", token_types.VOID);
     ("var", token_types.VAR); ("static", token_types.STATIC);
     ("field", token_types.FIELD); ("let", token_types.LET);
     ("do", token_types.DO); ("if", token_types.IF);
     ("else", token_types.ELSE); ("while", token_types.WHILE);
     ("return", token_types.RETURN); ("true", token_types.TRUE);
     ("false", token_types.FALSE); ("null", token_types.NULL);
     ("this", token_types.THIS)].

Definition NAMES_TABLE : gmap Z string :=
  list_to_map
    [(token_types.TOKEN_TYPE, "token_type"); (token_types.KEYWORD, "keyword");
     (token_types.SYMBOL, "symbol"); (token_types.IDENTIFIER, "identifier");
     (token_types.INT_CONST, "int_const"); (token_types.STRING_CONST, "string_const");
     (token_types.CLASS, "class"); (token_types.METHOD, "method");
     (token_types.FUNCTION, "function"); (token_types.CONSTRUCTOR, "constructor");
     (token_types.INT, "int"); (token_types.BOOLEAN, "boolean");
     (token_types.CHAR, "char"); (token_types.VOID, "void");
     (token_types.VAR, "var"); (token_types.STATIC, "static");
     (token_types.FIELD, "field"); (token_types.LET, "let");
     (token_types.DO, "do"); (token_types.IF, "if");
     (token_types.ELSE, "else"); (token_types.WHILE, "while");
     (token_types.RETURN, "return"); (token_types.TRUE, "true");
     (token_types.FALSE, "false"); (token_types.NULL, "null");
     (token_types.THIS, "this")].

Definition XML_ESCAPES : gmap string string :=
  list_to_map [("&", "&amp;"); ("<", "&lt;"); (">", "&gt;")].

(** [XML_ESCAPES[t] if t in XML_ESCAPES else t] *)
Definition xml_escape (t : string) : string :=
  match XML_ESCAPES !! t with
  | Some e => e
  | None => t
  end.

(** [__init__], given the lines of the file. *)
Definition JackTokenizer_init (lines : list string) : JackTokenizer :=
  {| fd := lines; fd_closed := false; token := ""; _next_token := "";
     token_queue := EmptyList; token_cache := ∅; more_tokens := true;
     line_number := 1; classified := [] |}.

Definition set_fd (v : list string) (f : JackTokenizer) : JackTokenizer :=
  {| fd := v; fd_closed := fd_closed f; token := token f;
     _next_token := _next_token f; token_queue := token_queue f;
     token_cache := token_cache f; more_tokens := more_tokens f;
     line_number := line_number f; classified := classified f |}.

Definition set_fd_closed (v : bool) (f : JackTokenizer) : JackTokenizer :=
  {| fd := fd f; fd_closed := v; token := token f;
     _next_token := _next_token f; token_queue := token_queue f;
     token_cache := token_cache f; more_tokens := more_tokens f;
     line_number := line_number f; classified := classified f |}.

Definition set_token (v : string) (f : JackTokenizer) : JackTokenizer :=
  {| fd := fd f; fd_closed := fd_closed f; token := v;
     _next_token := _next_token f; token_queue := token_queue f;
     token_cache := token_cache f; more_tokens := more_tokens f;
     line_number := line_number f; classified := classified f |}.

Definition set_next_token (v : string) (f : JackTokenizer) : JackTokenizer :=
  {| fd := fd f; fd_closed := fd_closed f; token := token f;
     _next_token := v; token_queue := token_queue f;
     token_cache := token_cache f; more_tokens := more_tokens f;
     line_number := line_number f; classified := classified f |}.

Definition set_token_queue (v : py_queue) (f : JackTokenizer) : JackTokenizer :=
  {| fd := fd f; fd_closed := fd_closed f; token := token f;
     _next_token := _next_token f; token_queue := v;
     token_cache := token_cache f; more_tokens := more_tokens f;
     line_number := line_number f; classified := classified f |}.

Definition set_more_tokens (v : bool) (f : JackTokenizer) : JackTokenizer :=
  {| fd := fd f; fd_closed := fd_closed f; token := token f;
     _next_token := _next_token f; token_queue := token_queue f;
     token_cache := token_cache f; more_tokens := v;
     line_number := line_number f; classified := classified f |}.

Definition set_line_number (v : Z) (f : JackTokenizer) : JackTokenizer :=
  {| fd := fd f; fd_closed := fd_closed f; token := token f;
     _next_token := _next_token f; token_queue := token_queue f;
     token_cache := token_cache f; more_tokens := more_tokens f;
     line_number := v; classified := classified f |}.

(** [self.token_cache[self.token] = entry] *)
Definition cache_store (entry : cache_entry) (f : JackTokenizer) : JackTokenizer :=
  {| fd := fd f; fd_closed := fd_closed f; token := token f;
     _next_token := _next_token f; token_queue := token_queue f;
     token_cache := <[token f := entry]> (token_cache f);
     more_tokens := more_tokens f;
     line_number := line_number f; classified := classified f |}.

Definition note_classified (f : JackTokenizer) : JackTokenizer :=
  {| fd := fd f; fd_closed := fd_closed f; token := token f;
     _next_token := _next_token f; token_queue := token_queue f;
     token_cache := token_cache f; more_tokens := more_tokens f;
     line_number := line_number f; classified := classified f ++ [token f] |}.

Definition has_more_tokens (f : JackTokenizer) : bool := more_tokens f.

(** [next_clean_line]: the lines the generator yields when it is run to
    the end of [lines]; [inside_block_comment] and [block_comment] are its
    two local variables. *)
Definition clean (line : string) : string :=
  let line := re.sub_empty patterns.LINE_COMMENT line in
  join " " (split line).

Fixpoint next_clean_line_from (inside_block_comment : bool) (block_comment : string)
    (lines : list string) : list string :=
  match lines with
  | [] => []
  | line :: rest =>
      let inside_block_comment :=
        if re.search patterns.BLOCK_COMMENT_START line then true
        else inside_block_comment in
      if inside_block_comment then
        let block_comment := block_comment ++ line in
        let comment_removed := re.sub_empty patterns.BLOCK_COMMENT block_comment in
        if negb (String.eqb comment_removed block_comment) then
          let line := clean comment_removed in
          if negb (String.eqb line "")
          then line :: next_clean_line_from false "" rest
          else next_clean_line_from false "" rest
        else next_clean_line_from true block_comment rest
      else
        let line := clean line in
        if negb (String.eqb line "")
        then line :: next_clean_line_from inside_block_comment block_comment rest
        else next_clean_line_from inside_block_comment block_comment rest
  end.

Definition next_clean_line (lines : list string) : list string :=
  next_clean_line_from false "" lines.

(** [itertools.chain(queue, tokens)] *)
Definition chain (q : py_queue) (tokens : list string) : py_queue :=
  match q with
  | EmptyList => Chain tokens
  | Chain lexemes => Chain (lexemes ++ tokens)
  end.

(** [next(self.token_queue).group(0)] *)
Definition next_lexeme : M JackTokenizer string := fun f =>
  match token_queue f with
  | EmptyList => (Raise (Exn TypeError "'list' object is not an iterator"), f)
  | Chain [] => (Raise (Exn StopIteration ""), f)
  | Chain (m :: rest) => (Ok m, set_token_queue (Chain rest) f)
  end.

Definition truthy (s : string) : bool := negb (String.eqb s "").

Definition advance : M JackTokenizer unit :=
  f <- get ;;
  if has_more_tokens f then
    (if fd_closed f then raise ValueError "I/O operation on closed file." else ret tt) ;;
    modify (fun f =>
      set_fd [] (set_token_queue
        (fold_left (fun q line => chain q (re.finditer patterns.ALL_TERMINATORS line))
                   (next_clean_line (fd f)) (token_queue f)) f)) ;;
    try_except
      (f <- get ;;
       t <- (if truthy (_next_token f) then ret (_next_token f) else next_lexeme) ;;
       modify (set_token t) ;;
       modify (fun f => set_line_number (line_number f + 1) f) ;;
       n <- next_lexeme ;;
       modify (set_next_token n))
      StopIteration
      (fun _ => modify (set_next_token "")) ;;
    f <- get ;;
    when (negb (truthy (_next_token f)))
      (modify (set_more_tokens false) ;; modify (set_fd_closed true))
  else
    raise StopIteration "No more tokens".

(** The cascade of [fullmatch] tests of [token_type]. *)
Definition classify (t : string) : option Z :=
  if re.fullmatch patterns.KEYWORD t then Some token_types.KEYWORD
  else if re.fullmatch patterns.SYMBOL t then Some token_types.SYMBOL
  else if re.fullmatch patterns.INT_CONST t then Some token_types.INT_CONST
  else if re.fullmatch patterns.STRING_CONST t then Some token_types.STRING_CONST
  else if re.fullmatch patterns.IDENTIFIER t then Some token_types.IDENTIFIER
  else None.

(** [self.token_cache[self.token][key]], [None] standing for the
    [KeyError] that either subscript may raise. *)
Definition cached {A} (key : cache_entry -> option A) (f : JackTokenizer) : option A :=
  match token_cache f !! token f with
  | Some entry => key entry
  | None => None
  end.

Definition token_type : M JackTokenizer (option Z) :=
  f <- get ;;
  match cached ce_token_type f with
  | Some t => ret t
  | None =>
      modify note_classified ;;
      let temp_type := classify (token f) in
      modify (cache_store
        {| ce_token_type := Some temp_type; ce_key_word := None; ce_symbol := None;
           ce_identifier := None; ce_int_val := None; ce_string_val := None |}) ;;
      ret temp_type
  end.

Definition is_type (t : option Z) (c : Z) : bool :=
  match t with
  | Some v => (v =? c)%Z
  | None => false
  end.

Definition key_word : M JackTokenizer Z :=
  t <- token_type ;;
  if is_type t token_types.KEYWORD then
    f <- get ;;
    match cached ce_key_word f with
    | Some k => ret k
    | None =>
        match KEYWORDS_TABLE !! token f with
        | None => raise KeyError (token f)
        | Some type_ =>
            modify (cache_store
              {| ce_token_type := None; ce_key_word := Some type_; ce_symbol := None;
                 ce_identifier := None; ce_int_val := None; ce_string_val := None |}) ;;
            ret type_
        end
    end
  else raise TypeError "'token_type()' is not KEYWORD.".

Definition symbol : M JackTokenizer string :=
  t <- token_type ;;
  if is_type t token_types.SYMBOL then
    f <- get ;;
    match cached ce_symbol f with
    | Some v => ret v
    | None =>
        let valid_xml_char := xml_escape (token f) in
        modify (cache_store
          {| ce_token_type := None; ce_key_word := None; ce_symbol := Some valid_xml_char;
             ce_identifier := None; ce_int_val := None; ce_string_val := None |}) ;;
        ret valid_xml_char
    end
  else raise TypeError "'token_type()' is not SYMBOL.".

Definition identifier : M JackTokenizer string :=
  t <- token_type ;;
  if is_type t token_types.IDENTIFIER then
    f <- get ;;
    match cached ce_identifier f with
    | Some v => ret v
    | None =>
        modify (cache_store
          {| ce_token_type := None; ce_key_word := None; ce_symbol := None;
             ce_identifier := Some (token f); ce_int_val := None; ce_string_val := None |}) ;;
        ret (token f)
    end
  else raise TypeError "'token_type()' is not IDENTIFIER.".

Definition int_val : M JackTokenizer Z :=
  t <- token_type ;;
  if is_type t token_types.INT_CONST then
    f <- get ;;
    match cached ce_int_val f with
    | Some v => ret v
    | None =>
        match int (token f) with
        | None => raise ValueError (token f)
        | Some int_val_token =>
            modify (cache_store
              {| ce_token_type := None; ce_key_word := None; ce_symbol := None;
                 ce_identifier := None; ce_int_val := Some int_val_token;
                 ce_string_val := None |}) ;;
            ret int_val_token
        end
    end
  else raise TypeError "'token_type()' is not INT_CONST.".

Definition string_val : M JackTokenizer string :=
  t <- token_type ;;
  if is_type t token_types.STRING_CONST then
    f <- get ;;
    match cached ce_string_val f with
    | Some v => ret v
    | None =>
        let string_val_token := slice_1_m1 (token f) in
        modify (cache_store
          {| ce_token_type := None; ce_key_word := None; ce_symbol := None;
             ce_identifier := None; ce_int_val := None;
             ce_string_val := Some string_val_token |}) ;;
        ret string_val_token
    end
  else raise TypeError "'token_type()' is not STRING_CONST.".

(** ** [parser/compilation_engine.py] *)

(** The second component of a [_body] entry: a [str], or the [int] that
    [int_val] returns. *)
Inductive terminal_value : Type :=
| Str (s : string)
| Int (n : Z).

(** [format] applied to a terminal. *)
Definition format_value (v : terminal_value) : string :=
  match v with
  | Str s => s
  | Int n => str_of_int n
  end.

(** What has been written to [_outfile], one entry per call of [write] or
    [print], oldest first. *)
Inductive written : Type :=
| W_indent (n : Z)                                   (* write(' ' * n) *)
| W_terminal (element : string) (terminal : terminal_value)
| W_start (element : string)
| W_end (element : string).

(** [' ' * n] *)
Definition spaces (n : Z) : string :=
  String.concat "" (repeat " " (Z.to_nat n)).

Definition render (w : written) : string :=
  match w with
  | W_indent n => spaces n
  | W_terminal element terminal =>
      "<" ++ element ++ "> " ++ format_value terminal ++ " </" ++ element ++ ">" ++ str1 newline
  | W_start element => "<" ++ element ++ ">" ++ str1 newline
  | W_end element => "</" ++ element ++ ">" ++ str1 newline
  end.

(** The text of the output file. *)
Definition contents (out : list written) : string :=
  String.concat "" (map render out).

(** [_body] is a [PlusEqualsableIterator]: [+=] chains one entry behind
    those not yet taken and iteration takes them from the front, so it is a
    first-in first-out queue of the entries not yet written. *)
Record CompilationEngine : Type := {
  _infile : JackTokenizer;
  _outfile : list written;
  _indent : Z;
  _body : list (string * terminal_value);
  _safe_to_step : bool
}.

Definition CompilationEngine_init (infile : JackTokenizer) : CompilationEngine :=
  {| _infile := infile; _outfile := []; _indent := 0; _body := [];
     _safe_to_step := true |}.

Definition set_infile (v : JackTokenizer) (e : CompilationEngine) : CompilationEngine :=
  {| _infile := v; _outfile := _outfile e; _indent := _indent e;
     _body := _body e; _safe_to_step := _safe_to_step e |}.

Definition set_outfile (v : list written) (e : CompilationEngine) : CompilationEngine :=
  {| _infile := _infile e; _outfile := v; _indent := _indent e;
     _body := _body e; _safe_to_step := _safe_to_step e |}.

Definition set_indent (v : Z) (e : CompilationEngine) : CompilationEngine :=
  {| _infile := _infile e; _outfile := _outfile e; _indent := v;
     _body := _body e; _safe_to_step := _safe_to_step e |}.

Definition set_body (v : list (string * terminal_value)) (e : CompilationEngine)
    : CompilationEngine :=
  {| _infile := _infile e; _outfile := _outfile e; _indent := _indent e;
     _body := v; _safe_to_step := _safe_to_step e |}.

Definition set_safe_to_step (v : bool) (e : CompilationEngine) : CompilationEngine :=
  {| _infile := _infile e; _outfile := _outfile e; _indent := _indent e;
     _body := _body e; _safe_to_step := v |}.

Abbreviation CE := (M CompilationEngine).

(** A call of a tokenizer method on [self._infile]. *)
Definition f_ {A} (m : M JackTokenizer A) : CE A := fun e =>
  let (r, f') := m (_infile e) in (r, set_infile f' e).

(** [self._outfile.write(...)] and [print(..., file=self._outfile)] *)
Definition emit (w : written) : CE unit :=
  modify (fun e => set_outfile (_outfile e ++ [w]) e).

(** [self._body += [element, terminal]] *)
Definition body_add (element : string) (terminal : terminal_value) : CE unit :=
  modify (fun e => set_body (_body e ++ [(element, terminal)]) e).

Definition write_terminal (element : string) (terminal : terminal_value)
    (indent : bool) : CE unit :=
  (if indent then i <- gets _indent ;; emit (W_indent i) else ret tt) ;;
  emit (W_terminal element terminal).

(** The loop of [write_body] over the entries [entries] taken from
    [_body]. *)
Fixpoint write_entries (entries : list (string * terminal_value)) : CE unit :=
  match entries with
  | [] => ret tt
  | (inner_element, terminal) :: rest =>
      i <- gets _indent ;;
      emit (W_indent i) ;;
      write_terminal inner_element terminal false ;;
      write_entries rest
  end.

Definition write_body : CE unit :=
  entries <- gets _body ;;
  modify (set_body []) ;;
  write_entries entries.

Definition write_non_terminal_start (element : string) : CE unit :=
  i <- gets _indent ;;
  emit (W_indent i) ;;
  emit (W_start element) ;;
  modify (fun e => set_indent (_indent e + 2) e) ;;
  write_body.

Definition write_non_terminal_end (element : string) : CE unit :=
  write_body ;;
  modify (fun e => set_indent (_indent e - 2) e) ;;
  i <- gets _indent ;;
  emit (W_indent i) ;;
  emit (W_end element).

Definition write_non_terminal (element : string) : CE unit :=
  write_non_terminal_start element ;;
  write_non_terminal_end element.

(** The recurring block
    [if self._safe_to_step: f.advance(); self._safe_to_step = False]. *)
Definition step_if_safe : CE unit :=
  safe <- gets _safe_to_step ;;
  when safe (f_ advance ;; modify (set_safe_to_step false)).

(** [f.advance(); self._safe_to_step = False] *)
Definition step : CE unit :=
  f_ advance ;; modify (set_safe_to_step false).

(** ["| ".join(["'{}'".format(x) for x in xs])] *)
Definition expected_list (xs : list string) : string :=
  join "| " (map (fun x => "'" ++ x ++ "'") xs).

(** [table[key]] on a [dict]. *)
Definition subscript {S K A} `{Countable K} (table : gmap K A) (key : K)
    (shown : string) : M S A :=
  match table !! key with
  | Some v => ret v
  | None => raise KeyError shown
  end.

Definition add_keywords (keywords : list string) : CE unit :=
  step_if_safe ;;
  t <- f_ token_type ;;
  ok <- (if is_type t token_types.KEYWORD
         then bs <- mapM (fun key =>
                            k <- f_ key_word ;;
                            v <- subscript KEYWORDS_TABLE key key ;;
                            ret (k =? v)%Z) keywords ;;
              ret (any bs)
         else ret false) ;;
  if ok then
    k <- f_ key_word ;;
    terminal <- subscript NAMES_TABLE k (str_of_int k) ;;
    body_add "keyword" (Str terminal) ;;
    modify (set_safe_to_step true)
  else
    raise CompileKeywordError ("Expected " ++ expected_list keywords).

(** The argument of [add_symbols]: a list, or (from [add_op_or_unary_op])
    a generator expression, which can be run through only once. *)
Inductive iterable : Type :=
| ListOf (items : list string)
| Generator (items : list string).

Definition items_of (it : iterable) : list string :=
  match it with
  | ListOf items => items
  | Generator items => items
  end.

(** What a second iteration yields after a first one has run to the end. *)
Definition again (it : iterable) : list string :=
  match it with
  | ListOf items => items
  | Generator _ => []
  end.

Definition add_symbols (symbols : iterable) : CE unit :=
  step_if_safe ;;
  t <- f_ token_type ;;
  if is_type t token_types.SYMBOL then
    bs <- mapM (fun sym => s <- f_ symbol ;; ret (String.eqb s sym)) (items_of symbols) ;;
    if any bs then
      s <- f_ symbol ;;
      body_add "symbol" (Str s) ;;
      modify (set_safe_to_step true)
    else
      raise CompileSymbolError ("Expected " ++ expected_list (again symbols))
  else
    raise CompileSymbolError ("Expected " ++ expected_list (items_of symbols)).

Definition add_identifier (identifier_ : string) : CE unit :=
  step_if_safe ;;
  t <- f_ token_type ;;
  if is_type t token_types.IDENTIFIER then
    s <- f_ identifier ;;
    body_add "identifier" (Str s) ;;
    modify (set_safe_to_step true)
  else
    raise CompileError ("Expected a " ++ identifier_).

Definition add_type (void : bool) : CE unit :=
  let valid_types :=
    ([token_types.INT; token_types.CHAR; token_types.BOOLEAN]
     ++ (if void then [token_types.VOID] else []))%list in
  step_if_safe ;;
  t <- f_ token_type ;;
  ok <- (if is_type t token_types.KEYWORD
         then bs <- mapM (fun type_ => k <- f_ key_word ;; ret (k =? type_)%Z) valid_types ;;
              ret (any bs)
         else ret false) ;;
  if ok then
    k <- f_ key_word ;;
    terminal <- subscript NAMES_TABLE k (str_of_int k) ;;
    body_add "keyword" (Str terminal) ;;
    modify (set_safe_to_step true)
  else
    t <- f_ token_type ;;
    if is_type t token_types.IDENTIFIER then
      s <- f_ identifier ;;
      body_add "identifier" (Str s) ;;
      modify (set_safe_to_step true)
    else
      raise CompileTypeError
        ("Expected " ++ expected_list (map str_of_int valid_types ++ ["className"])%list).

(** [try: body  except CompileError as ex: raise cls(prefix + str(ex))],
    the handler every rule with a failure kind of its own ends in.  The
    body of the [try] block of a rule [r] is the definition [r_try]. *)
Definition reraise_as {A} (cls : exn_class) (prefix : string) (body : CE A) : CE A :=
  try_except body CompileError (fun ex => raise cls (prefix ++ str ex)).

Definition add_keyword_constant_try : CE unit :=
  add_keywords ["true"; "false"; "null"; "this"].

Definition add_keyword_constant : CE unit :=
  reraise_as CompileKeywordConstantError "Expected a keyword constant: "
    add_keyword_constant_try.

Definition add_op_or_unary_op_try (unary : bool) : CE unit :=
  if unary then add_symbols (ListOf ["-"; "~"])
  else add_symbols
         (Generator (map xml_escape ["+"; "-"; "*"; "/"; "&"; "|"; "<"; ">"; "="])).

Definition add_op_or_unary_op (unary : bool) : CE unit :=
  reraise_as CompileOpError "Expected an operator: " (add_op_or_unary_op_try unary).

(** The [while more_vars] loop of [add_type_var_name_var_name].  Python's
    [while] loops and its recursion are bounded by a step budget [fuel],
    handed on decreased to every further iteration and every recursive
    call. *)
Fixpoint more_vars_loop (fuel : nat) : CE unit :=
  match fuel with
  | O => out_of_fuel
  | S fuel =>
      add_symbols (ListOf [","; ";"]) ;;
      s <- f_ symbol ;;
      if String.eqb s ";" then ret tt
      else add_identifier "variable name" ;; more_vars_loop fuel
  end.

Definition add_type_var_name_var_name (fuel : nat) : CE unit :=
  add_type false ;;
  add_identifier "variable name" ;;
  more_vars_loop fuel.

Definition compile_class_var_dec (fuel : nat) : CE unit :=
  add_keywords ["static"; "field"] ;;
  reraise_as CompileClassVarDecError "Expected a complete static  or a field declaration: "
    (add_type_var_name_var_name fuel) ;;
  write_non_terminal "classVarDec".

Definition compile_var_dec (fuel : nat) : CE unit :=
  add_keywords ["var"] ;;
  reraise_as CompileVarDecError "Expected a complete variable declaration: "
    (add_type_var_name_var_name fuel) ;;
  write_non_terminal "varDec".

(** The [while True] loop of [compile_parameter_list]; in the loops below
    [true] stands for going round again and [false] for [break]. *)
Fixpoint parameter_list_loop (fuel : nat) : CE unit :=
  match fuel with
  | O => out_of_fuel
  | S fuel =>
      go <- try_except (add_type false ;; ret true) CompileTypeError (fun _ => ret false) ;;
      if go then
        reraise_as CompileParameterListError "Expected a complete parameter list declaration: "
          (add_identifier "variable name") ;;
        go <- try_except (add_symbols (ListOf [","]) ;; ret true)
                CompileSymbolError (fun _ => ret false) ;;
        if go then parameter_list_loop fuel else ret tt
      else ret tt
  end.

Definition compile_parameter_list (fuel : nat) : CE unit :=
  parameter_list_loop fuel ;;
  write_non_terminal "parameterList".

(** The rules for expressions call one another.  Each is written once, in
    this section, over the rules it calls; below, the recursion is closed
    by handing every callee the budget that is left (as a function of the
    engine, so that a callee is only evaluated where it is called). *)
Section expression_rules.

Variables compile_expression expression_loop compile_term compile_expression_list
  expression_list_loop add_subroutine_call : CE unit.

Definition compile_expression_try : CE unit :=
  compile_term ;;
  expression_loop.

Definition compile_expression_body : CE unit :=
  let current_element := "expression" in
  write_non_terminal_start current_element ;;
  reraise_as CompileExpressionError "Expected a complete expression: "
    compile_expression_try ;;
  write_non_terminal_end current_element.

(** The [while True] loop of [compile_expression]. *)
Definition expression_loop_body : CE unit :=
  go <- try_except
          (add_op_or_unary_op false ;;
           write_body ;;
           compile_term ;;
           ret true)
          CompileOpError (fun _ => ret false) ;;
  if go then expression_loop else ret tt.

(** The [if]/[elif] chain of [compile_term] on the kind of the token. *)
Definition compile_term_dispatch : CE unit :=
  t <- f_ token_type ;;
  if is_type t token_types.INT_CONST then
    v <- f_ int_val ;;
    body_add "integerConstant" (Int v) ;;
    modify (set_safe_to_step true)
  else
  t <- f_ token_type ;;
  if is_type t token_types.STRING_CONST then
    v <- f_ string_val ;;
    body_add "stringConstant" (Str v) ;;
    modify (set_safe_to_step true)
  else
  t <- f_ token_type ;;
  if is_type t token_types.KEYWORD then
    add_keyword_constant
  else
  t <- f_ token_type ;;
  if is_type t token_types.IDENTIFIER then
    add_identifier "variable name | subroutine name | class name" ;;
    step ;;
    t <- f_ token_type ;;
    if is_type t token_types.SYMBOL then
      s <- f_ symbol ;;
      if String.eqb s "[" then
        add_symbols (ListOf ["["]) ;;
        write_body ;;
        compile_expression ;;
        add_symbols (ListOf ["]"])
      else
      s <- f_ symbol ;;
      if String.eqb s "(" then
        add_symbols (ListOf ["("]) ;;
        write_body ;;
        compile_expression_list ;;
        add_symbols (ListOf [")"])
      else
      s <- f_ symbol ;;
      if String.eqb s "." then
        add_symbols (ListOf ["."]) ;;
        write_body ;;
        add_subroutine_call
      else ret tt
    else ret tt
  else
  t <- f_ token_type ;;
  if is_type t token_types.SYMBOL then
    s <- f_ symbol ;;
    if String.eqb s "(" then
      add_symbols (ListOf ["("]) ;;
      write_body ;;
      compile_expression ;;
      add_symbols (ListOf [")"])
    else
    s <- f_ symbol ;;
    if existsb (String.eqb s) ["-"; "~"] then
      add_op_or_unary_op true ;;
      write_body ;;
      compile_term
    else ret tt
  else ret tt.

Definition compile_term_body : CE unit :=
  let current_element := "term" in
  write_non_terminal_start current_element ;;
  step_if_safe ;;
  compile_term_dispatch ;;
  write_non_terminal_end "term".

Definition compile_expression_list_body : CE unit :=
  let current_element := "expressionList" in
  write_non_terminal_start current_element ;;
  step_if_safe ;;
  expression_list_loop ;;
  write_non_terminal_end current_element.

(** The [while] loop of [compile_expression_list]; its condition is
    [(token_type() == SYMBOL and symbol() != ')') or token_type() != SYMBOL]. *)
Definition expression_list_loop_body : CE unit :=
  t <- f_ token_type ;;
  c1 <- (if is_type t token_types.SYMBOL
         then s <- f_ symbol ;; ret (negb (String.eqb s ")"))
         else ret false) ;;
  c <- (if c1 then ret true
        else t <- f_ token_type ;; ret (negb (is_type t token_types.SYMBOL))) ;;
  if c then
    go <- try_except (compile_expression ;; ret true)
            CompileExpressionError (fun _ => ret false) ;;
    if go then
      go <- try_except (add_symbols (ListOf [","]) ;; write_body ;; ret true)
              CompileSymbolError (fun _ => ret false) ;;
      if go then expression_list_loop else ret tt
    else ret tt
  else ret tt.

Definition add_subroutine_call_try : CE unit :=
  add_identifier "subroutine name | class name | variable name" ;;
  add_symbols (ListOf ["("; "."]) ;;
  write_body ;;
  t <- f_ token_type ;;
  if is_type t token_types.SYMBOL then
    s <- f_ symbol ;;
    if String.eqb s "(" then
      compile_expression_list ;;
      add_symbols (ListOf [")"])
    else
    s <- f_ symbol ;;
    if String.eqb s "." then add_subroutine_call
    else ret tt
  else ret tt.

Definition add_subroutine_call_body : CE unit :=
  reraise_as CompileSubroutineCallError "Expected a complete subroutine call: "
    add_subroutine_call_try.

End expression_rules.

Fixpoint compile_expression (fuel : nat) : CE unit :=
  match fuel with
  | O => out_of_fuel
  | S fuel => compile_expression_body (fun e => expression_loop fuel e) (fun e => compile_term fuel e)
  end

with expression_loop (fuel : nat) : CE unit :=
  match fuel with
  | O => out_of_fuel
  | S fuel => expression_loop_body (fun e => expression_loop fuel e) (fun e => compile_term fuel e)
  end

with compile_term (fuel : nat) : CE unit :=
  match fuel with
  | O => out_of_fuel
  | S fuel =>
      compile_term_body (fun e => compile_expression fuel e) (fun e => compile_term fuel e)
        (fun e => compile_expression_list fuel e) (fun e => add_subroutine_call fuel e)
  end

with compile_expression_list (fuel : nat) : CE unit :=
  match fuel with
  | O => out_of_fuel
  | S fuel => compile_expression_list_body (fun e => expression_list_loop fuel e)
  end

with expression_list_loop (fuel : nat) : CE unit :=
  match fuel with
  | O => out_of_fuel
  | S fuel => expression_list_loop_body (fun e => compile_expression fuel e) (fun e => expression_list_loop fuel e)
  end

with add_subroutine_call (fuel : nat) : CE unit :=
  match fuel with
  | O => out_of_fuel
  | S fuel => add_subroutine_call_body (fun e => compile_expression_list fuel e) (fun e => add_subroutine_call fuel e)
  end.

Definition compile_do_try (fuel : nat) : CE unit :=
  add_keywords ["do"] ;;
  write_non_terminal_start "doStatement" ;;
  add_subroutine_call fuel ;;
  add_symbols (ListOf [";"]).

Definition compile_do (fuel : nat) : CE unit :=
  let current_element := "doStatement" in
  reraise_as CompileDoError "Expected a complete do statement: " (compile_do_try fuel) ;;
  write_non_terminal_end current_element.

Definition compile_let_try (fuel : nat) : CE unit :=
  add_keywords ["let"] ;;
  add_identifier "variable name" ;;
  write_non_terminal_start "letStatement" ;;
  expression <- try_except (add_symbols (ListOf ["["]) ;; write_body ;; ret true)
                  CompileSymbolError (fun _ => ret false) ;;
  when expression (compile_expression fuel ;; add_symbols (ListOf ["]"])) ;;
  add_symbols (ListOf ["="]) ;;
  write_body ;;
  compile_expression fuel ;;
  add_symbols (ListOf [";"]).

Definition compile_let (fuel : nat) : CE unit :=
  let current_element := "letStatement" in
  reraise_as CompileLetError "Expected a complete let statement: " (compile_let_try fuel) ;;
  write_non_terminal_end current_element.

Definition compile_return_try (fuel : nat) : CE unit :=
  add_keywords ["return"] ;;
  write_non_terminal_start "returnStatement" ;;
  try_except (add_symbols (ListOf [";"])) CompileSymbolError
    (fun _ =>
       try_except (compile_expression fuel) CompileExpressionError (fun _ => ret tt) ;;
       add_symbols (ListOf [";"])).

Definition compile_return (fuel : nat) : CE unit :=
  let current_element := "returnStatement" in
  reraise_as CompileReturnError "Expected a complete return statement: "
    (compile_return_try fuel) ;;
  write_non_terminal_end current_element.

(** The rules for statements that contain statements, written the same
    way; [fuel] is the budget left for the expressions inside them. *)
Section statement_rules.

Variable fuel : nat.
Variables compile_statements statements_loop compile_while compile_if : CE unit.

Definition compile_statements_body : CE unit :=
  let current_element := "statements" in
  write_non_terminal_start current_element ;;
  t <- f_ token_type ;;
  brace <- (if is_type t token_types.SYMBOL
            then s <- f_ symbol ;; ret (String.eqb s "{")
            else ret false) ;;
  when brace step ;;
  statements_loop ;;
  write_non_terminal_end current_element.

(** The [while] loop of [compile_statements]. *)
Definition statements_loop_body : CE unit :=
  t <- f_ token_type ;;
  if is_type t token_types.KEYWORD then
    (k <- f_ key_word ;;
     if (k =? token_types.LET)%Z then compile_let fuel else
     k <- f_ key_word ;;
     if (k =? token_types.IF)%Z then compile_if else
     k <- f_ key_word ;;
     if (k =? token_types.WHILE)%Z then compile_while else
     k <- f_ key_word ;;
     if (k =? token_types.DO)%Z then compile_do fuel else
     k <- f_ key_word ;;
     if (k =? token_types.RETURN)%Z then compile_return fuel else
     raise CompileKeywordError "Expected let | if | while | do | return") ;;
    step_if_safe ;;
    statements_loop
  else ret tt.

Definition compile_while_try : CE unit :=
  add_keywords ["while"] ;;
  add_symbols (ListOf ["("]) ;;
  write_non_terminal_start "whileStatement" ;;
  compile_expression fuel ;;
  add_symbols (ListOf [")"]) ;;
  add_symbols (ListOf ["{"]) ;;
  write_body ;;
  compile_statements ;;
  add_symbols (ListOf ["}"]).

Definition compile_while_body : CE unit :=
  let current_element := "whileStatement" in
  reraise_as CompileWhileError "Exprected a complete while statement: "
    compile_while_try ;;
  write_non_terminal_end current_element.

Definition compile_if_try : CE unit :=
  add_keywords ["if"] ;;
  add_symbols (ListOf ["("]) ;;
  write_non_terminal_start "ifStatement" ;;
  compile_expression fuel ;;
  add_symbols (ListOf [")"]) ;;
  add_symbols (ListOf ["{"]) ;;
  write_body ;;
  compile_statements ;;
  add_symbols (ListOf ["}"]) ;;
  step ;;
  t <- f_ token_type ;;
  else_ <- (if is_type t token_types.KEYWORD
            then k <- f_ key_word ;; ret (k =? token_types.ELSE)%Z
            else ret false) ;;
  when else_
    (add_keywords ["else"] ;;
     add_symbols (ListOf ["{"]) ;;
     write_body ;;
     compile_statements ;;
     add_symbols (ListOf ["}"])).

Definition compile_if_body : CE unit :=
  let current_element := "ifStatement" in
  reraise_as CompileIfError "Expected a complete if statement: " compile_if_try ;;
  write_non_terminal_end current_element.

End statement_rules.

Fixpoint compile_statements (fuel : nat) : CE unit :=
  match fuel with
  | O => out_of_fuel
  | S fuel => compile_statements_body (fun e => statements_loop fuel e)
  end

with statements_loop (fuel : nat) : CE unit :=
  match fuel with
  | O => out_of_fuel
  | S fuel =>
      statements_loop_body fuel (fun e => statements_loop fuel e) (fun e => compile_while fuel e) (fun e => compile_if fuel e)
  end

with compile_while (fuel : nat) : CE unit :=
  match fuel with
  | O => out_of_fuel
  | S fuel => compile_while_body fuel (fun e => compile_statements fuel e)
  end

with compile_if (fuel : nat) : CE unit :=
  match fuel with
  | O => out_of_fuel
  | S fuel => compile_if_body fuel (fun e => compile_statements fuel e)
  end.

(** The [while True] loop of [compile_subroutine_body]. *)
Fixpoint var_dec_loop (fuel : nat) : CE unit :=
  match fuel with
  | O => out_of_fuel
  | S fuel =>
      go <- try_except (compile_var_dec fuel ;; ret true)
              CompileKeywordError (fun _ => ret false) ;;
      if go then var_dec_loop fuel else ret tt
  end.

Definition compile_subroutine_body_try (fuel : nat) : CE unit :=
  add_symbols (ListOf ["{"]) ;;
  write_non_terminal_start "subroutineBody" ;;
  var_dec_loop fuel ;;
  compile_statements fuel ;;
  add_symbols (ListOf ["}"]).

Definition compile_subroutine_body (fuel : nat) : CE unit :=
  let current_element := "subroutineBody" in
  reraise_as CompileSubroutineBodyError "Expected a complete subroutine body declaration: "
    (compile_subroutine_body_try fuel) ;;
  write_non_terminal_end current_element.

Definition compile_subroutine_try (fuel : nat) : CE unit :=
  add_type true ;;
  add_identifier "subroutine name" ;;
  add_symbols (ListOf ["("]) ;;
  write_non_terminal_start "subroutineDec" ;;
  compile_parameter_list fuel ;;
  add_symbols (ListOf [")"]) ;;
  write_body ;;
  compile_subroutine_body fuel.

Definition compile_subroutine (fuel : nat) : CE unit :=
  let current_element := "subroutineDec" in
  add_keywords ["constructor"; "function"; "method"] ;;
  reraise_as CompileSubroutineError
    "Expected a complete method, function or constructor declaration: "
    (compile_subroutine_try fuel) ;;
  write_non_terminal_end current_element.

(** The two [while True] loops of [compile_class]. *)
Fixpoint class_var_dec_loop (fuel : nat) : CE unit :=
  match fuel with
  | O => out_of_fuel
  | S fuel =>
      go <- try_except (compile_class_var_dec fuel ;; ret true)
              CompileKeywordError (fun _ => ret false) ;;
      if go then class_var_dec_loop fuel else ret tt
  end.

Fixpoint subroutine_loop (fuel : nat) : CE unit :=
  match fuel with
  | O => out_of_fuel
  | S fuel =>
      go <- try_except (compile_subroutine fuel ;; ret true)
              CompileKeywordError (fun _ => ret false) ;;
      if go then subroutine_loop fuel else ret tt
  end.

Definition compile_class (fuel : nat) : CE unit :=
  let current_element := "class" in
  add_keywords [current_element] ;;
  add_identifier "class name" ;;
  add_symbols (ListOf ["{"]) ;;
  write_non_terminal_start current_element ;;
  class_var_dec_loop fuel ;;
  subroutine_loop fuel ;;
  add_symbols (ListOf ["}"]) ;;
  write_non_terminal_end current_element.

(** [syntax_analyzer.analyze] for one file: a tokenizer on the file's
    lines, an engine on the tokenizer, then [compile_class].  The run is
    given by the outcome and the engine it leaves behind. *)
Definition analyze (fuel : nat) (lines : list string) : result unit * CompilationEngine :=
  compile_class fuel (CompilationEngine_init (JackTokenizer_init lines)).

(** * Notions used to state the properties *)

(** The lexemes of a unit: every match of the combined pattern in every
    cleaned line, in order.  This is what [advance] chains into
    [token_queue]. *)
Definition lexemes (lines : list string) : list string :=
  flat_map (re.finditer patterns.ALL_TERMINATORS) (next_clean_line lines).

(** The lexemes of one line from position [i] on. *)
Definition lexemes_from (line : string) (i : nat) : list string :=
  re.matched (re.scan (String.length line - i) patterns.ALL_TERMINATORS line i).

(** A tokenizer whose current token is [t]. *)
Definition with_token (t : string) : JackTokenizer :=
  set_token t (JackTokenizer_init []).

(** [n] calls of [advance] in a row. *)
Fixpoint advance_n (n : nat) : M JackTokenizer unit :=
  match n with
  | O => ret tt
  | S n' => advance_n n' ;; advance
  end.

(** A fresh engine on a fresh tokenizer over [lines]. *)
Definition fresh (lines : list string) : CompilationEngine :=
  CompilationEngine_init (JackTokenizer_init lines).

(** The leaf entries of an output, in the order written. *)
Fixpoint leaves (out : list written) : list (string * terminal_value) :=
  match out with
  | [] => []
  | W_terminal element terminal :: rest => (element, terminal) :: leaves rest
  | _ :: rest => leaves rest
  end.

(** Undoing the escaping of [XML_ESCAPES]. *)
Definition xml_unescape (s : string) : string :=
  if String.eqb s "&amp;" then "&"
  else if String.eqb s "&lt;" then "<"
  else if String.eqb s "&gt;" then ">"
  else s.

(** The literal content of every leaf tag of an output. *)
Definition leaf_contents (out : list written) : list string :=
  map (fun entry => xml_unescape (format_value (snd entry))) (leaves out).

(** Nesting of an output.  The tag lines are read in order against the
    stack of the regions that are open, each with the indentation its
    start tag was written at: a start tag must sit two spaces per open
    region in, an end tag must close the innermost open region at the
    indentation of its start tag, and no indentation may be negative.
    [None] reports a violation, [Some stack] the regions left open. *)
Fixpoint nesting (out : list written) (stack : list (string * Z))
    : option (list (string * Z)) :=
  match out with
  | [] => Some stack
  | W_indent n :: W_start element :: rest =>
      if (0 <=? n)%Z && (n =? 2 * Z.of_nat (length stack))%Z
      then nesting rest ((element, n) :: stack)
      else None
  | W_indent n :: W_end element :: rest =>
      match stack with
      | (opened, m) :: stack' =>
          if String.eqb opened element && (n =? m)%Z then nesting rest stack' else None
      | [] => None
      end
  | W_indent n :: W_terminal _ _ :: rest =>
      if (0 <=? n)%Z then nesting rest stack else None
  | _ => None
  end.

Definition well_nested (out : list written) : bool :=
  match nesting out [] with
  | Some [] => true
  | _ => false
  end.

(** The tokens obtained by calling [advance] for as long as
    [has_more_tokens] holds, at most [fuel] times. *)
Fixpoint tokens_by_advance (fuel : nat) (f : JackTokenizer) : list string :=
  match fuel with
  | O => []
  | S fuel' =>
      if has_more_tokens f then
        match advance f with
        | (Ok _, f') => token f' :: tokens_by_advance fuel' f'
        | _ => []
        end
      else []
  end.

(** All the tokens of a unit; one call more than there are lexemes
    exhausts the tokenizer. *)
Definition all_tokens (lines : list string) : list string :=
  tokens_by_advance (S (length (lexemes lines))) (JackTokenizer_init lines).

(** How many start tags and end tags of an element an output has. *)
Definition count_start (element : string) (out : list written) : nat :=
  length (List.filter (fun w => match w with
                           | W_start el => String.eqb el element
                           | _ => false
                           end) out).

Definition count_end (element : string) (out : list written) : nat :=
  length (List.filter (fun w => match w with
                           | W_end el => String.eqb el element
                           | _ => false
                           end) out).

(** Does every match of a pattern consume a character?  (A sufficient
    syntactic test.) *)
Fixpoint nonnull (r : re.regex) : bool :=
  match r with
  | re.Eps => false
  | re.Cls _ => true
  | re.Seq r1 r2 => nonnull r1 || nonnull r2
  | re.Alt r1 r2 => nonnull r1 && nonnull r2
  | re.Star _ => false
  | re.Behind _ _ => false
  end.

Definition is_nil {A} (l : list A) : bool :=
  match l with
  | [] => true
  | _ => false
  end.

(** The tokenizer has read its file and made the lexemes [consumed]
    current one after the other, the last of them being the current
    token; [remaining] are still to come, the first of them buffered in
    [_next_token]. *)
Definition running (consumed remaining : list string) (f : JackTokenizer) : Prop :=
  fd f = [] /\ token f = List.last consumed "" /\ _next_token f = List.hd "" remaining
  /\ token_queue f = Chain (List.tl remaining)
  /\ more_tokens f = negb (is_nil remaining)
  /\ fd_closed f = is_nil remaining.

(** Soundness of the cache: whatever an entry holds for a lexeme is what
    the tokenizer would compute for it. *)
Definition entry_ok (t : string) (e : cache_entry) : Prop :=
  (forall v, ce_token_type e = Some v -> v = classify t)
  /\ (forall k, ce_key_word e = Some k -> KEYWORDS_TABLE !! t = Some k)
  /\ (forall s, ce_symbol e = Some s -> s = xml_escape t)
  /\ (forall s, ce_identifier e = Some s -> s = t)
  /\ (forall z, ce_int_val e = Some z -> int t = Some z)
  /\ (forall s, ce_string_val e = Some s -> s = slice_1_m1 t).

Definition cache_ok (f : JackTokenizer) : Prop :=
  forall t e, token_cache f !! t = Some e -> entry_ok t e.

(** [f'] is where [f] is: they differ at most in the cache (and in the
    record of the classifications made). *)
Definition same_position (f f' : JackTokenizer) : Prop :=
  fd f' = fd f /\ fd_closed f' = fd_closed f /\ token f' = token f
  /\ _next_token f' = _next_token f /\ token_queue f' = token_queue f
  /\ more_tokens f' = more_tokens f /\ line_number f' = line_number f.

(** [e'] differs from [e] at most in the cache of its tokenizer. *)
Definition quiet (e e' : CompilationEngine) : Prop :=
  same_position (_infile e) (_infile e') /\ _outfile e' = _outfile e
  /\ _indent e' = _indent e /\ _body e' = _body e
  /\ _safe_to_step e' = _safe_to_step e.

(** An engine with another output, indentation and queue. *)
Definition reframe (out : list written) (indent : Z) (body : list (string * terminal_value))
    (e : CompilationEngine) : CompilationEngine :=
  set_body body (set_indent indent (set_outfile out e)).

(** The leaf entry that stands for a lexeme. *)
Definition leaf_of_lexeme (t : string) : string * terminal_value :=
  let c := classify t in
  if is_type c token_types.KEYWORD then ("keyword", Str t)
  else if is_type c token_types.SYMBOL then ("symbol", Str (xml_escape t))
  else if is_type c token_types.IDENTIFIER then ("identifier", Str t)
  else if is_type c token_types.INT_CONST then
    ("integerConstant", match int t with Some n => Int n | None => Str t end)
  else if is_type c token_types.STRING_CONST then ("stringConstant", Str (slice_1_m1 t))
  else ("", Str t).

(** The tokenizer has not read its file yet. *)
Definition unread (L : list string) (f : JackTokenizer) : Prop :=
  token f = "" /\ _next_token f = "" /\ token_queue f = EmptyList
  /\ more_tokens f = true /\ lexemes (fd f) = L.

(** The tokenizer of a unit with the lexemes [L], after the lexemes
    [consumed] have been current. *)
Definition tokenizer_at (L consumed : list string) (f : JackTokenizer) : Prop :=
  (consumed = [] /\ unread L f)
  \/ (exists remaining, L = (consumed ++ remaining)%list /\ running consumed remaining f).

(** The engine on a unit with the lexemes [L]: the leaves written and the
    leaves queued are, in order, the leaves of some of the lexemes that
    have been current, the current one counting only once it has been
    consumed ([_safe_to_step]). *)
Definition Inv (L : list string) (e : CompilationEngine) : Prop :=
  cache_ok (_infile e)
  /\ Forall (fun m => m <> "") L
  /\ exists consumed emitted,
       tokenizer_at L consumed (_infile e)
       /\ (leaves (_outfile e) ++ _body e)%list = map leaf_of_lexeme emitted
       /\ sublist emitted (if _safe_to_step e then consumed else removelast consumed).

(** A computation keeps the invariant, however it ends. *)
Definition keeps (L : list string) {A} (m : M CompilationEngine A) : Prop :=
  forall e r e', Inv L e -> m e = (r, e') -> Inv L e'.

(** The same for a computation that starts on a token which has been
    fetched and not consumed. *)
Definition keeps_fetched (L : list string) {A} (m : M CompilationEngine A) : Prop :=
  forall e r e', Inv L e -> _safe_to_step e = false -> m e = (r, e') -> Inv L e'.

(** A computation that only consults the tokenizer. *)
Definition quietly {A} (m : M CompilationEngine A) : Prop :=
  forall e r e', cache_ok (_infile e) -> m e = (r, e') ->
                 quiet e e' /\ cache_ok (_infile e').

(** What [write_body] writes for the entries it takes. *)
Definition written_entries (indent : Z) (entries : list (string * terminal_value))
    : list written :=
  flat_map (fun entry => [W_indent indent; W_terminal (fst entry) (snd entry)]) entries.

(** A rule wraps the failures of its guarded part: when the part of the
    rule before its [try] block, [lead], has gone through and the block,
    [guarded], raises an exception that [except CompileError] catches, the
    rule, [run], raises an exception of the class [own] whose message is
    [expectation] followed by the message of the exception caught. *)
Definition wraps (own : exn_class) (expectation : string)
    (lead guarded run : M CompilationEngine unit) : Prop :=
  forall e e1 ex e2,
    lead e = (Ok tt, e1) ->
    guarded e1 = (Raise ex, e2) ->
    issubclass (exn_cls ex) CompileError = true ->
    run e = (Raise (Exn own (expectation ++ str ex)), e2).

(** The failure kinds that belong to a rule. *)
Definition rule_classes : list exn_class :=
  [CompileClassVarDecError; CompileSubroutineError; CompileParameterListError;
   CompileSubroutineBodyError; CompileVarDecError; CompileLetError;
   CompileExpressionError; CompileOpError; CompileKeywordConstantError;
   CompileDoError; CompileSubroutineCallError; CompileReturnError;
   CompileIfError; CompileWhileError].

(** What a matcher [m] on the subject [s] guarantees: it succeeds only
    through its continuation, at a position not before the one it started
    from and not beyond the end of the subject; [strict] says the position
    moved. *)
Definition advances {A : Type} (s : string) (strict : bool)
    (m : nat -> (nat -> option A) -> option A) : Prop :=
  forall i k x, m i k = Some x ->
    exists j, k j = Some x /\ (i <= j)%nat
              /\ ((i <= String.length s)%nat -> (j <= String.length s)%nat)
              /\ (strict = true -> (i < j)%nat).

(** The unescaped content of the leaf that stands for a lexeme, and the
    lexemes whose leaf is the lexeme itself. *)
Definition leaf_content (t : string) : string :=
  xml_unescape (format_value (snd (leaf_of_lexeme t))).

Definition verbatim (t : string) : bool :=
  is_type (classify t) token_types.KEYWORD
  || is_type (classify t) token_types.SYMBOL
  || is_type (classify t) token_types.IDENTIFIER.

(** A string between double quotes. *)
Definition quoted (s : string) : string := str1 dquote ++ s ++ str1 dquote.

(** The calls a user of the tokenizer can make. *)
Inductive tokenizer_call : Type :=
| call_advance
| call_token_type
| call_key_word
| call_symbol
| call_identifier
| call_int_val
| call_string_val.

(** The tokenizer after a call, whether the call returned or raised. *)
Definition after_call (c : tokenizer_call) (f : JackTokenizer) : JackTokenizer :=
  match c with
  | call_advance => snd (advance f)
  | call_token_type => snd (token_type f)
  | call_key_word => snd (key_word f)
  | call_symbol => snd (symbol f)
  | call_identifier => snd (identifier f)
  | call_int_val => snd (int_val f)
  | call_string_val => snd (string_val f)
  end.

Definition after_calls (cs : list tokenizer_call) (f : JackTokenizer) : JackTokenizer :=
  fold_left (fun f c => after_call c f) cs f.

(** What the accessors compute, without the cache. *)
Definition key_word_of (t : string) : result Z :=
  if is_type (classify t) token_types.KEYWORD then
    match KEYWORDS_TABLE !! t with
    | Some k => Ok k
    | None => Raise (Exn KeyError t)
    end
  else Raise (Exn TypeError "'token_type()' is not KEYWORD.").

Definition symbol_of (t : string) : result string :=
  if is_type (classify t) token_types.SYMBOL then Ok (xml_escape t)
  else Raise (Exn TypeError "'token_type()' is not SYMBOL.").

Definition identifier_of (t : string) : result string :=
  if is_type (classify t) token_types.IDENTIFIER then Ok t
  else Raise (Exn TypeError "'token_type()' is not IDENTIFIER.").

Definition int_val_of (t : string) : result Z :=
  if is_type (classify t) token_types.INT_CONST then
    match int t with
    | Some n => Ok n
    | None => Raise (Exn ValueError t)
    end
  else Raise (Exn TypeError "'token_type()' is not INT_CONST.").

Definition string_val_of (t : string) : result string :=
  if is_type (classify t) token_types.STRING_CONST then Ok (slice_1_m1 t)
  else Raise (Exn TypeError "'token_type()' is not STRING_CONST.").

(** The words of the pattern [KEYWORD], in the order of its branches. *)
Definition keyword_words : list string :=
  ["class"; "constructor"; "function"; "method"; "field"; "static";
   "var"; "int"; "char"; "boolean"; "void"; "true"; "false"; "null"; "this";
   "let"; "do"; "if"; "else"; "while"; "return"].

(** What a pattern matches, read off the pattern alone: [matches s r i j]
    says that [r] matches the characters of [s] from position [i] up to
    position [j].  An iteration of a star consumes at least one
    character. *)
Inductive matches (s : string) : re.regex -> nat -> nat -> Prop :=
| matches_Eps i : matches s re.Eps i i
| matches_Cls p i c :
    String.get i s = Some c -> p c = true -> matches s (re.Cls p) i (S i)
| matches_Seq r1 r2 i j k :
    matches s r1 i j -> matches s r2 j k -> matches s (re.Seq r1 r2) i k
| matches_Alt_l r1 r2 i j : matches s r1 i j -> matches s (re.Alt r1 r2) i j
| matches_Alt_r r1 r2 i j : matches s r2 i j -> matches s (re.Alt r1 r2) i j
| matches_Star_nil r i : matches s (re.Star r) i i
| matches_Star_cons r i j k :
    matches s r i j -> (i < j)%nat -> matches s (re.Star r) j k ->
    matches s (re.Star r) i k
| matches_Behind positive ps i :
    re.behind ps s i = positive -> matches s (re.Behind positive ps) i i.

(** Every character of a string satisfies [p]. *)
Fixpoint all_chars (p : ascii -> bool) (s : string) : bool :=
  match s with
  | EmptyString => true
  | String c rest => p c && all_chars p rest
  end.

(** The character at position [n] of [s] satisfies [p]. *)
Definition char_at (p : ascii -> bool) (s : string) (n : nat) : Prop :=
  exists c, String.get n s = Some c /\ p c = true.

(** What the body of [STRING_CONST] lets through: anything but a line
    feed and a double quote. *)
Definition is_string_char (c : ascii) : bool := is_dot c && negb (is_char dquote c).

(** The first character of an identifier, [[A-z_]]. *)
Definition is_identifier_start (c : ascii) : bool := in_range "A" "z" c || is_char "_" c.

(** The element names of the leaf tags. *)
Definition leaf_names : list string :=
  ["keyword"; "symbol"; "identifier"; "integerConstant"; "stringConstant"].

(** A character other than the slash. *)
Definition not_slash (c : ascii) : bool := negb (is_char "/" c).

(** [syntax_analyzer.analyze], for one file whose base name is
    [in_base_name]: the lines it prints after [compile_class].  A failure
    that is a [CompileError] is reported in one line, with the tokenizer's
    [line_number]; any other exception leaves [analyze]. *)
Definition analyze_prints (fuel : nat) (in_base_name : string) (lines : list string)
    : result (list string) :=
  match analyze fuel lines with
  | (Ok _, _) => Ok []
  | (Raise ex, ce) =>
      if issubclass (exn_cls ex) CompileError
      then Ok ["In " ++ in_base_name ++ " (line "
                 ++ str_of_int (line_number (_infile ce)) ++ "): " ++ str ex]
      else Raise ex
  | (OutOfFuel, _) => OutOfFuel
  end.

(** ** [syntax_analyzer.py] *)

(** [s.endswith(suffix)] *)
Definition endswith (s suffix : string) : bool :=
  (String.length suffix <=? String.length s)%nat
  && String.eqb (String.substring (String.length s - String.length suffix)
                   (String.length suffix) s) suffix.

(** [s.rsplit(sep)] for a separator of one character and no limit on the
    number of splits: the pieces between the separators, left to right. *)
Fixpoint rsplit_acc (sep : ascii) (piece : string) (s : string) : list string :=
  match s with
  | EmptyString => [piece]
  | String c rest =>
      if Ascii.eqb c sep then piece :: rsplit_acc sep "" rest
      else rsplit_acc sep (piece ++ str1 c) rest
  end.

Definition rsplit (sep : ascii) (s : string) : list string := rsplit_acc sep "" s.

(** [os.path.join(a, b)] on POSIX. *)
Definition os_path_join (a b : string) : string :=
  if String.prefix "/" b then b
  else if String.eqb a "" || endswith a "/" then a ++ b
  else a ++ "/" ++ b.

(** [get_files(path)]: the pairs it yields, given the names that
    [os.listdir(path)] returns when [path] is a directory. *)
Definition get_files (path : string) (listdir : list string) : list (string * string) :=
  let file_type := ".jack" in
  if endswith path file_type then [(path, List.hd "" (rsplit "." path))]
  else
    flat_map (fun name =>
                if endswith name file_type then
                  let file := os_path_join path name in
                  [(file, List.hd "" (rsplit "." file))]
                else []) listdir.

(** What the comparison at the end of [analyze] prints: a block of lines
    for a pair of lines that differ, with the index of the pair and the two
    lines, or the remark that the file is too short. *)
Inductive comparison_print : Type :=
| Lines_differ (index : nat) (compare_line my_line : string)
| File_too_short.

(** The loop over [enumerate(my_f)] from the index [index] on, and the
    test after it; [compare_f.readline()] is the next line, or the empty
    string at the end of the file. *)
Fixpoint compare_from (index : nat) (my_f compare_f : list string)
    : list comparison_print :=
  match my_f with
  | [] => if truthy (List.hd "" compare_f) then [File_too_short] else []
  | my_line :: my_rest =>
      let compare_line := List.hd "" compare_f in
      ((if negb (String.eqb my_line compare_line)
        then [Lines_differ index compare_line my_line] else [])
       ++ compare_from (S index) my_rest (List.tl compare_f))%list
  end.

Definition compare_files (my_f compare_f : list string) : list comparison_print :=
  compare_from 0 my_f compare_f.

(** A character other than the dot. *)
Definition not_dot (c : ascii) : bool := negb (is_char "." c).

(** Reading an output from the top, with the indentation that the next
    line ought to have: [(i, None)] at the start of a line, [(i, Some n)]
    once the indentation [n] has been read and the tag is to come.  A leaf
    and a start tag stand at the indentation [i]; a start tag moves it in
    by 2; an end tag stands at [i - 2] and moves it out by 2.  No
    indentation is below [floor].  [None] reports an output that does not
    read so. *)
Definition read_line (floor : Z) (st : option (Z * option Z)) (w : written)
    : option (Z * option Z) :=
  match st with
  | None => None
  | Some (i, None) =>
      match w with
      | W_indent n => if (floor <=? n)%Z then Some (i, Some n) else None
      | _ => None
      end
  | Some (i, Some n) =>
      match w with
      | W_indent _ => None
      | W_terminal _ _ => if (n =? i)%Z then Some (i, None) else None
      | W_start _ => if (n =? i)%Z then Some (i + 2, None) else None
      | W_end _ => if (n =? i - 2)%Z then Some (i - 2, None) else None
      end
  end.

(** The output [out] reads from the indentation [i] to the indentation
    [i'] in whole lines. *)
Definition reads (floor : Z) (out : list written) (i i' : Z) : Prop :=
  fold_left (read_line floor) out (Some (i, None)) = Some (i', None).

(** A computation that moves the indentation by no less than [lo] at any
    point and, when it returns, by no less than [ok] in all; what it
    writes reads as lines from the indentation it starts at to the one it
    ends at. *)
Definition shifts (lo ok : Z) {A} (m : M CompilationEngine A) : Prop :=
  forall e r e', m e = (r, e') ->
    exists new, _outfile e' = (_outfile e ++ new)%list
      /\ reads (_indent e + lo) new (_indent e) (_indent e')
      /\ _indent e + lo <= _indent e'
      /\ (forall a, r = Ok a -> _indent e + ok <= _indent e').

(** A computation that neither writes nor moves the indentation. *)
Definition still {A} (m : M CompilationEngine A) : Prop :=
  forall e r e', m e = (r, e') -> _outfile e' = _outfile e /\ _indent e' = _indent e.

(** * Properties *)

(** The assertions at the end of [patterns.py] hold of the patterns as
    embedded. *)
Lemma patterns_assertions :
  map (re.fullmatch patterns.SYMBOL) ["\"; "A"; "/"; "{"; ","; "."; "|"; "~"; "]"; "("]
  = [false; false; true; true; true; true; true; true; true; true]
  /\ map (re.fullmatch patterns.INT_CONST)
       ["9999"; "32767"; "32768"; "32777"; "32867"; "33767"; "42767"; "5000000"]
     = [true; true; false; false; false; false; false; false]
  /\ map (re.fullmatch patterns.STRING_CONST)
       [str1 dquote ++ str1 newline ++ str1 dquote; str1 dquote;
        str1 dquote ++ "sdf" ++ str1 dquote ++ "fdsf" ++ str1 dquote;
        str1 dquote ++ "te;s.<t" ++ str1 dquote]
     = [false; false; false; true]
  /\ map (re.fullmatch patterns.IDENTIFIER) ["AB99_"; "_AB99"; "9AB99"; ""; ";."]
     = [true; true; false; false; false].
Proof. repeat split; vm_compute; reflexivity. Qed.

(** ** Integer constants *)

(** C3.  [token_type] does not classify every digit string whose value is
    at most 32767 as an integer constant: with [19999] as the current
    token it returns [None], although [int] decodes the token to 19999.
    The boundary cases behave as the pattern's comment says: [32767] is an
    integer constant and [32768] is not. *)
Theorem token_type_19999_unclassified :
  fst (token_type (with_token "19999")) = Ok None
  /\ int "19999" = Some 19999%Z
  /\ (0 <= 19999 <= 32767)%Z
  /\ fst (token_type (with_token "32767")) = Ok (Some token_types.INT_CONST)
  /\ fst (token_type (with_token "32768")) = Ok None.
Proof. repeat split; vm_compute; congruence. Qed.

(** Read from a file, no lexeme has more than four digits: the first
    alternative of [INT_CONST] always wins the search. *)
Lemma lexemes_of_long_numerals :
  lexemes ["32767"; "32768"; "19999"] = ["3276"; "7"; "3276"; "8"; "1999"; "9"].
Proof. vm_compute. reflexivity. Qed.

(** ** Identifiers *)

(** C4.  A lexeme classified as an identifier need not start with a letter
    or an underscore: the line [^] yields the lexeme [^], [token_type]
    classifies it as an identifier, and its first character is neither a
    letter nor the underscore. *)
Theorem caret_is_an_identifier :
  lexemes ["^"] = ["^"]
  /\ fst ((advance ;; token_type) (JackTokenizer_init ["^"]))
     = Ok (Some token_types.IDENTIFIER)
  /\ (in_range "a" "z" "^" || in_range "A" "Z" "^" || is_char "_" "^") = false.
Proof. repeat split; vm_compute; reflexivity. Qed.

(** ** The classification cache *)

(** C5.  A typed accessor replaces the cache entry of the current lexeme
    by a [dict] that holds its own key only, so the next [token_type] call
    finds no cached classification and runs the patterns again: after
    [token_type(); key_word(); token_type()] on the lexeme [class] the
    patterns have been run on it twice, and the entry stored by
    [key_word] has no [token_type]. *)
Theorem key_word_drops_cached_token_type :
  let f0 := snd (advance (JackTokenizer_init ["class"])) in
  let f1 := snd (token_type f0) in
  let f2 := snd (key_word f1) in
  let f3 := snd (token_type f2) in
  token f0 = "class"
  /\ classified f1 = ["class"]
  /\ fst (key_word f1) = Ok token_types.CLASS
  /\ cached ce_token_type f1 = Some (Some token_types.KEYWORD)
  /\ cached ce_token_type f2 = None
  /\ fst (token_type f2) = Ok (Some token_types.KEYWORD)
  /\ classified f3 = ["class"; "class"].
Proof. repeat split; vm_compute; reflexivity. Qed.

(** ** Nesting of the output *)

(** C2.  A unit can compile without error and leave regions open.  In
    [return a [ 1 ;] the closing bracket is missing; [compile_term] raises
    after the start tags of the expression and of the term were written,
    [compile_return] swallows the failure and accepts the [;], and the
    end tags of both regions are never written.  The output has two start
    tags and one end tag for each of [expression] and [term], the end tag
    of [returnStatement] is written at another indentation than its start
    tag, and the engine ends four spaces in. *)
Theorem return_leaves_regions_open :
  let run := analyze 100 ["class A { function void f ( ) { return a [ 1 ; } }"] in
  let out := _outfile (snd run) in
  fst run = Ok tt
  /\ well_nested out = false
  /\ count_start "expression" out = 2%nat /\ count_end "expression" out = 1%nat
  /\ count_start "term" out = 2%nat /\ count_end "term" out = 1%nat
  /\ nth_error out 30 = Some (W_indent 8)
  /\ nth_error out 31 = Some (W_start "returnStatement")
  /\ nth_error out 54 = Some (W_indent 12)
  /\ nth_error out 55 = Some (W_end "returnStatement")
  /\ _indent (snd run) = 4%Z.
Proof. vm_compute. repeat split; reflexivity. Qed.

(** A unit without such a slip is nested well. *)
Lemma class_Main_output :
  let run := analyze 100 ["class Main { }"] in
  fst run = Ok tt
  /\ well_nested (_outfile (snd run)) = true
  /\ leaves (_outfile (snd run))
     = [("keyword", Str "class"); ("identifier", Str "Main");
        ("symbol", Str "{"); ("symbol", Str "}")]
  /\ count_start "classVarDec" (_outfile (snd run)) = 0%nat
  /\ count_start "subroutineDec" (_outfile (snd run)) = 0%nat.
Proof. vm_compute. repeat split; reflexivity. Qed.

(** ** The let statement *)

(** C8.  [let x = 1;] compiles.  [let x = 1], when the unit ends there,
    does not raise [CompileLetError]: the engine asks the exhausted
    tokenizer for the token after [1], [advance] raises [StopIteration],
    and no handler of the engine catches that class.  The same happens
    when the statement ends a unit that began with a class.  Only when a
    token follows is the missing [;] reported as [CompileLetError]. *)
Theorem let_without_terminator_at_end_of_unit :
  fst (compile_let 100 (fresh ["let x = 1;"])) = Ok tt
  /\ fst (compile_let 100 (fresh ["let x = 1"]))
     = Raise (Exn StopIteration "No more tokens")
  /\ fst (analyze 100 ["class A { function void f ( ) { let x = 1"])
     = Raise (Exn StopIteration "No more tokens")
  /\ issubclass StopIteration CompileError = false
  /\ fst (compile_let 100 (fresh ["let x = 1 }"]))
     = Raise (Exn CompileLetError "Expected a complete let statement: Expected ';'").
Proof. vm_compute. repeat split; reflexivity. Qed.

(** ** Matches consume characters *)

Lemma get_Some_lt (s : string) : forall i c, String.get i s = Some c -> (i < String.length s)%nat.
Proof.
  induction s as [|a s IH]; intros i c H; simpl in *; [discriminate|].
  destruct i as [|i]; [lia|]. apply IH in H. lia.
Qed.

Lemma get_lt_Some (s : string) : forall i, (i < String.length s)%nat -> exists c, String.get i s = Some c.
Proof.
  induction s as [|a s IH]; intros i H; simpl in *; [lia|].
  destruct i as [|i]; [eauto|]. apply IH. lia.
Qed.

Section progress.
Context {A : Type} (s : string).

Lemma star_loop_advances (body : nat -> (nat -> option A) -> option A) :
  advances s false body ->
  forall fuel, advances s false (fun i k => re.star_loop body k fuel i).
Proof.
  intros Hbody fuel. induction fuel as [|fuel IH]; intros i k x H; simpl in H.
  - exists i. repeat split; auto; discriminate.
  - destruct (body i _) as [y|] eqn:E.
    + inversion H; subst y; clear H.
      apply Hbody in E. destruct E as (j & Hk & Hij & Hlen & _).
      destruct (i <? j)%nat; [|discriminate].
      apply IH in Hk. destruct Hk as (j' & Hk' & Hjj' & Hlen' & _).
      exists j'. repeat split; auto; try lia; discriminate.
    + exists i. repeat split; auto; discriminate.
Qed.

Lemma rmatch_advances (r : re.regex) :
  advances (A:=A) s (nonnull r) (fun i k => re.rmatch r s i k).
Proof.
  induction r as [|p|r1 IH1 r2 IH2|r1 IH1 r2 IH2|r IH|positive ps];
    intros i k x H; simpl in H.
  - exists i. repeat split; auto; discriminate.
  - destruct (String.get i s) as [c|] eqn:E; [|discriminate].
    destruct (p c); [|discriminate].
    apply get_Some_lt in E. exists (S i). repeat split; auto; lia.
  - apply IH1 in H. destruct H as (j & H & Hij & Hlen & Hs1).
    apply IH2 in H. destruct H as (j' & H & Hjj' & Hlen' & Hs2).
    exists j'. repeat split; auto; try lia.
    simpl. intros Hn. apply orb_true_iff in Hn. destruct Hn as [Hn|Hn].
    + specialize (Hs1 Hn). lia.
    + specialize (Hs2 Hn). lia.
  - simpl. destruct (re.rmatch r1 s i k) as [y|] eqn:E.
    + inversion H; subst y. apply IH1 in E.
      destruct E as (j & Hk & Hij & Hlen & Hs). exists j. repeat split; auto.
      intros Hn. apply andb_true_iff in Hn. apply Hs, Hn.
    + apply IH2 in H. destruct H as (j & Hk & Hij & Hlen & Hs).
      exists j. repeat split; auto.
      intros Hn. apply andb_true_iff in Hn. apply Hs, Hn.
  - assert (Hbody : advances (A:=A) s false (fun i' k' => re.rmatch r s i' k')).
    { intros i' k' x' H'. apply IH in H'. destruct H' as (j & ? & ? & ? & _).
      exists j. repeat split; auto; discriminate. }
    apply (star_loop_advances _ Hbody) in H. exact H.
  - destruct (Bool.eqb positive (re.behind ps s i)); [|discriminate].
    exists i. repeat split; auto; discriminate.
Qed.

End progress.

Lemma match_at_bounds (r : re.regex) (s : string) (i j : nat) :
  nonnull r = true -> (i <= String.length s)%nat ->
  re.match_at r s i = Some j -> (i < j <= String.length s)%nat.
Proof.
  intros Hn Hi H. unfold re.match_at in H.
  apply (rmatch_advances s r) in H. destruct H as (j' & Hj & _ & Hlen & Hs).
  inversion Hj; subst j'. split; auto.
Qed.

Lemma ALL_TERMINATORS_nonnull : nonnull patterns.ALL_TERMINATORS = true.
Proof. reflexivity. Qed.

(** The budget of [scan] does not matter once it covers what is left of
    the subject. *)
Lemma scan_fuel (r : re.regex) (s : string) :
  forall fuel1 fuel2 i,
    (String.length s - i <= fuel1)%nat -> (String.length s - i <= fuel2)%nat ->
    re.scan fuel1 r s i = re.scan fuel2 r s i.
Proof.
  induction fuel1 as [|fuel1 IH]; intros fuel2 i H1 H2.
  - destruct fuel2 as [|fuel2]; [reflexivity|]. simpl.
    destruct (String.get i s) as [c|] eqn:E; [|reflexivity].
    apply get_Some_lt in E. lia.
  - destruct fuel2 as [|fuel2]; simpl.
    + destruct (String.get i s) as [c|] eqn:E; [|reflexivity].
      apply get_Some_lt in E. lia.
    + destruct (String.get i s) as [c|] eqn:E; [|reflexivity].
      apply get_Some_lt in E.
      destruct (re.match_at r s i) as [j|].
      * destruct (i <? j)%nat eqn:Hij.
        -- apply Nat.ltb_lt in Hij. f_equal. apply IH; lia.
        -- f_equal. apply IH; lia.
      * f_equal. apply IH; lia.
Qed.

Lemma substring_nonempty (s : string) :
  forall i n, (i < String.length s)%nat -> String.substring i (S n) s <> "".
Proof.
  induction s as [|a s IH]; intros i n H; simpl in *; [lia|].
  destruct i as [|i]; [discriminate|]. apply IH. lia.
Qed.

(** A character at which no pattern matches is passed over. *)
Lemma lexemes_from_skip (line : string) (i : nat) (c : ascii) :
  String.get i line = Some c ->
  re.match_at patterns.ALL_TERMINATORS line i = None ->
  lexemes_from line i = lexemes_from line (S i).
Proof.
  intros Hget Hm. pose proof (get_Some_lt _ _ _ Hget) as Hlt.
  unfold lexemes_from.
  replace (String.length line - i)%nat with (S (String.length line - S i)) by lia.
  simpl. rewrite Hget, Hm. reflexivity.
Qed.

(** A match is yielded whole, and the scan goes on behind it. *)
Lemma lexemes_from_match (line : string) (i j : nat) :
  (i <= String.length line)%nat ->
  re.match_at patterns.ALL_TERMINATORS line i = Some j ->
  (i < j <= String.length line)%nat
  /\ lexemes_from line i = String.substring i (j - i) line :: lexemes_from line j.
Proof.
  intros Hi Hm.
  pose proof (match_at_bounds _ _ _ _ ALL_TERMINATORS_nonnull Hi Hm) as Hb.
  split; [exact Hb|].
  destruct (get_lt_Some line i) as [c Hget]; [lia|].
  unfold lexemes_from.
  replace (String.length line - i)%nat with (S (String.length line - S i)) by lia.
  simpl. rewrite Hget, Hm.
  destruct (Nat.ltb_spec i j); [|lia]. simpl. f_equal. f_equal.
  apply scan_fuel; lia.
Qed.

Lemma finditer_lexemes_from (line : string) :
  re.finditer patterns.ALL_TERMINATORS line = lexemes_from line 0.
Proof.
  unfold re.finditer, re.pieces, lexemes_from. rewrite Nat.sub_0_r. reflexivity.
Qed.

(** No lexeme is the empty string. *)
Lemma lexemes_from_nonempty (line : string) :
  forall n i, (String.length line - i <= n)%nat -> Forall (fun m => m <> "") (lexemes_from line i).
Proof.
  induction n as [|n IH]; intros i Hn.
  - unfold lexemes_from. replace (String.length line - i)%nat with 0%nat by lia.
    constructor.
  - destruct (String.get i line) as [c|] eqn:Hget.
    + pose proof (get_Some_lt _ _ _ Hget) as Hlt.
      destruct (re.match_at patterns.ALL_TERMINATORS line i) as [j|] eqn:Hm.
      * destruct (lexemes_from_match line i j) as [Hb Heq]; [lia|exact Hm|].
        rewrite Heq. constructor.
        -- replace (j - i)%nat with (S (j - i - 1)) by lia.
           apply substring_nonempty. lia.
        -- apply IH. lia.
      * rewrite (lexemes_from_skip _ _ _ Hget Hm). apply IH. lia.
    + unfold lexemes_from.
      destruct (String.length line - i)%nat; [constructor|].
      simpl. rewrite Hget. constructor.
Qed.

Lemma lexemes_nonempty (lines : list string) : Forall (fun m => m <> "") (lexemes lines).
Proof.
  unfold lexemes. induction (next_clean_line lines) as [|line rest IH]; simpl.
  - constructor.
  - apply Forall_app. split; [|exact IH].
    rewrite finditer_lexemes_from. apply (lexemes_from_nonempty line (String.length line)). lia.
Qed.

(** ** The contract of [advance] *)

Lemma truthy_nonempty (s : string) : s <> "" -> truthy s = true.
Proof. destruct s; [congruence|reflexivity]. Qed.

Lemma advance_running (consumed remaining : list string) (x : string) (f : JackTokenizer) :
  Forall (fun m => m <> "") (x :: remaining) ->
  running consumed (x :: remaining) f ->
  exists f', advance f = (Ok tt, f') /\ running (consumed ++ [x]) remaining f'
             /\ token_cache f' = token_cache f /\ classified f' = classified f.
Proof.
  intros Hne (Hfd & Htok & Hnext & Hq & Hmore & Hclosed).
  destruct f as [fd0 closed0 tok0 next0 q0 cache0 more0 line0 cls0]; simpl in *. subst.
  inversion Hne as [|? ? Hx Hrem]; subst.
  unfold advance, bind, get, has_more_tokens; simpl.
  unfold try_except, bind, get, modify, next_lexeme; simpl.
  rewrite (truthy_nonempty _ Hx). simpl.
  destruct remaining as [|y rem]; simpl.
  - eexists. split; [reflexivity|]. unfold running; simpl.
    rewrite List.last_last. repeat split; reflexivity.
  - inversion Hrem as [|? ? Hy _]; subst.
    unfold when. simpl. rewrite (truthy_nonempty _ Hy). simpl.
    eexists. split; [reflexivity|]. unfold running; simpl.
    rewrite List.last_last. repeat split; reflexivity.
Qed.

Lemma advance_exhausted (consumed : list string) (f : JackTokenizer) :
  running consumed [] f ->
  advance f = (Raise (Exn StopIteration "No more tokens"), f).
Proof.
  intros (Hfd & Htok & Hnext & Hq & Hmore & Hclosed).
  unfold advance, bind, get, has_more_tokens; simpl. rewrite Hmore. reflexivity.
Qed.

Lemma fold_chain (F : string -> list string) (ls : list string) : forall acc,
  fold_left (fun q line => chain q (F line)) ls (Chain acc) = Chain (acc ++ flat_map F ls).
Proof.
  induction ls as [|l ls IH]; intros acc; simpl.
  - rewrite app_nil_r. reflexivity.
  - rewrite IH. rewrite app_assoc. reflexivity.
Qed.

Lemma queue_after_reading (lines : list string) :
  fold_left (fun q line => chain q (re.finditer patterns.ALL_TERMINATORS line))
            (next_clean_line lines) EmptyList
  = match next_clean_line lines with
    | [] => EmptyList
    | _ => Chain (lexemes lines)
    end.
Proof.
  unfold lexemes. destruct (next_clean_line lines) as [|l ls]; [reflexivity|].
  simpl. rewrite fold_chain. reflexivity.
Qed.

(** The first call reads the whole file. *)
Lemma advance_first (lines : list string) (x : string) (rest : list string) :
  lexemes lines = x :: rest ->
  exists f', advance (JackTokenizer_init lines) = (Ok tt, f') /\ running [x] rest f'.
Proof.
  intros HL.
  pose proof (lexemes_nonempty lines) as Hne. rewrite HL in Hne.
  inversion Hne as [|? ? Hx Hrest]; subst.
  pose proof (queue_after_reading lines) as Hq.
  assert (Hclean : next_clean_line lines <> []).
  { intros E. unfold lexemes in HL. rewrite E in HL. discriminate. }
  destruct (next_clean_line lines) as [|l ls] eqn:Ecl; [congruence|].
  unfold advance, bind, get, has_more_tokens, JackTokenizer_init, modify; simpl.
  rewrite Ecl. rewrite Hq, HL.
  unfold try_except, bind, get, modify, next_lexeme; simpl.
  destruct rest as [|y rem]; simpl.
  - eexists. split; [reflexivity|]. unfold running; simpl. repeat split; reflexivity.
  - inversion Hrest as [|? ? Hy _]; subst.
    unfold when. simpl. rewrite (truthy_nonempty _ Hy). simpl.
    eexists. split; [reflexivity|]. unfold running; simpl. repeat split; reflexivity.
Qed.

Lemma skipn_cons_nth {A} (d : A) (L : list A) : forall k,
  (k < length L)%nat -> skipn k L = nth k L d :: skipn (S k) L.
Proof.
  induction L as [|a L IH]; intros k Hk; simpl in *; [lia|].
  destruct k as [|k]; [reflexivity|]. apply IH. lia.
Qed.

Lemma firstn_S_snoc {A} (d : A) (L : list A) : forall k,
  (k < length L)%nat -> firstn (S k) L = (firstn k L ++ [nth k L d])%list.
Proof.
  induction L as [|a L IH]; intros k Hk; simpl in *; [lia|].
  destruct k as [|k]; [reflexivity|]. simpl. f_equal. apply IH. lia.
Qed.

Lemma hd_skipn {A} (d : A) (L : list A) : forall k, List.hd d (skipn k L) = nth k L d.
Proof.
  induction L as [|a L IH]; intros [|k]; simpl; auto.
Qed.

Lemma is_nil_skipn {A} (L : list A) : forall k,
  negb (is_nil (skipn k L)) = (k <? length L)%nat.
Proof.
  induction L as [|a L IH]; intros [|k]; simpl; auto.
Qed.

Lemma Forall_skipn {A} (P : A -> Prop) (L : list A) : forall k, Forall P L -> Forall P (skipn k L).
Proof.
  induction L as [|a L IH]; intros [|k] H; simpl; auto.
  inversion H; auto.
Qed.

Lemma advance_n_running (lines : list string) (x : string) (rest : list string) :
  lexemes lines = x :: rest ->
  forall k, (k < length (x :: rest))%nat ->
    exists f, advance_n (S k) (JackTokenizer_init lines) = (Ok tt, f)
              /\ running (firstn (S k) (x :: rest)) (skipn (S k) (x :: rest)) f.
Proof.
  intros HL. set (L := x :: rest).
  assert (Hne : Forall (fun m => m <> "") L).
  { unfold L. rewrite <- HL. apply lexemes_nonempty. }
  induction k as [|k IH]; intros Hk.
  - destruct (advance_first lines x rest HL) as (f & Hf & Hrun).
    exists f. split; [|exact Hrun].
    simpl. unfold bind, ret. exact Hf.
  - destruct IH as (f & Hf & Hrun); [lia|].
    rewrite (skipn_cons_nth "" L (S k)) in Hrun by exact Hk.
    assert (Hsuf : Forall (fun m => m <> "") (nth (S k) L "" :: skipn (S (S k)) L)).
    { rewrite <- (skipn_cons_nth "" L (S k)) by exact Hk. apply Forall_skipn, Hne. }
    destruct (advance_running _ _ _ f Hsuf Hrun) as (f' & Hf' & Hrun' & _).
    exists f'. split.
    + change (advance_n (S (S k))) with (advance_n (S k) ;; advance)%monad.
      unfold bind at 1. rewrite Hf. exact Hf'.
    + rewrite (firstn_S_snoc "" L (S k)) by exact Hk. exact Hrun'.
Qed.

(** C6.  For a unit with at least one lexeme, the [k]-th call of
    [advance] succeeds for every [k] up to the number of lexemes, makes the
    [k]-th lexeme the current token and buffers the one after it (so each
    call promotes what the call before had buffered); [has_more_tokens]
    stays true until the call that promotes the last lexeme, which
    succeeds too and leaves it false; a call of [advance] after that raises
    [StopIteration] and changes nothing. *)
Theorem advance_contract (lines : list string) (x : string) (rest : list string) :
  lexemes lines = x :: rest ->
  (forall k, (k < length (x :: rest))%nat ->
     exists f, advance_n (S k) (JackTokenizer_init lines) = (Ok tt, f)
               /\ token f = nth k (x :: rest) ""
               /\ _next_token f = nth (S k) (x :: rest) ""
               /\ has_more_tokens f = (S k <? length (x :: rest))%nat)
  /\ (exists f, advance_n (length (x :: rest)) (JackTokenizer_init lines) = (Ok tt, f)
                /\ token f = List.last (x :: rest) ""
                /\ has_more_tokens f = false
                /\ advance f = (Raise (Exn StopIteration "No more tokens"), f)).
Proof.
  intros HL. set (L := x :: rest). split.
  - intros k Hk.
    destruct (advance_n_running lines x rest HL k Hk) as (f & Hf & Hrun).
    exists f. split; [exact Hf|].
    destruct Hrun as (_ & Htok & Hnext & _ & Hmore & _).
    fold L in Htok, Hnext, Hmore |- *.
    rewrite Htok, Hnext. unfold has_more_tokens. rewrite Hmore.
    rewrite (firstn_S_snoc "" L k) by exact Hk. rewrite List.last_last.
    rewrite hd_skipn, is_nil_skipn. auto.
  - destruct (advance_n_running lines x rest HL (length rest)) as (f & Hf & Hrun);
      [simpl; lia|].
    exists f. split; [exact Hf|].
    fold L in Hrun. change (S (length rest)) with (length L) in Hrun.
    rewrite firstn_all, skipn_all in Hrun.
    pose proof (advance_exhausted _ _ Hrun) as Hex.
    destruct Hrun as (_ & Htok & _ & _ & Hmore & _).
    repeat split; auto.
Qed.

Lemma advance_contract_witness :
  lexemes ["let x"] = ["let"; "x"]
  /\ ((forall k, (k < 2)%nat ->
         exists f, advance_n (S k) (JackTokenizer_init ["let x"]) = (Ok tt, f)
                   /\ token f = nth k ["let"; "x"] ""
                   /\ _next_token f = nth (S k) ["let"; "x"] ""
                   /\ has_more_tokens f = (S k <? 2)%nat)
      /\ (exists f, advance_n 2 (JackTokenizer_init ["let x"]) = (Ok tt, f)
                    /\ token f = "x"
                    /\ has_more_tokens f = false
                    /\ advance f = (Raise (Exn StopIteration "No more tokens"), f))).
Proof.
  split.
  - vm_compute. reflexivity.
  - apply (advance_contract ["let x"] "let" ["x"]). vm_compute. reflexivity.
Defined.

(** ** The cache is sound, and the accessors do not move the tokenizer *)

Lemma same_position_refl f : same_position f f.
Proof. repeat split. Qed.

Lemma same_position_trans f1 f2 f3 :
  same_position f1 f2 -> same_position f2 f3 -> same_position f1 f3.
Proof.
  unfold same_position. intros H1 H2.
  decompose [and] H1. decompose [and] H2. repeat split; congruence.
Qed.

Lemma cache_ok_store (entry : cache_entry) (f : JackTokenizer) :
  cache_ok f -> entry_ok (token f) entry -> cache_ok (cache_store entry f).
Proof.
  intros Hok He t e. unfold cache_store; simpl.
  destruct (decide (token f = t)) as [<-|Hne].
  - rewrite lookup_insert_eq. intros [= <-]. exact He.
  - rewrite lookup_insert_ne by exact Hne. apply Hok.
Qed.

Lemma cache_ok_note (f : JackTokenizer) : cache_ok f -> cache_ok (note_classified f).
Proof. intros H. exact H. Qed.

Lemma cached_ok {A} (key : cache_entry -> option A) (f : JackTokenizer) (v : A) :
  cache_ok f -> cached key f = Some v ->
  exists e, entry_ok (token f) e /\ key e = Some v.
Proof.
  unfold cached. intros Hok H. destruct (token_cache f !! token f) as [e|] eqn:E; [|discriminate].
  exists e. split; [apply (Hok _ _ E)|exact H].
Qed.

Ltac entry_ok_single := repeat split; simpl; intros ? [=]; subst; auto.

Lemma token_type_spec (f : JackTokenizer) :
  cache_ok f ->
  exists f', token_type f = (Ok (classify (token f)), f')
             /\ same_position f f' /\ cache_ok f'.
Proof.
  intros Hok. unfold token_type, bind, get.
  destruct (cached ce_token_type f) as [t|] eqn:E.
  - destruct (cached_ok _ _ _ Hok E) as (e & (Ht & _) & Hk).
    rewrite (Ht _ Hk). exists f.
    split; [reflexivity|]. split; [apply same_position_refl|exact Hok].
  - simpl. eexists. split; [reflexivity|].
    split; [unfold same_position; simpl; tauto|].
    apply (cache_ok_store _ (note_classified f)); [apply cache_ok_note, Hok|].
    entry_ok_single.
Qed.

Lemma is_type_true (t : option Z) (c : Z) : is_type t c = true -> t = Some c.
Proof.
  destruct t as [v|]; simpl; [|discriminate].
  intros H. apply Z.eqb_eq in H. congruence.
Qed.

(** What an accessor does when the classification is the one it asks for. *)
Lemma symbol_spec (f : JackTokenizer) :
  cache_ok f -> classify (token f) = Some token_types.SYMBOL ->
  exists f', symbol f = (Ok (xml_escape (token f)), f')
             /\ same_position f f' /\ cache_ok f'.
Proof.
  intros Hok Hc. unfold symbol. unfold bind at 1.
  destruct (token_type_spec f Hok) as (f1 & -> & Hpos & Hok1).
  rewrite Hc. simpl. unfold bind, get.
  pose proof Hpos as (? & ? & Htok & ?).
  destruct (cached ce_symbol f1) as [v|] eqn:E.
  - destruct (cached_ok _ _ _ Hok1 E) as (e & (_ & _ & Hs & _) & Hk).
    rewrite (Hs _ Hk). rewrite Htok. exists f1.
    split; [reflexivity|]. split; [exact Hpos|exact Hok1].
  - simpl. rewrite Htok. eexists. split; [reflexivity|].
    split; [unfold same_position in *; simpl; tauto|].
    apply cache_ok_store; [exact Hok1|]. rewrite Htok. entry_ok_single.
Qed.

(** What the accessors do whatever the classification: they leave the
    tokenizer where it is and the cache sound, and a value they return is
    the decoded value of the current token. *)
Ltac accessor_any Hok H :=
  match type of H with
  | bind token_type _ ?f = _ =>
      unfold bind at 1 in H;
      let f1 := fresh "f1" in let Hpos := fresh "Hpos" in let Hok1 := fresh "Hok1" in
      let Htok := fresh "Htok" in
      destruct (token_type_spec f Hok) as (f1 & -> & Hpos & Hok1) in H;
      pose proof Hpos as (_ & _ & Htok & _);
      destruct (is_type (classify (token f)) _) eqn:Hty;
      [ apply is_type_true in Hty
      | inversion H; subst; split; [exact Hpos|split; [exact Hok1|intros ? [=]]] ]
  end.

Lemma key_word_any (f : JackTokenizer) r f' :
  cache_ok f -> key_word f = (r, f') ->
  same_position f f' /\ cache_ok f'
  /\ forall k, r = Ok k ->
       classify (token f) = Some token_types.KEYWORD /\ KEYWORDS_TABLE !! token f = Some k.
Proof.
  intros Hok H. unfold key_word in H. accessor_any Hok H.
  unfold bind, get in H.
  destruct (cached ce_key_word f1) as [v|] eqn:E.
  - inversion H; subst. split; [exact Hpos|]. split; [exact Hok1|].
    intros k [= <-]. split; [exact Hty|].
    destruct (cached_ok _ _ _ Hok1 E) as (e & (_ & Hk & _) & Hv).
    rewrite <- Htok. apply Hk, Hv.
  - destruct (KEYWORDS_TABLE !! token f1) as [type_|] eqn:Et; simpl in H.
    + inversion H; subst. split; [unfold same_position in *; simpl; tauto|].
      split; [apply cache_ok_store; [exact Hok1|]; entry_ok_single|].
      intros k [= <-]. split; [exact Hty|]. rewrite <- Htok. exact Et.
    + inversion H; subst. split; [exact Hpos|]. split; [exact Hok1|]. intros ? [=].
Qed.

Lemma symbol_any (f : JackTokenizer) r f' :
  cache_ok f -> symbol f = (r, f') ->
  same_position f f' /\ cache_ok f'
  /\ forall s, r = Ok s ->
       classify (token f) = Some token_types.SYMBOL /\ s = xml_escape (token f).
Proof.
  intros Hok H. unfold symbol in H. accessor_any Hok H.
  unfold bind, get in H.
  destruct (cached ce_symbol f1) as [v|] eqn:E.
  - inversion H; subst. split; [exact Hpos|]. split; [exact Hok1|].
    intros k [= <-]. split; [exact Hty|].
    destruct (cached_ok _ _ _ Hok1 E) as (e & (_ & _ & Hk & _) & Hv).
    rewrite <- Htok. apply Hk, Hv.
  - simpl in H. inversion H; subst. split; [unfold same_position in *; simpl; tauto|].
    split; [apply cache_ok_store; [exact Hok1|]; entry_ok_single|].
    intros k [= <-]. split; [exact Hty|]. rewrite <- Htok. reflexivity.
Qed.

Lemma identifier_any (f : JackTokenizer) r f' :
  cache_ok f -> identifier f = (r, f') ->
  same_position f f' /\ cache_ok f'
  /\ forall s, r = Ok s ->
       classify (token f) = Some token_types.IDENTIFIER /\ s = token f.
Proof.
  intros Hok H. unfold identifier in H. accessor_any Hok H.
  unfold bind, get in H.
  destruct (cached ce_identifier f1) as [v|] eqn:E.
  - inversion H; subst. split; [exact Hpos|]. split; [exact Hok1|].
    intros k [= <-]. split; [exact Hty|].
    destruct (cached_ok _ _ _ Hok1 E) as (e & (_ & _ & _ & Hk & _) & Hv).
    rewrite <- Htok. apply Hk, Hv.
  - simpl in H. inversion H; subst. split; [unfold same_position in *; simpl; tauto|].
    split; [apply cache_ok_store; [exact Hok1|]; entry_ok_single|].
    intros k [= <-]. split; [exact Hty|]. rewrite <- Htok. reflexivity.
Qed.

Lemma int_val_any (f : JackTokenizer) r f' :
  cache_ok f -> int_val f = (r, f') ->
  same_position f f' /\ cache_ok f'
  /\ forall n, r = Ok n ->
       classify (token f) = Some token_types.INT_CONST /\ int (token f) = Some n.
Proof.
  intros Hok H. unfold int_val in H. accessor_any Hok H.
  unfold bind, get in H.
  destruct (cached ce_int_val f1) as [v|] eqn:E.
  - inversion H; subst. split; [exact Hpos|]. split; [exact Hok1|].
    intros k [= <-]. split; [exact Hty|].
    destruct (cached_ok _ _ _ Hok1 E) as (e & (_ & _ & _ & _ & Hk & _) & Hv).
    rewrite <- Htok. apply Hk, Hv.
  - destruct (int (token f1)) as [n|] eqn:Et; simpl in H.
    + inversion H; subst. split; [unfold same_position in *; simpl; tauto|].
      split; [apply cache_ok_store; [exact Hok1|]; entry_ok_single|].
      intros k [= <-]. split; [exact Hty|]. rewrite <- Htok. exact Et.
    + inversion H; subst. split; [exact Hpos|]. split; [exact Hok1|]. intros ? [=].
Qed.

Lemma string_val_any (f : JackTokenizer) r f' :
  cache_ok f -> string_val f = (r, f') ->
  same_position f f' /\ cache_ok f'
  /\ forall s, r = Ok s ->
       classify (token f) = Some token_types.STRING_CONST /\ s = slice_1_m1 (token f).
Proof.
  intros Hok H. unfold string_val in H. accessor_any Hok H.
  unfold bind, get in H.
  destruct (cached ce_string_val f1) as [v|] eqn:E.
  - inversion H; subst. split; [exact Hpos|]. split; [exact Hok1|].
    intros k [= <-]. split; [exact Hty|].
    destruct (cached_ok _ _ _ Hok1 E) as (e & (_ & _ & _ & _ & _ & Hk) & Hv).
    rewrite <- Htok. apply Hk, Hv.
  - simpl in H. inversion H; subst. split; [unfold same_position in *; simpl; tauto|].
    split; [apply cache_ok_store; [exact Hok1|]; entry_ok_single|].
    intros k [= <-]. split; [exact Hty|]. rewrite <- Htok. reflexivity.
Qed.

Lemma quiet_refl e : quiet e e.
Proof. split; [apply same_position_refl|tauto]. Qed.

Lemma quiet_trans e1 e2 e3 : quiet e1 e2 -> quiet e2 e3 -> quiet e1 e3.
Proof.
  intros (Hp1 & ? & ? & ? & ?) (Hp2 & ? & ? & ? & ?).
  split; [eapply same_position_trans; eauto|]. repeat split; congruence.
Qed.

Lemma quiet_token e e' : quiet e e' -> token (_infile e') = token (_infile e).
Proof. intros ((_ & _ & H & _) & _). exact H. Qed.

Lemma bind_run {S A B} (m : M S A) (k : A -> M S B) (s s1 : S) (a : A) :
  m s = (Ok a, s1) -> bind m k s = k a s1.
Proof. intros H. unfold bind. rewrite H. reflexivity. Qed.

Lemma f_inv {A} (m : M JackTokenizer A) (e : CompilationEngine) r e' :
  f_ m e = (r, e') -> exists f', m (_infile e) = (r, f') /\ e' = set_infile f' e.
Proof.
  unfold f_. destruct (m (_infile e)) as [r0 f0]. intros [= <- <-]. eauto.
Qed.

Lemma quiet_set_infile (e : CompilationEngine) (f' : JackTokenizer) :
  same_position (_infile e) f' -> quiet e (set_infile f' e).
Proof. intros H. split; [exact H|]. simpl. tauto. Qed.

Lemma f_token_type_run (e : CompilationEngine) :
  cache_ok (_infile e) ->
  exists e', f_ token_type e = (Ok (classify (token (_infile e))), e')
             /\ quiet e e' /\ cache_ok (_infile e').
Proof.
  intros Hok. destruct (token_type_spec _ Hok) as (f' & H & Hpos & Hok').
  exists (set_infile f' e). unfold f_. rewrite H.
  split; [reflexivity|]. split; [apply quiet_set_infile, Hpos|exact Hok'].
Qed.

Lemma f_symbol_run (e : CompilationEngine) :
  cache_ok (_infile e) -> classify (token (_infile e)) = Some token_types.SYMBOL ->
  exists e', f_ symbol e = (Ok (xml_escape (token (_infile e))), e')
             /\ quiet e e' /\ cache_ok (_infile e').
Proof.
  intros Hok Hc. destruct (symbol_spec _ Hok Hc) as (f' & H & Hpos & Hok').
  exists (set_infile f' e). unfold f_. rewrite H.
  split; [reflexivity|]. split; [apply quiet_set_infile, Hpos|exact Hok'].
Qed.

Lemma step_if_safe_eq (e : CompilationEngine) :
  step_if_safe e
  = if _safe_to_step e then
      match advance (_infile e) with
      | (Ok _, f') => (Ok tt, set_safe_to_step false (set_infile f' e))
      | (Raise x, f') => (Raise x, set_infile f' e)
      | (OutOfFuel, f') => (OutOfFuel, set_infile f' e)
      end
    else (Ok tt, e).
Proof.
  unfold step_if_safe, bind, gets, when, f_, modify, ret.
  destruct (_safe_to_step e); [|reflexivity].
  destruct (advance (_infile e)) as [[[]| |] f']; reflexivity.
Qed.

Lemma step_if_safe_reframe out indent body (e : CompilationEngine) r e1 :
  step_if_safe e = (r, e1) ->
  step_if_safe (reframe out indent body e) = (r, reframe out indent body e1).
Proof.
  rewrite !step_if_safe_eq.
  change (_safe_to_step (reframe out indent body e)) with (_safe_to_step e).
  change (_infile (reframe out indent body e)) with (_infile e).
  destruct (_safe_to_step e).
  - destruct (advance (_infile e)) as [[[]| |] f']; intros H; inversion H; subst; reflexivity.
  - intros H; inversion H; subst. reflexivity.
Qed.

Lemma step_if_safe_ok (e e1 : CompilationEngine) :
  step_if_safe e = (Ok tt, e1) ->
  _safe_to_step e1 = false /\ _outfile e1 = _outfile e /\ _indent e1 = _indent e
  /\ _body e1 = _body e.
Proof.
  rewrite step_if_safe_eq.
  destruct (_safe_to_step e) eqn:Hs.
  - destruct (advance (_infile e)) as [[[]| |] f']; intros H; inversion H; subst; simpl; tauto.
  - intros H; inversion H; subst. tauto.
Qed.

Lemma xml_escape_not (t : string) (s : string) :
  String.length s = 1%nat -> t <> s -> xml_escape t <> s.
Proof.
  intros Hlen Hne. unfold xml_escape.
  destruct (XML_ESCAPES !! t) as [v|] eqn:E; [|exact Hne].
  apply elem_of_list_to_map_2 in E.
  repeat (apply elem_of_cons in E; destruct E as [E|E];
          [inversion E; subst; intros <-; discriminate|]).
  inversion E.
Qed.

Lemma compile_term_dispatch_other_symbol (c1 c2 c3 c4 : M CompilationEngine unit)
    (e : CompilationEngine) :
  cache_ok (_infile e) ->
  classify (token (_infile e)) = Some token_types.SYMBOL ->
  ~ In (token (_infile e)) ["("; "-"; "~"] ->
  exists e', compile_term_dispatch c1 c2 c3 c4 e = (Ok tt, e')
             /\ quiet e e' /\ cache_ok (_infile e').
Proof.
  intros Hok Hsym Hnot.
  assert (Hne : token (_infile e) <> "(" /\ token (_infile e) <> "-"
                /\ token (_infile e) <> "~").
  { simpl in Hnot. repeat split; intros E; apply Hnot; auto. }
  destruct Hne as (Hn1 & Hn2 & Hn3).
  unfold compile_term_dispatch.
  (* the five tests on the kind of the token *)
  destruct (f_token_type_run e Hok) as (e3 & Hr3 & Hq3 & Hok3).
  rewrite (bind_run _ _ _ _ _ Hr3). rewrite Hsym. simpl.
  destruct (f_token_type_run e3 Hok3) as (e4 & Hr4 & Hq4 & Hok4).
  rewrite (bind_run _ _ _ _ _ Hr4). rewrite (quiet_token _ _ Hq3), Hsym. simpl.
  destruct (f_token_type_run e4 Hok4) as (e5 & Hr5 & Hq5 & Hok5).
  pose proof (quiet_trans _ _ _ Hq3 Hq4) as Hq24.
  rewrite (bind_run _ _ _ _ _ Hr5). rewrite (quiet_token _ _ Hq24), Hsym. simpl.
  destruct (f_token_type_run e5 Hok5) as (e6 & Hr6 & Hq6 & Hok6).
  pose proof (quiet_trans _ _ _ Hq24 Hq5) as Hq25.
  rewrite (bind_run _ _ _ _ _ Hr6). rewrite (quiet_token _ _ Hq25), Hsym. simpl.
  destruct (f_token_type_run e6 Hok6) as (e7 & Hr7 & Hq7 & Hok7).
  pose proof (quiet_trans _ _ _ Hq25 Hq6) as Hq26.
  rewrite (bind_run _ _ _ _ _ Hr7). rewrite (quiet_token _ _ Hq26), Hsym. simpl.
  (* the two tests on the symbol *)
  pose proof (quiet_trans _ _ _ Hq26 Hq7) as Hq27.
  assert (Hsym7 : classify (token (_infile e7)) = Some token_types.SYMBOL).
  { rewrite (quiet_token _ _ Hq27). exact Hsym. }
  destruct (f_symbol_run e7 Hok7 Hsym7) as (e8 & Hr8 & Hq8 & Hok8).
  rewrite (bind_run _ _ _ _ _ Hr8). rewrite (quiet_token _ _ Hq27).
  destruct (String.eqb_spec (xml_escape (token (_infile e))) "(") as [E|_].
  { exfalso. revert E. apply xml_escape_not; auto. }
  pose proof (quiet_trans _ _ _ Hq27 Hq8) as Hq28.
  assert (Hsym8 : classify (token (_infile e8)) = Some token_types.SYMBOL).
  { rewrite (quiet_token _ _ Hq28). exact Hsym. }
  destruct (f_symbol_run e8 Hok8 Hsym8) as (e9 & Hr9 & Hq9 & Hok9).
  rewrite (bind_run _ _ _ _ _ Hr9). rewrite (quiet_token _ _ Hq28).
  simpl existsb.
  destruct (String.eqb_spec (xml_escape (token (_infile e))) "-") as [E|_].
  { exfalso. revert E. apply xml_escape_not; auto. }
  destruct (String.eqb_spec (xml_escape (token (_infile e))) "~") as [E|_].
  { exfalso. revert E. apply xml_escape_not; auto. }
  simpl. exists e9. split; [reflexivity|].
  split; [exact (quiet_trans _ _ _ Hq28 Hq9)|exact Hok9].
Qed.

(** C9.  When the token in term position (the current token, fetched
    first if the token before it was consumed) is a symbol other than [(],
    [-] and [~], and no leaf is waiting to be written, [compile_term]
    returns normally, writes the start tag of a term and right after it
    the end tag, at the indentation it was called at, leaves the
    tokenizer at that token and [_safe_to_step] false, so that the next
    helper examines the same token.  No class of [exceptions.py] is a
    failure kind for terms. *)
Theorem compile_term_on_other_symbol (fuel : nat) (e e1 : CompilationEngine) :
  _body e = [] ->
  step_if_safe e = (Ok tt, e1) ->
  cache_ok (_infile e1) ->
  classify (token (_infile e1)) = Some token_types.SYMBOL ->
  ~ In (token (_infile e1)) ["("; "-"; "~"] ->
  exists e',
    compile_term (S fuel) e = (Ok tt, e')
    /\ _outfile e' = (_outfile e ++ [W_indent (_indent e); W_start "term";
                                     W_indent (_indent e); W_end "term"])%list
    /\ same_position (_infile e1) (_infile e')
    /\ _safe_to_step e' = false
    /\ _indent e' = _indent e
    /\ _body e' = []
    /\ Forall (fun c => class_name c <> "CompileTermError") declared_classes.
Proof.
  intros Hbody Hstep Hok Hsym Hnot.
  change (compile_term (S fuel) e)
    with (compile_term_body (fun e => compile_expression fuel e) (fun e => compile_term fuel e)
            (fun e => compile_expression_list fuel e) (fun e => add_subroutine_call fuel e) e).
  unfold compile_term_body.
  set (out1 := (_outfile e ++ [W_indent (_indent e); W_start "term"])%list).
  assert (Hstart : write_non_terminal_start "term" e
                   = (Ok tt, reframe out1 (_indent e + 2) [] e)).
  { unfold write_non_terminal_start, write_body, bind, gets, emit, modify. simpl.
    rewrite Hbody. simpl. unfold reframe, out1, set_body, set_indent, set_outfile. simpl.
    rewrite <- app_assoc. reflexivity. }
  rewrite (bind_run _ _ _ _ _ Hstart).
  rewrite (bind_run _ _ _ _ _ (step_if_safe_reframe out1 (_indent e + 2) [] _ _ _ Hstep)).
  destruct (step_if_safe_ok _ _ Hstep) as (Hsafe1 & Hout1 & Hind1 & Hbody1).
  set (e2 := reframe out1 (_indent e + 2) [] e1).
  destruct (compile_term_dispatch_other_symbol
              (fun e => compile_expression fuel e) (fun e => compile_term fuel e)
              (fun e => compile_expression_list fuel e) (fun e => add_subroutine_call fuel e)
              e2 Hok Hsym Hnot) as (e9 & Hd & Hq & _).
  rewrite (bind_run _ _ _ _ _ Hd).
  destruct Hq as (Hpos & Hout9 & Hind9 & Hbody9 & Hsafe9).
  simpl in Hout9, Hind9, Hbody9, Hsafe9.
  unfold write_non_terminal_end, write_body, bind, gets, emit, modify. simpl.
  rewrite Hbody9. simpl.
  eexists. split; [reflexivity|]. simpl.
  rewrite Hout9, Hind9. unfold out1. repeat rewrite <- app_assoc. simpl.
  replace (_indent e + 2 - 2)%Z with (_indent e) by lia.
  split; [reflexivity|]. split; [exact Hpos|]. split; [congruence|].
  split; [reflexivity|]. split; [reflexivity|].
  repeat constructor; discriminate.
Qed.

Lemma cache_ok_init (lines : list string) : cache_ok (JackTokenizer_init lines).
Proof. intros t e H. simpl in H. rewrite lookup_empty in H. discriminate. Qed.

Lemma compile_term_on_other_symbol_witness :
  let e := fresh [";"] in
  let e1 := snd (step_if_safe e) in
  _body e = []
  /\ step_if_safe e = (Ok tt, e1)
  /\ classify (token (_infile e1)) = Some token_types.SYMBOL
  /\ exists e',
       compile_term 1 e = (Ok tt, e')
       /\ _outfile e' = [W_indent 0; W_start "term"; W_indent 0; W_end "term"]
       /\ same_position (_infile e1) (_infile e')
       /\ _safe_to_step e' = false
       /\ _indent e' = 0%Z
       /\ _body e' = []
       /\ Forall (fun c => class_name c <> "CompileTermError") declared_classes.
Proof.
  intros e e1.
  split; [reflexivity|]. split; [vm_compute; reflexivity|].
  split; [vm_compute; reflexivity|].
  apply (compile_term_on_other_symbol 0 e e1).
  - reflexivity.
  - vm_compute. reflexivity.
  - exact (cache_ok_init []).
  - vm_compute. reflexivity.
  - vm_compute. intros [H|[H|[H|[]]]]; discriminate H.
Defined.

(** ** Characters that match no pattern *)

Lemma hash_and_dollar_start_no_match (line : string) (i : nat) (c : ascii) :
  String.get i line = Some c -> c = "#"%char \/ c = "$"%char ->
  re.match_at patterns.ALL_TERMINATORS line i = None.
Proof.
  intros Hget Hc. unfold re.match_at. 
  unfold patterns.ALL_TERMINATORS, patterns.KEYWORD, patterns.SYMBOL, patterns.INT_CONST,
    patterns.STRING_CONST, patterns.IDENTIFIER.
  cbn -[String.get]. rewrite Hget.
  destruct Hc as [-> | ->]; reflexivity.
Qed.

(** The first call on a file with a cleaned line reads the whole file and
    succeeds, whatever the lexemes. *)
Lemma advance_first_clean (lines : list string) :
  next_clean_line lines <> [] ->
  exists f', advance (JackTokenizer_init lines) = (Ok tt, f')
             /\ running (firstn 1 (lexemes lines)) (skipn 1 (lexemes lines)) f'.
Proof.
  intros Hclean.
  pose proof (lexemes_nonempty lines) as Hne.
  pose proof (queue_after_reading lines) as Hq.
  destruct (next_clean_line lines) as [|l ls] eqn:Ecl; [congruence|].
  unfold advance, bind, get, has_more_tokens, JackTokenizer_init, modify; simpl.
  rewrite Ecl. rewrite Hq.
  unfold try_except, bind, get, modify, next_lexeme; simpl.
  destruct (lexemes lines) as [|x rest]; simpl.
  - eexists. split; [reflexivity|]. unfold running; simpl. tauto.
  - inversion Hne as [|? ? Hx Hrest]; subst.
    destruct rest as [|y rem]; simpl.
    + eexists. split; [reflexivity|]. unfold running; simpl. tauto.
    + inversion Hrest as [|? ? Hy _]; subst.
      unfold when. simpl. rewrite (truthy_nonempty _ Hy). simpl.
      eexists. split; [reflexivity|]. unfold running; simpl. tauto.
Qed.

Lemma advance_n_outcome (lines : list string) :
  next_clean_line lines <> [] ->
  forall n,
    (exists f consumed remaining,
        advance_n (S n) (JackTokenizer_init lines) = (Ok tt, f)
        /\ running consumed remaining f /\ Forall (fun m => m <> "") remaining)
    \/ (exists f, advance_n (S n) (JackTokenizer_init lines)
                  = (Raise (Exn StopIteration "No more tokens"), f)).
Proof.
  intros Hclean. induction n as [|n IH].
  - left. destruct (advance_first_clean lines Hclean) as (f & Hf & Hrun).
    exists f, (firstn 1 (lexemes lines)), (skipn 1 (lexemes lines)).
    split; [simpl; unfold bind, ret; exact Hf|]. split; [exact Hrun|].
    apply Forall_skipn, lexemes_nonempty.
  - change (advance_n (S (S n))) with (advance_n (S n) ;; advance)%monad.
    destruct IH as [(f & consumed & remaining & Hf & Hrun & Hne)|(f & Hf)].
    + destruct remaining as [|x rem].
      * right. exists f. unfold bind. rewrite Hf. apply (advance_exhausted _ _ Hrun).
      * left. destruct (advance_running _ _ _ _ Hne Hrun) as (f' & Hf' & Hrun' & _).
        exists f', (consumed ++ [x])%list, rem.
        split; [unfold bind; rewrite Hf; exact Hf'|]. split; [exact Hrun'|].
        inversion Hne; auto.
    + right. exists f. unfold bind. rewrite Hf. reflexivity.
Qed.

(** C10.  A character of a cleaned line at which the combined pattern
    finds no match is passed over without a trace: the lexemes from its
    position on are the lexemes from the next position on.  What
    tokenization yields is exactly the matches of the combined pattern,
    each whole and in order.  And however often [advance] is called on the
    unit, it returns normally or, once the tokens are exhausted, raises
    [StopIteration]: no other failure is reported. *)
Theorem unmatched_characters_are_skipped
    (lines : list string) (line : string) (i : nat) (c : ascii) (n : nat) :
  In line (next_clean_line lines) ->
  String.get i line = Some c ->
  re.match_at patterns.ALL_TERMINATORS line i = None ->
  lexemes_from line i = lexemes_from line (S i)
  /\ (forall j k,
        (j <= String.length line)%nat ->
        re.match_at patterns.ALL_TERMINATORS line j = Some k ->
        (j < k <= String.length line)%nat
        /\ lexemes_from line j = String.substring j (k - j) line :: lexemes_from line k)
  /\ re.finditer patterns.ALL_TERMINATORS line = lexemes_from line 0
  /\ (fst (advance_n n (JackTokenizer_init lines)) = Ok tt
      \/ fst (advance_n n (JackTokenizer_init lines))
         = Raise (Exn StopIteration "No more tokens")).
Proof.
  intros Hin Hget Hm.
  split; [exact (lexemes_from_skip _ _ _ Hget Hm)|].
  split; [intros j k Hj Hk; exact (lexemes_from_match _ _ _ Hj Hk)|].
  split; [apply finditer_lexemes_from|].
  destruct n as [|n]; [left; reflexivity|].
  assert (Hclean : next_clean_line lines <> []).
  { intros E. rewrite E in Hin. destruct Hin. }
  destruct (advance_n_outcome lines Hclean n) as [(f & _ & _ & Hf & _)|(f & Hf)];
    rewrite Hf; auto.
Qed.

Lemma unmatched_characters_are_skipped_witness :
  In "let # x $ = 1 ;" (next_clean_line ["let # x $ = 1 ;"])
  /\ String.get 4 "let # x $ = 1 ;" = Some "#"%char
  /\ re.match_at patterns.ALL_TERMINATORS "let # x $ = 1 ;" 4 = None
  /\ lexemes_from "let # x $ = 1 ;" 4 = lexemes_from "let # x $ = 1 ;" 5
  /\ lexemes ["let # x $ = 1 ;"] = ["let"; "x"; "="; "1"; ";"]
  /\ (fst (advance_n 3 (JackTokenizer_init ["let # x $ = 1 ;"])) = Ok tt
      \/ fst (advance_n 3 (JackTokenizer_init ["let # x $ = 1 ;"]))
         = Raise (Exn StopIteration "No more tokens")).
Proof.
  assert (H1 : In "let # x $ = 1 ;" (next_clean_line ["let # x $ = 1 ;"]))
    by (vm_compute; auto).
  assert (H2 : String.get 4 "let # x $ = 1 ;" = Some "#"%char) by reflexivity.
  assert (H3 : re.match_at patterns.ALL_TERMINATORS "let # x $ = 1 ;" 4 = None)
    by (vm_compute; reflexivity).
  pose proof (unmatched_characters_are_skipped ["let # x $ = 1 ;"] _ 4 _ 3 H1 H2 H3)
    as (Hskip & _ & _ & Hadv).
  split; [exact H1|]. split; [exact H2|]. split; [exact H3|].
  split; [exact Hskip|]. split; [vm_compute; reflexivity|exact Hadv].
Defined.

(** ** The leaves of the output and the lexemes *)

Section keeping.
Variable L : list string.

Lemma bind_inv {S A B} (m : M S A) (k : A -> M S B) (s : S) r s' :
  bind m k s = (r, s') ->
  (exists a s1, m s = (Ok a, s1) /\ k a s1 = (r, s'))
  \/ (exists x, m s = (Raise x, s') /\ r = Raise x)
  \/ (m s = (OutOfFuel, s') /\ r = OutOfFuel).
Proof.
  unfold bind. destruct (m s) as [[a|x|] s1]; intros H.
  - left. eauto.
  - inversion H; subst. right. left. eauto.
  - inversion H; subst. right. right. eauto.
Qed.

Lemma keeps_ret {A} (a : A) : keeps L (ret a).
Proof. intros e r e' HI H. inversion H; subst. exact HI. Qed.

Lemma keeps_raise {A} c msg : keeps L (raise (A:=A) c msg).
Proof. intros e r e' HI H. inversion H; subst. exact HI. Qed.

Lemma keeps_out_of_fuel {A} : keeps L (out_of_fuel (A:=A)).
Proof. intros e r e' HI H. inversion H; subst. exact HI. Qed.

Lemma keeps_bind {A B} (m : M CompilationEngine A) (k : A -> M CompilationEngine B) :
  keeps L m -> (forall a, keeps L (k a)) -> keeps L (bind m k).
Proof.
  intros Hm Hk e r e' HI H.
  apply bind_inv in H. destruct H as [(a & e1 & H1 & H2)|[(x & H1 & _)|(H1 & _)]].
  - eapply Hk; [|exact H2]. eapply Hm; eauto.
  - eapply Hm; eauto.
  - eapply Hm; eauto.
Qed.

Lemma keeps_try_except {A} (m : M CompilationEngine A) c h :
  keeps L m -> (forall x, keeps L (h x)) -> keeps L (try_except m c h).
Proof.
  intros Hm Hh e r e' HI H. unfold try_except in H.
  destruct (m e) as [[a|x|] e1] eqn:E.
  - inversion H; subst. eapply Hm; eauto.
  - destruct (issubclass (exn_cls x) c).
    + eapply Hh; [|exact H]. eapply Hm; eauto.
    + inversion H; subst. eapply Hm; eauto.
  - inversion H; subst. eapply Hm; eauto.
Qed.

Lemma keeps_reraise_as {A} c prefix (m : M CompilationEngine A) :
  keeps L m -> keeps L (reraise_as c prefix m).
Proof. intros Hm. apply keeps_try_except; [exact Hm|]. intros x. apply keeps_raise. Qed.

Lemma keeps_when (b : bool) (m : M CompilationEngine unit) :
  keeps L m -> keeps L (when b m).
Proof. intros Hm. destruct b; [exact Hm|apply keeps_ret]. Qed.

Lemma keeps_fetched_weaken {A} (m : M CompilationEngine A) :
  keeps L m -> keeps_fetched L m.
Proof. intros Hm e r e' HI _ H. eapply Hm; eauto. Qed.

(** Quiet computations. *)
Lemma quietly_ret {A} (a : A) : quietly (ret a).
Proof. intros e r e' Hok H. inversion H; subst. split; [apply quiet_refl|exact Hok]. Qed.

Lemma quietly_raise {A} c msg : quietly (raise (A:=A) c msg).
Proof. intros e r e' Hok H. inversion H; subst. split; [apply quiet_refl|exact Hok]. Qed.

Lemma quietly_bind {A B} (m : M CompilationEngine A) (k : A -> M CompilationEngine B) :
  quietly m -> (forall a, quietly (k a)) -> quietly (bind m k).
Proof.
  intros Hm Hk e r e' Hok H.
  apply bind_inv in H. destruct H as [(a & e1 & H1 & H2)|[(x & H1 & _)|(H1 & _)]].
  - destruct (Hm _ _ _ Hok H1) as (Hq1 & Hok1).
    destruct (Hk a _ _ _ Hok1 H2) as (Hq2 & Hok2).
    split; [eapply quiet_trans; eauto|exact Hok2].
  - eapply Hm; eauto.
  - eapply Hm; eauto.
Qed.

Lemma quietly_subscript {K A} `{Countable K} (table : gmap K A) key shown :
  quietly (subscript table key shown).
Proof. unfold subscript. destruct (table !! key); [apply quietly_ret|apply quietly_raise]. Qed.

Lemma quietly_mapM {A B} (g : A -> M CompilationEngine B) (l : list A) :
  (forall a, quietly (g a)) -> quietly (mapM g l).
Proof.
  intros Hg. induction l as [|a l IH]; simpl.
  - apply quietly_ret.
  - apply quietly_bind; [apply Hg|]. intros b.
    apply quietly_bind; [exact IH|]. intros bs. apply quietly_ret.
Qed.

Lemma quietly_f_token_type : quietly (f_ token_type).
Proof.
  intros e r e' Hok H. apply f_inv in H. destruct H as (f' & H & ->).
  destruct (token_type_spec _ Hok) as (f1 & H1 & Hpos & Hok1).
  rewrite H1 in H. inversion H; subst.
  split; [apply quiet_set_infile, Hpos|exact Hok1].
Qed.

Lemma quietly_f_key_word : quietly (f_ key_word).
Proof.
  intros e r e' Hok H. apply f_inv in H. destruct H as (f' & H & ->).
  destruct (key_word_any _ _ _ Hok H) as (Hpos & Hok1 & _).
  split; [apply quiet_set_infile, Hpos|exact Hok1].
Qed.

Lemma quietly_f_symbol : quietly (f_ symbol).
Proof.
  intros e r e' Hok H. apply f_inv in H. destruct H as (f' & H & ->).
  destruct (symbol_any _ _ _ Hok H) as (Hpos & Hok1 & _).
  split; [apply quiet_set_infile, Hpos|exact Hok1].
Qed.

(** A quiet computation keeps the invariant. *)
Lemma Inv_quiet (e e' : CompilationEngine) :
  Inv L e -> quiet e e' -> cache_ok (_infile e') -> Inv L e'.
Proof.
  intros (_ & Hne & consumed & emitted & Hat & Hleaves & Hsub) Hq Hok.
  destruct Hq as (Hpos & Hout & Hind & Hbody & Hsafe).
  destruct Hpos as (Hfd & Hcl & Htok & Hnext & Hqueue & Hmore & Hline).
  split; [exact Hok|]. split; [exact Hne|].
  exists consumed, emitted. rewrite Hout, Hbody, Hsafe.
  split; [|split; assumption].
  destruct Hat as [(Hc & Hu)|(remaining & HL & Hrun)].
  - left. split; [exact Hc|]. unfold unread in *. rewrite Htok, Hnext, Hqueue, Hmore, Hfd. exact Hu.
  - right. exists remaining. split; [exact HL|].
    unfold running in *. rewrite Htok, Hnext, Hqueue, Hmore, Hfd, Hcl. exact Hrun.
Qed.

Lemma keeps_quietly {A} (m : M CompilationEngine A) : quietly m -> keeps L m.
Proof.
  intros Hm e r e' HI H. destruct (Hm _ _ _ (proj1 HI) H) as (Hq & Hok).
  eapply Inv_quiet; eauto.
Qed.

Lemma keeps_fetched_quiet_bind {A B} (m : M CompilationEngine A)
    (k : A -> M CompilationEngine B) :
  quietly m -> (forall a, keeps_fetched L (k a)) -> keeps_fetched L (bind m k).
Proof.
  intros Hm Hk e r e' HI Hf H.
  apply bind_inv in H. destruct H as [(a & e1 & H1 & H2)|[(x & H1 & _)|(H1 & _)]].
  - destruct (Hm _ _ _ (proj1 HI) H1) as (Hq & Hok).
    eapply Hk; [| |exact H2].
    + eapply Inv_quiet; eauto.
    + destruct Hq as (_ & _ & _ & _ & Hs). congruence.
  - destruct (Hm _ _ _ (proj1 HI) H1) as (Hq & Hok). eapply Inv_quiet; eauto.
  - destruct (Hm _ _ _ (proj1 HI) H1) as (Hq & Hok). eapply Inv_quiet; eauto.
Qed.


(** *** Writing *)

Lemma leaves_app (out out' : list written) :
  leaves (out ++ out') = (leaves out ++ leaves out')%list.
Proof.
  induction out as [|w out IH]; simpl; [reflexivity|].
  destruct w; simpl; rewrite IH; reflexivity.
Qed.

Lemma leaves_written_entries indent entries :
  leaves (written_entries indent entries) = entries.
Proof.
  induction entries as [|[el t] entries IH]; simpl; [reflexivity|].
  rewrite IH. reflexivity.
Qed.

Lemma write_entries_eq (entries : list (string * terminal_value)) :
  forall e, write_entries entries e
            = (Ok tt, set_outfile (_outfile e ++ written_entries (_indent e) entries) e).
Proof.
  induction entries as [|[el t] entries IH]; intros e.
  - simpl. unfold ret, written_entries. simpl. rewrite app_nil_r. destruct e; reflexivity.
  - simpl. unfold bind, gets, emit, write_terminal, bind, ret, modify. simpl.
    rewrite IH. simpl. rewrite <- !app_assoc. reflexivity.
Qed.

Lemma write_body_eq (e : CompilationEngine) :
  write_body e
  = (Ok tt, set_outfile (_outfile e ++ written_entries (_indent e) (_body e)) (set_body [] e)).
Proof.
  unfold write_body, bind, gets, modify. rewrite write_entries_eq. reflexivity.
Qed.

(** A change of the output that leaves the leaves, written or queued,
    what they were. *)
Lemma Inv_rewrite (e e' : CompilationEngine) :
  Inv L e -> _infile e' = _infile e -> _safe_to_step e' = _safe_to_step e ->
  (leaves (_outfile e') ++ _body e')%list = (leaves (_outfile e) ++ _body e)%list ->
  Inv L e'.
Proof.
  intros (Hok & Hne & consumed & emitted & Hat & Hleaves & Hsub) Hin Hsafe Hl.
  split; [rewrite Hin; exact Hok|]. split; [exact Hne|].
  exists consumed, emitted. rewrite Hin, Hsafe, Hl. auto.
Qed.

Lemma keeps_write_body : keeps L write_body.
Proof.
  intros e r e' HI H. rewrite write_body_eq in H. inversion H; subst.
  apply (Inv_rewrite e); auto. simpl.
  rewrite leaves_app, leaves_written_entries, app_nil_r. reflexivity.
Qed.

Lemma keeps_emit_tag (w : written) :
  leaves [w] = [] -> keeps L (emit w).
Proof.
  intros Hw e r e' HI H. unfold emit, modify in H. inversion H; subst.
  apply (Inv_rewrite e); auto. simpl. rewrite leaves_app, Hw, app_nil_r. reflexivity.
Qed.

Lemma keeps_set_indent (g : CompilationEngine -> Z) :
  keeps L (modify (fun e => set_indent (g e) e)).
Proof.
  intros e r e' HI H. unfold modify in H. inversion H; subst.
  apply (Inv_rewrite e); auto.
Qed.

Lemma keeps_gets {A} (g : CompilationEngine -> A) : keeps L (gets g).
Proof. intros e r e' HI H. inversion H; subst. exact HI. Qed.

Lemma keeps_write_non_terminal_start element : keeps L (write_non_terminal_start element).
Proof.
  unfold write_non_terminal_start.
  apply keeps_bind; [apply keeps_gets|]. intros i.
  apply keeps_bind; [apply keeps_emit_tag; reflexivity|]. intros _.
  apply keeps_bind; [apply keeps_emit_tag; reflexivity|]. intros _.
  apply keeps_bind; [apply keeps_set_indent|]. intros _.
  apply keeps_write_body.
Qed.

Lemma keeps_write_non_terminal_end element : keeps L (write_non_terminal_end element).
Proof.
  unfold write_non_terminal_end.
  apply keeps_bind; [apply keeps_write_body|]. intros _.
  apply keeps_bind; [apply keeps_set_indent|]. intros _.
  apply keeps_bind; [apply keeps_gets|]. intros i.
  apply keeps_bind; [apply keeps_emit_tag; reflexivity|]. intros _.
  apply keeps_emit_tag; reflexivity.
Qed.

Lemma keeps_write_non_terminal element : keeps L (write_non_terminal element).
Proof.
  unfold write_non_terminal.
  apply keeps_bind; [apply keeps_write_non_terminal_start|]. intros _.
  apply keeps_write_non_terminal_end.
Qed.


(** *** Fetching *)

Lemma advance_unread (f : JackTokenizer) r f' :
  unread L f -> advance f = (r, f') ->
  token_cache f' = token_cache f
  /\ ((r = Ok tt /\ running (firstn 1 L) (skipn 1 L) f')
      \/ ((forall a, r <> Ok a) /\ unread L f')).
Proof.
  intros (Htok & Hnext & Hq & Hmore & HL) H.
  pose proof (lexemes_nonempty (fd f)) as Hne. rewrite HL in Hne.
  pose proof (queue_after_reading (fd f)) as Hqr. rewrite HL in Hqr.
  destruct f as [fd0 closed0 tok0 next0 q0 cache0 more0 line0 cls0]; simpl in *. subst.
  unfold advance, bind, get, has_more_tokens in H; simpl in H.
  destruct closed0.
  { simpl in H. inversion H; subst. split; [reflexivity|]. right.
    split; [intros a; discriminate|]. repeat split; reflexivity. }
  unfold modify in H; simpl in H. rewrite Hqr in H.
  destruct (next_clean_line fd0) as [|l ls] eqn:Ecl.
  - (* no cleaned line: the queue is still a list *)
    unfold try_except, bind, get, modify, next_lexeme in H; simpl in H.
    inversion H; subst. split; [reflexivity|]. right.
    split; [intros a; discriminate|].
    unfold unread, lexemes; simpl. rewrite Ecl. repeat split; reflexivity.
  - unfold try_except, bind, get, modify, next_lexeme in H; simpl in H.
    destruct (lexemes fd0) as [|x rest] eqn:EL; simpl in H.
    + inversion H; subst. split; [reflexivity|]. left. split; [reflexivity|].
      unfold running; simpl. repeat split; reflexivity.
    + inversion Hne as [|? ? Hx Hrest]; subst.
      destruct rest as [|y rem]; simpl in H.
      * inversion H; subst. split; [reflexivity|]. left. split; [reflexivity|].
        unfold running; simpl. repeat split; reflexivity.
      * inversion Hrest as [|? ? Hy _]; subst.
        unfold when in H. simpl in H. rewrite (truthy_nonempty _ Hy) in H. simpl in H.
        inversion H; subst. split; [reflexivity|]. left. split; [reflexivity|].
        unfold running; simpl. repeat split; reflexivity.
Qed.

Lemma removelast_snoc {A} (l : list A) (x : A) : removelast (l ++ [x]) = l.
Proof. rewrite removelast_app by discriminate. simpl. apply app_nil_r. Qed.

Lemma sublist_removelast {A} (l : list A) : sublist (removelast l) l.
Proof.
  induction l as [|a l IH]; [constructor|].
  destruct l as [|b l]; [apply sublist_nil_l|].
  change (removelast (a :: b :: l)) with (a :: removelast (b :: l)).
  apply sublist_skip. exact IH.
Qed.

(** Wherever the tokenizer is, a call of [advance] leaves the cache alone
    and either succeeds, and then the lexemes that had been current are
    all behind the new current one, or raises and leaves the tokenizer
    where it was. *)
Lemma advance_any (consumed : list string) (f : JackTokenizer) r f' :
  Forall (fun m => m <> "") L ->
  tokenizer_at L consumed f -> advance f = (r, f') ->
  token_cache f' = token_cache f
  /\ ((r = Ok tt /\ exists consumed', tokenizer_at L consumed' f'
                                      /\ sublist consumed (removelast consumed'))
      \/ ((forall a, r <> Ok a) /\ tokenizer_at L consumed f')).
Proof.
  intros Hne [(Hc & Hu)|(remaining & HL & Hrun)] H.
  - subst consumed. destruct (advance_unread _ _ _ Hu H) as (Hcache & [(Hr & Hrun)|(Hr & Hu')]).
    + split; [exact Hcache|]. left. split; [exact Hr|].
      exists (firstn 1 L). split; [|apply sublist_nil_l].
      right. exists (skipn 1 L). split; [symmetry; apply firstn_skipn|exact Hrun].
    + split; [exact Hcache|]. right. split; [exact Hr|]. left. auto.
  - destruct remaining as [|x rem].
    + rewrite (advance_exhausted _ _ Hrun) in H. inversion H; subst.
      split; [reflexivity|]. right. split; [intros a; discriminate|].
      right. exists []. auto.
    + assert (Hsuf : Forall (fun m => m <> "") (x :: rem)).
      { rewrite HL in Hne. apply Forall_app in Hne. apply Hne. }
      destruct (advance_running _ _ _ _ Hsuf Hrun) as (f1 & H1 & Hrun1 & Hcache & _).
      rewrite H1 in H. inversion H; subst.
      split; [exact Hcache|]. left. split; [reflexivity|].
      exists (consumed ++ [x])%list. split.
      * right. exists rem. split; [rewrite <- app_assoc; reflexivity|exact Hrun1].
      * rewrite removelast_snoc. reflexivity.
Qed.

Lemma sublist_consumed (consumed emitted : list string) (safe : bool) :
  sublist emitted (if safe then consumed else removelast consumed) ->
  sublist emitted consumed.
Proof.
  destruct safe; [auto|]. intros H. etransitivity; [exact H|apply sublist_removelast].
Qed.

(** [f.advance()] followed by [self._safe_to_step = False], and what it
    does when [advance] raises. *)
Lemma step_any (e : CompilationEngine) r e' :
  Inv L e -> step e = (r, e') ->
  Inv L e' /\ (forall a, r = Ok a -> _safe_to_step e' = false).
Proof.
  intros (Hok & Hne & consumed & emitted & Hat & Hleaves & Hsub) H.
  unfold step, bind, f_, modify in H.
  destruct (advance (_infile e)) as [r1 f1] eqn:Ea.
  destruct (advance_any _ _ _ _ Hne Hat Ea) as (Hcache & [(-> & consumed' & Hat' & Hs)|(Hr & Hat')]).
  - inversion H; subst. simpl. split; [|auto].
    split; [intros t en Hl; apply (Hok t en); rewrite <- Hcache; exact Hl|].
    split; [exact Hne|]. exists consumed', emitted. simpl.
    split; [exact Hat'|]. split; [exact Hleaves|].
    etransitivity; [eapply sublist_consumed; exact Hsub|exact Hs].
  - destruct r1 as [a| |]; [destruct (Hr a); reflexivity| |]; inversion H; subst.
    + split; [|intros a [=]].
      split; [intros t en Hl; apply (Hok t en); rewrite <- Hcache; exact Hl|].
      split; [exact Hne|]. exists consumed, emitted. simpl. auto.
    + split; [|intros a [=]].
      split; [intros t en Hl; apply (Hok t en); rewrite <- Hcache; exact Hl|].
      split; [exact Hne|]. exists consumed, emitted. simpl. auto.
Qed.

Lemma keeps_step : keeps L step.
Proof. intros e r e' HI H. apply (step_any _ _ _ HI H). Qed.

Lemma step_if_safe_step (e : CompilationEngine) :
  step_if_safe e = if _safe_to_step e then step e else (Ok tt, e).
Proof. unfold step_if_safe, bind, gets, when. destruct (_safe_to_step e); reflexivity. Qed.

Lemma step_if_safe_any (e : CompilationEngine) r e' :
  Inv L e -> step_if_safe e = (r, e') ->
  Inv L e' /\ (forall a, r = Ok a -> _safe_to_step e' = false).
Proof.
  intros HI H. rewrite step_if_safe_step in H.
  destruct (_safe_to_step e) eqn:Hs.
  - apply (step_any _ _ _ HI H).
  - inversion H; subst. auto.
Qed.

Lemma keeps_step_if_safe : keeps L step_if_safe.
Proof. intros e r e' HI H. apply (step_if_safe_any _ _ _ HI H). Qed.

(** After a fetch the rest runs on a fetched token. *)
Lemma keeps_after_fetch {A B} (m : M CompilationEngine A) (k : A -> M CompilationEngine B) :
  (forall e r e', Inv L e -> m e = (r, e') ->
                  Inv L e' /\ (forall a, r = Ok a -> _safe_to_step e' = false)) ->
  (forall a, keeps_fetched L (k a)) -> keeps L (bind m k).
Proof.
  intros Hm Hk e r e' HI H.
  apply bind_inv in H. destruct H as [(a & e1 & H1 & H2)|[(x & H1 & _)|(H1 & _)]].
  - destruct (Hm _ _ _ HI H1) as (HI1 & Hf). eapply Hk; [exact HI1|eapply Hf; reflexivity|exact H2].
  - apply (Hm _ _ _ HI H1).
  - apply (Hm _ _ _ HI H1).
Qed.


(** *** Queueing a leaf *)

Lemma classify_empty : classify "" = None.
Proof. reflexivity. Qed.

(** Queueing the leaf of the current token and marking the token
    consumed, when it was fetched and is classified. *)
Lemma Inv_queue_leaf (e : CompilationEngine) (entry : string * terminal_value) :
  Inv L e -> _safe_to_step e = false ->
  classify (token (_infile e)) <> None ->
  entry = leaf_of_lexeme (token (_infile e)) ->
  Inv L (set_safe_to_step true (set_body (_body e ++ [entry]) e)).
Proof.
  intros (Hok & Hne & consumed & emitted & Hat & Hleaves & Hsub) Hsafe Hcl ->.
  rewrite Hsafe in Hsub.
  split; [exact Hok|]. split; [exact Hne|]. simpl.
  assert (Hlast : exists front, consumed = (front ++ [token (_infile e)])%list).
  { destruct Hat as [(_ & Htok & _)|(remaining & _ & _ & Htok & _)].
    - rewrite Htok in Hcl. destruct Hcl. apply classify_empty.
    - destruct (exists_last (l := consumed)) as (front & x & ->).
      + intros ->. simpl in Htok. rewrite Htok in Hcl. destruct Hcl. apply classify_empty.
      + rewrite List.last_last in Htok. exists front. congruence. }
  destruct Hlast as (front & Hc). rewrite Hc in Hsub. rewrite removelast_snoc in Hsub.
  exists consumed, (emitted ++ [token (_infile e)])%list.
  split; [exact Hat|]. split.
  - rewrite app_assoc, Hleaves, map_app. reflexivity.
  - rewrite Hc. apply sublist_app; [exact Hsub|reflexivity].
Qed.

Lemma leaf_of_keyword t : classify t = Some token_types.KEYWORD -> leaf_of_lexeme t = ("keyword", Str t).
Proof. intros H. unfold leaf_of_lexeme. rewrite H. reflexivity. Qed.

Lemma leaf_of_symbol t :
  classify t = Some token_types.SYMBOL -> leaf_of_lexeme t = ("symbol", Str (xml_escape t)).
Proof. intros H. unfold leaf_of_lexeme. rewrite H. reflexivity. Qed.

Lemma leaf_of_identifier t :
  classify t = Some token_types.IDENTIFIER -> leaf_of_lexeme t = ("identifier", Str t).
Proof. intros H. unfold leaf_of_lexeme. rewrite H. reflexivity. Qed.

Lemma leaf_of_int_const t n :
  classify t = Some token_types.INT_CONST -> int t = Some n ->
  leaf_of_lexeme t = ("integerConstant", Int n).
Proof. intros H Hn. unfold leaf_of_lexeme. rewrite H, Hn. reflexivity. Qed.

Lemma leaf_of_string_const t :
  classify t = Some token_types.STRING_CONST ->
  leaf_of_lexeme t = ("stringConstant", Str (slice_1_m1 t)).
Proof. intros H. unfold leaf_of_lexeme. rewrite H. reflexivity. Qed.

(** The name under which [NAMES_TABLE] lists the code of a keyword is the
    keyword. *)
Lemma name_of_keyword (t : string) (k : Z) (name : string) :
  KEYWORDS_TABLE !! t = Some k -> NAMES_TABLE !! k = Some name -> name = t.
Proof.
  intros Hk Hn. apply elem_of_list_to_map_2 in Hk.
  repeat (apply elem_of_cons in Hk; destruct Hk as [Hk|Hk];
          [inversion Hk; subst; vm_compute in Hn; congruence|]).
  inversion Hk.
Qed.

(** The four blocks that queue a leaf. *)
Lemma body_add_eq element terminal (e : CompilationEngine) :
  (body_add element terminal ;; modify (set_safe_to_step true)) e
  = (Ok tt, set_safe_to_step true (set_body (_body e ++ [(element, terminal)]) e)).
Proof. reflexivity. Qed.

Ltac accessor_step H any :=
  let a := fresh "a" in let e1 := fresh "e1" in let H1 := fresh "H1" in
  let x := fresh "x" in let f1 := fresh "f1" in
  apply bind_inv in H; destruct H as [(a & e1 & H1 & H)|[(x & H1 & _)|(H1 & _)]];
  apply f_inv in H1; destruct H1 as (f1 & H1 & ?); subst;
  match goal with
  | HI : Inv _ ?e |- _ =>
      let Hpos := fresh "Hpos" in let Hok1 := fresh "Hok1" in let Hval := fresh "Hval" in
      destruct (any _ _ _ (proj1 HI) H1) as (Hpos & Hok1 & Hval);
      pose proof (Inv_quiet _ _ HI (quiet_set_infile e f1 Hpos) Hok1)
  end.

Lemma keeps_queue_identifier :
  keeps_fetched L (s <- f_ identifier ;; body_add "identifier" (Str s) ;;
                   modify (set_safe_to_step true)).
Proof.
  intros e r e' HI Hf H. accessor_step H identifier_any; try assumption.
  rewrite body_add_eq in H. inversion H; subst.
  destruct (Hval a eq_refl) as (Hc & ->).
  destruct Hpos as (_ & _ & Htok & _).
  apply (Inv_queue_leaf (set_infile f1 e)); auto.
  - simpl. rewrite Htok, Hc. discriminate.
  - simpl. rewrite Htok. symmetry. apply leaf_of_identifier, Hc.
Qed.

Lemma keeps_queue_symbol :
  keeps_fetched L (s <- f_ symbol ;; body_add "symbol" (Str s) ;;
                   modify (set_safe_to_step true)).
Proof.
  intros e r e' HI Hf H. accessor_step H symbol_any; try assumption.
  rewrite body_add_eq in H. inversion H; subst.
  destruct (Hval a eq_refl) as (Hc & ->).
  destruct Hpos as (_ & _ & Htok & _).
  apply (Inv_queue_leaf (set_infile f1 e)); auto.
  - simpl. rewrite Htok, Hc. discriminate.
  - simpl. rewrite Htok. symmetry. apply leaf_of_symbol, Hc.
Qed.

Lemma keeps_queue_int_const :
  keeps_fetched L (v <- f_ int_val ;; body_add "integerConstant" (Int v) ;;
                   modify (set_safe_to_step true)).
Proof.
  intros e r e' HI Hf H. accessor_step H int_val_any; try assumption.
  rewrite body_add_eq in H. inversion H; subst.
  destruct (Hval a eq_refl) as (Hc & Hn).
  destruct Hpos as (_ & _ & Htok & _).
  apply (Inv_queue_leaf (set_infile f1 e)); auto.
  - simpl. rewrite Htok, Hc. discriminate.
  - simpl. rewrite Htok. symmetry. apply leaf_of_int_const; assumption.
Qed.

Lemma keeps_queue_string_const :
  keeps_fetched L (v <- f_ string_val ;; body_add "stringConstant" (Str v) ;;
                   modify (set_safe_to_step true)).
Proof.
  intros e r e' HI Hf H. accessor_step H string_val_any; try assumption.
  rewrite body_add_eq in H. inversion H; subst.
  destruct (Hval a eq_refl) as (Hc & ->).
  destruct Hpos as (_ & _ & Htok & _).
  apply (Inv_queue_leaf (set_infile f1 e)); auto.
  - simpl. rewrite Htok, Hc. discriminate.
  - simpl. rewrite Htok. symmetry. apply leaf_of_string_const, Hc.
Qed.

Lemma keeps_queue_keyword :
  keeps_fetched L (k <- f_ key_word ;;
                   terminal <- subscript NAMES_TABLE k (str_of_int k) ;;
                   body_add "keyword" (Str terminal) ;;
                   modify (set_safe_to_step true)).
Proof.
  intros e r e' HI Hf H. accessor_step H key_word_any; try assumption.
  destruct (Hval a eq_refl) as (Hc & Hk).
  unfold subscript in H. unfold bind at 1 in H.
  destruct (NAMES_TABLE !! a) as [name|] eqn:En.
  - unfold ret at 1 in H. rewrite body_add_eq in H. inversion H; subst.
    rewrite (name_of_keyword _ _ _ Hk En).
    destruct Hpos as (_ & _ & Htok & _).
    apply (Inv_queue_leaf (set_infile f1 e)); auto.
    + simpl. rewrite Htok, Hc. discriminate.
    + simpl. rewrite Htok. symmetry. apply leaf_of_keyword, Hc.
  - inversion H; subst. assumption.
Qed.


(** *** The helpers that consume a token *)

Ltac quiet_tac :=
  repeat
    lazymatch goal with
    | |- quietly (ret _) => apply quietly_ret
    | |- quietly (raise _ _) => apply quietly_raise
    | |- quietly (f_ token_type) => apply quietly_f_token_type
    | |- quietly (f_ key_word) => apply quietly_f_key_word
    | |- quietly (f_ symbol) => apply quietly_f_symbol
    | |- quietly (subscript _ _ _) => apply quietly_subscript
    | |- quietly (mapM _ _) => apply quietly_mapM; intros
    | |- quietly (bind _ _) => apply quietly_bind; [|intros]
    | |- quietly (if ?b then _ else _) => destruct b
    end.

Lemma keeps_add_keywords keywords : keeps L (add_keywords keywords).
Proof.
  unfold add_keywords.
  apply keeps_after_fetch; [apply step_if_safe_any|]. intros _.
  apply keeps_fetched_quiet_bind; [quiet_tac|]. intros t.
  apply keeps_fetched_quiet_bind; [quiet_tac|]. intros ok.
  destruct ok; [apply keeps_queue_keyword|apply keeps_fetched_weaken, keeps_raise].
Qed.

Lemma keeps_add_symbols symbols : keeps L (add_symbols symbols).
Proof.
  unfold add_symbols.
  apply keeps_after_fetch; [apply step_if_safe_any|]. intros _.
  apply keeps_fetched_quiet_bind; [quiet_tac|]. intros t.
  destruct (is_type t token_types.SYMBOL); [|apply keeps_fetched_weaken, keeps_raise].
  apply keeps_fetched_quiet_bind; [quiet_tac|]. intros bs.
  destruct (any bs); [apply keeps_queue_symbol|apply keeps_fetched_weaken, keeps_raise].
Qed.

Lemma keeps_add_identifier identifier_ : keeps L (add_identifier identifier_).
Proof.
  unfold add_identifier.
  apply keeps_after_fetch; [apply step_if_safe_any|]. intros _.
  apply keeps_fetched_quiet_bind; [quiet_tac|]. intros t.
  destruct (is_type t token_types.IDENTIFIER);
    [apply keeps_queue_identifier|apply keeps_fetched_weaken, keeps_raise].
Qed.

Lemma keeps_add_type void : keeps L (add_type void).
Proof.
  unfold add_type.
  apply keeps_after_fetch; [apply step_if_safe_any|]. intros _.
  apply keeps_fetched_quiet_bind; [quiet_tac|]. intros t.
  apply keeps_fetched_quiet_bind; [quiet_tac|]. intros ok.
  destruct ok; [apply keeps_queue_keyword|].
  apply keeps_fetched_quiet_bind; [quiet_tac|]. intros t'.
  destruct (is_type t' token_types.IDENTIFIER);
    [apply keeps_queue_identifier|apply keeps_fetched_weaken, keeps_raise].
Qed.

(** *** The rules *)

Ltac keeps_tac :=
  cbv zeta;
  repeat
    lazymatch goal with
    | |- keeps _ (ret _) => apply keeps_ret
    | |- keeps _ (raise _ _) => apply keeps_raise
    | |- keeps _ out_of_fuel => apply keeps_out_of_fuel
    | |- keeps _ write_body => apply keeps_write_body
    | |- keeps _ (write_non_terminal_start _) => apply keeps_write_non_terminal_start
    | |- keeps _ (write_non_terminal_end _) => apply keeps_write_non_terminal_end
    | |- keeps _ (write_non_terminal _) => apply keeps_write_non_terminal
    | |- keeps _ step => apply keeps_step
    | |- keeps _ step_if_safe => apply keeps_step_if_safe
    | |- keeps _ (add_keywords _) => apply keeps_add_keywords
    | |- keeps _ (add_symbols _) => apply keeps_add_symbols
    | |- keeps _ (add_identifier _) => apply keeps_add_identifier
    | |- keeps _ (add_type _) => apply keeps_add_type
    | |- keeps _ (f_ token_type) => apply keeps_quietly, quietly_f_token_type
    | |- keeps _ (f_ key_word) => apply keeps_quietly, quietly_f_key_word
    | |- keeps _ (f_ symbol) => apply keeps_quietly, quietly_f_symbol
    | |- keeps _ (reraise_as _ _ _) => apply keeps_reraise_as
    | |- keeps _ (try_except _ _ _) => apply keeps_try_except; [|intros]
    | |- keeps _ (when _ _) => apply keeps_when
    | |- keeps _ (bind _ _) => apply keeps_bind; [|intros]
    | |- keeps _ (if ?b then _ else _) => destruct b
    | H : keeps _ ?m |- keeps _ ?m => exact H
    end.

Lemma keeps_add_keyword_constant : keeps L add_keyword_constant.
Proof. unfold add_keyword_constant, add_keyword_constant_try. keeps_tac. Qed.

Lemma keeps_add_op_or_unary_op unary : keeps L (add_op_or_unary_op unary).
Proof. unfold add_op_or_unary_op, add_op_or_unary_op_try. keeps_tac. Qed.

Lemma keeps_more_vars_loop fuel : keeps L (more_vars_loop fuel).
Proof. induction fuel as [|fuel IH]; simpl; keeps_tac. Qed.

Lemma keeps_add_type_var_name_var_name fuel : keeps L (add_type_var_name_var_name fuel).
Proof. unfold add_type_var_name_var_name. pose proof (keeps_more_vars_loop fuel). keeps_tac. Qed.

Lemma keeps_compile_class_var_dec fuel : keeps L (compile_class_var_dec fuel).
Proof.
  unfold compile_class_var_dec. pose proof (keeps_add_type_var_name_var_name fuel). keeps_tac.
Qed.

Lemma keeps_compile_var_dec fuel : keeps L (compile_var_dec fuel).
Proof.
  unfold compile_var_dec. pose proof (keeps_add_type_var_name_var_name fuel). keeps_tac.
Qed.

Lemma keeps_parameter_list_loop fuel : keeps L (parameter_list_loop fuel).
Proof. induction fuel as [|fuel IH]; simpl; keeps_tac. Qed.

Lemma keeps_compile_parameter_list fuel : keeps L (compile_parameter_list fuel).
Proof.
  unfold compile_parameter_list. pose proof (keeps_parameter_list_loop fuel). keeps_tac.
Qed.

Section expression_bodies.
Variables compile_expression expression_loop compile_term compile_expression_list
  expression_list_loop add_subroutine_call : M CompilationEngine unit.
Hypotheses (H1 : keeps L compile_expression) (H2 : keeps L expression_loop)
  (H3 : keeps L compile_term) (H4 : keeps L compile_expression_list)
  (H5 : keeps L expression_list_loop) (H6 : keeps L add_subroutine_call).

Lemma keeps_compile_expression_body :
  keeps L (compile_expression_body expression_loop compile_term).
Proof. unfold compile_expression_body, compile_expression_try. keeps_tac. Qed.

Lemma keeps_expression_loop_body :
  keeps L (expression_loop_body expression_loop compile_term).
Proof.
  unfold expression_loop_body. pose proof (keeps_add_op_or_unary_op false). keeps_tac.
Qed.

Lemma keeps_compile_term_dispatch :
  keeps_fetched L (compile_term_dispatch compile_expression compile_term
                     compile_expression_list add_subroutine_call).
Proof.
  unfold compile_term_dispatch.
  pose proof keeps_add_keyword_constant. pose proof (keeps_add_op_or_unary_op true).
  apply keeps_fetched_quiet_bind; [quiet_tac|]. intros t1.
  destruct (is_type t1 token_types.INT_CONST); [apply keeps_queue_int_const|].
  apply keeps_fetched_quiet_bind; [quiet_tac|]. intros t2.
  destruct (is_type t2 token_types.STRING_CONST); [apply keeps_queue_string_const|].
  apply keeps_fetched_weaken. keeps_tac.
Qed.

Lemma keeps_compile_term_body :
  keeps L (compile_term_body compile_expression compile_term
             compile_expression_list add_subroutine_call).
Proof.
  unfold compile_term_body.
  apply keeps_bind; [apply keeps_write_non_terminal_start|]. intros _.
  apply keeps_after_fetch; [apply step_if_safe_any|]. intros _.
  intros e r e' HI Hf H.
  apply bind_inv in H. destruct H as [(a & e1 & Hd & H)|[(x & Hd & _)|(Hd & _)]].
  - eapply keeps_write_non_terminal_end; [|exact H].
    eapply keeps_compile_term_dispatch; eauto.
  - eapply keeps_compile_term_dispatch; eauto.
  - eapply keeps_compile_term_dispatch; eauto.
Qed.

Lemma keeps_compile_expression_list_body :
  keeps L (compile_expression_list_body expression_list_loop).
Proof. unfold compile_expression_list_body. keeps_tac. Qed.

Lemma keeps_expression_list_loop_body :
  keeps L (expression_list_loop_body compile_expression expression_list_loop).
Proof. unfold expression_list_loop_body. keeps_tac. Qed.

Lemma keeps_add_subroutine_call_body :
  keeps L (add_subroutine_call_body compile_expression_list add_subroutine_call).
Proof. unfold add_subroutine_call_body, add_subroutine_call_try. keeps_tac. Qed.

End expression_bodies.

Lemma keeps_expression_rules (fuel : nat) :
  keeps L (compile_expression fuel) /\ keeps L (expression_loop fuel)
  /\ keeps L (compile_term fuel) /\ keeps L (compile_expression_list fuel)
  /\ keeps L (expression_list_loop fuel) /\ keeps L (add_subroutine_call fuel).
Proof.
  induction fuel as [|fuel (IH1 & IH2 & IH3 & IH4 & IH5 & IH6)].
  - repeat (split; [apply keeps_out_of_fuel|]). apply keeps_out_of_fuel.
  - split; [apply (keeps_compile_expression_body _ _ IH2 IH3)|].
    split; [apply (keeps_expression_loop_body _ _ IH2 IH3)|].
    split; [apply (keeps_compile_term_body _ _ _ _ IH1 IH3 IH4 IH6)|].
    split; [apply (keeps_compile_expression_list_body _ IH5)|].
    split; [apply (keeps_expression_list_loop_body _ _ IH1 IH5)|].
    apply (keeps_add_subroutine_call_body _ _ IH4 IH6).
Qed.


Lemma keeps_compile_expression fuel : keeps L (compile_expression fuel).
Proof. apply keeps_expression_rules. Qed.

Lemma keeps_add_subroutine_call fuel : keeps L (add_subroutine_call fuel).
Proof. apply keeps_expression_rules. Qed.

Lemma keeps_compile_do fuel : keeps L (compile_do fuel).
Proof.
  unfold compile_do, compile_do_try. pose proof (keeps_add_subroutine_call fuel). keeps_tac.
Qed.

Lemma keeps_compile_let fuel : keeps L (compile_let fuel).
Proof.
  unfold compile_let, compile_let_try. pose proof (keeps_compile_expression fuel). keeps_tac.
Qed.

Lemma keeps_compile_return fuel : keeps L (compile_return fuel).
Proof.
  unfold compile_return, compile_return_try. pose proof (keeps_compile_expression fuel).
  keeps_tac.
Qed.

Section statement_bodies.
Variable fuel : nat.
Variables compile_statements statements_loop compile_while compile_if
  : M CompilationEngine unit.
Hypotheses (H1 : keeps L compile_statements) (H2 : keeps L statements_loop)
  (H3 : keeps L compile_while) (H4 : keeps L compile_if).

Lemma keeps_compile_statements_body : keeps L (compile_statements_body statements_loop).
Proof. unfold compile_statements_body. keeps_tac. Qed.

Lemma keeps_statements_loop_body :
  keeps L (statements_loop_body fuel statements_loop compile_while compile_if).
Proof.
  unfold statements_loop_body.
  pose proof (keeps_compile_let fuel). pose proof (keeps_compile_do fuel).
  pose proof (keeps_compile_return fuel). keeps_tac.
Qed.

Lemma keeps_compile_while_body : keeps L (compile_while_body fuel compile_statements).
Proof.
  unfold compile_while_body, compile_while_try. pose proof (keeps_compile_expression fuel).
  keeps_tac.
Qed.

Lemma keeps_compile_if_body : keeps L (compile_if_body fuel compile_statements).
Proof.
  unfold compile_if_body, compile_if_try. pose proof (keeps_compile_expression fuel).
  keeps_tac.
Qed.

End statement_bodies.

Lemma keeps_statement_rules (fuel : nat) :
  keeps L (compile_statements fuel) /\ keeps L (statements_loop fuel)
  /\ keeps L (compile_while fuel) /\ keeps L (compile_if fuel).
Proof.
  induction fuel as [|fuel (IH1 & IH2 & IH3 & IH4)].
  - repeat (split; [apply keeps_out_of_fuel|]). apply keeps_out_of_fuel.
  - split; [apply (keeps_compile_statements_body _ IH2)|].
    split; [apply (keeps_statements_loop_body fuel _ _ _ IH2 IH3 IH4)|].
    split; [apply (keeps_compile_while_body fuel _ IH1)|].
    apply (keeps_compile_if_body fuel _ IH1).
Qed.

Lemma keeps_var_dec_loop fuel : keeps L (var_dec_loop fuel).
Proof.
  induction fuel as [|fuel IH]; simpl; [apply keeps_out_of_fuel|].
  pose proof (keeps_compile_var_dec fuel). keeps_tac.
Qed.

Lemma keeps_compile_subroutine_body fuel : keeps L (compile_subroutine_body fuel).
Proof.
  unfold compile_subroutine_body, compile_subroutine_body_try.
  pose proof (keeps_var_dec_loop fuel).
  pose proof (proj1 (keeps_statement_rules fuel)). keeps_tac.
Qed.

Lemma keeps_compile_subroutine fuel : keeps L (compile_subroutine fuel).
Proof.
  unfold compile_subroutine, compile_subroutine_try.
  pose proof (keeps_compile_parameter_list fuel).
  pose proof (keeps_compile_subroutine_body fuel). keeps_tac.
Qed.

Lemma keeps_class_var_dec_loop fuel : keeps L (class_var_dec_loop fuel).
Proof.
  induction fuel as [|fuel IH]; simpl; [apply keeps_out_of_fuel|].
  pose proof (keeps_compile_class_var_dec fuel). keeps_tac.
Qed.

Lemma keeps_subroutine_loop fuel : keeps L (subroutine_loop fuel).
Proof.
  induction fuel as [|fuel IH]; simpl; [apply keeps_out_of_fuel|].
  pose proof (keeps_compile_subroutine fuel). keeps_tac.
Qed.

Lemma keeps_compile_class fuel : keeps L (compile_class fuel).
Proof.
  unfold compile_class.
  pose proof (keeps_class_var_dec_loop fuel). pose proof (keeps_subroutine_loop fuel).
  keeps_tac.
Qed.

End keeping.

Lemma Inv_fresh (lines : list string) : Inv (lexemes lines) (fresh lines).
Proof.
  split; [apply cache_ok_init|]. split; [apply lexemes_nonempty|].
  exists [], []. split; [|split; [reflexivity|constructor]].
  left. split; [reflexivity|]. unfold unread. simpl. tauto.
Qed.

Lemma tokens_by_advance_running (remaining : list string) :
  forall consumed f n,
    Forall (fun m => m <> "") remaining -> running consumed remaining f ->
    (length remaining <= n)%nat -> tokens_by_advance n f = remaining.
Proof.
  induction remaining as [|x rem IH]; intros consumed f n Hne Hrun Hn.
  - destruct Hrun as (_ & _ & _ & _ & Hmore & _).
    destruct n as [|n]; [reflexivity|]. simpl. unfold has_more_tokens. rewrite Hmore.
    reflexivity.
  - destruct n as [|n]; [simpl in Hn; lia|].
    destruct (advance_running _ _ _ _ Hne Hrun) as (f' & Hadv & Hrun' & _).
    pose proof Hrun as (_ & _ & _ & _ & Hmore & _).
    simpl. unfold has_more_tokens. rewrite Hmore. simpl. rewrite Hadv.
    pose proof Hrun' as (_ & Htok & _). rewrite List.last_last in Htok. rewrite Htok.
    f_equal. apply (IH (consumed ++ [x])%list); auto.
    + inversion Hne; auto.
    + simpl in Hn. lia.
Qed.

(** Calling [advance] to exhaustion yields the lexemes of the unit. *)
Lemma all_tokens_lexemes (lines : list string) (x : string) (rest : list string) :
  lexemes lines = x :: rest -> all_tokens lines = x :: rest.
Proof.
  intros HL. unfold all_tokens. rewrite HL.
  destruct (advance_first lines x rest HL) as (f' & Hadv & Hrun).
  pose proof (lexemes_nonempty lines) as Hne. rewrite HL in Hne.
  change (tokens_by_advance (S (length (x :: rest))) (JackTokenizer_init lines))
    with (match advance (JackTokenizer_init lines) with
          | (Ok _, f') => token f' :: tokens_by_advance (length (x :: rest)) f'
          | _ => []
          end).
  rewrite Hadv. pose proof Hrun as (_ & Htok & _). simpl in Htok. rewrite Htok.
  f_equal. apply (tokens_by_advance_running rest [x]); auto.
  - inversion Hne; auto.
  - simpl. lia.
Qed.

Lemma bind_ok_inv {S A B} (m : M S A) (k : A -> M S B) (s : S) b s' :
  bind m k s = (Ok b, s') -> exists a s1, m s = (Ok a, s1) /\ k a s1 = (Ok b, s').
Proof.
  intros H. apply bind_inv in H. destruct H as [H|[(x & _ & H)|(_ & H)]]; [exact H| |];
    discriminate.
Qed.

Lemma write_non_terminal_end_body element (e e' : CompilationEngine) r :
  write_non_terminal_end element e = (r, e') -> _body e' = [].
Proof.
  unfold write_non_terminal_end. unfold bind at 1. rewrite write_body_eq.
  intros H. inversion H; subst. reflexivity.
Qed.

Lemma compile_class_body (fuel : nat) (e e' : CompilationEngine) :
  compile_class fuel e = (Ok tt, e') -> _body e' = [].
Proof.
  unfold compile_class. intros H.
  do 7 (apply bind_ok_inv in H; destruct H as (? & ? & _ & H)).
  apply (write_non_terminal_end_body _ _ _ _ H).
Qed.

Lemma xml_unescape_classified (t : string) : classify t <> None -> xml_unescape t = t.
Proof.
  intros H. unfold xml_unescape.
  destruct (String.eqb_spec t "&amp;") as [->|_]; [destruct H; reflexivity|].
  destruct (String.eqb_spec t "&lt;") as [->|_]; [destruct H; reflexivity|].
  destruct (String.eqb_spec t "&gt;") as [->|_]; [destruct H; reflexivity|].
  reflexivity.
Qed.

Lemma xml_unescape_escape (t : string) : classify t <> None -> xml_unescape (xml_escape t) = t.
Proof.
  intros H. unfold xml_escape.
  destruct (XML_ESCAPES !! t) as [v|] eqn:E; [|apply xml_unescape_classified, H].
  apply elem_of_list_to_map_2 in E.
  repeat (apply elem_of_cons in E; destruct E as [E|E]; [inversion E; subst; reflexivity|]).
  inversion E.
Qed.

(** Unescaped, the leaf of a keyword, of a symbol or of an identifier is
    the lexeme. *)
Lemma leaf_content_verbatim (t : string) : verbatim t = true -> leaf_content t = t.
Proof.
  unfold verbatim, leaf_content. intros H.
  destruct (classify t) as [c|] eqn:Ec; [|discriminate].
  assert (Hc : classify t <> None) by congruence.
  apply orb_true_iff in H. destruct H as [H|H]; [apply orb_true_iff in H; destruct H as [H|H]|];
    apply is_type_true in H; injection H as ->.
  - rewrite (leaf_of_keyword _ Ec). simpl. apply xml_unescape_classified, Hc.
  - rewrite (leaf_of_symbol _ Ec). simpl. apply xml_unescape_escape, Hc.
  - rewrite (leaf_of_identifier _ Ec). simpl. apply xml_unescape_classified, Hc.
Qed.

(** C1, as amended.  When a unit compiles without error, the leaf entries
    of the output are, in the order written, the leaves of lexemes taken in
    order from the tokens that exhaustive calls of [advance] yield: a
    keyword or an identifier is written as it is, a symbol escaped, an
    integer constant as its value and a string constant without its
    quotes.  Unescaped, the content of a keyword, symbol or identifier
    leaf is its lexeme. *)
Theorem leaves_follow_the_lexemes (fuel : nat) (lines : list string) (e' : CompilationEngine) :
  analyze fuel lines = (Ok tt, e') ->
  exists emitted,
    sublist emitted (all_tokens lines)
    /\ leaves (_outfile e') = map leaf_of_lexeme emitted
    /\ leaf_contents (_outfile e') = map leaf_content emitted
    /\ Forall (fun t => verbatim t = true -> leaf_content t = t) emitted.
Proof.
  intros H. unfold analyze in H.
  pose proof (keeps_compile_class (lexemes lines) fuel _ _ _ (Inv_fresh lines) H) as HI.
  destruct HI as (_ & _ & consumed & emitted & Hat & Hleaves & Hsub).
  rewrite (compile_class_body _ _ _ H), app_nil_r in Hleaves.
  exists emitted. split; [|split; [exact Hleaves|split]].
  - apply sublist_consumed in Hsub.
    destruct (lexemes lines) as [|x rest] eqn:HL.
    + destruct Hat as [(-> & _)|(remaining & Hc & _)].
      * apply sublist_nil_r in Hsub. subst. apply sublist_nil_l.
      * symmetry in Hc. apply app_eq_nil in Hc. destruct Hc as (-> & _).
        apply sublist_nil_r in Hsub. subst. apply sublist_nil_l.
    + rewrite (all_tokens_lexemes _ _ _ HL).
      destruct Hat as [(-> & _)|(remaining & Hc & _)].
      * apply sublist_nil_r in Hsub. subst. apply sublist_nil_l.
      * rewrite Hc. etransitivity; [exact Hsub|]. apply sublist_inserts_r. reflexivity.
  - unfold leaf_contents. rewrite Hleaves, map_map. reflexivity.
  - apply Forall_forall. intros t _. apply leaf_content_verbatim.
Qed.

(** ** The failure kinds of the rules *)

Lemma wraps_lead_tail own expectation (lead guarded tail : M CompilationEngine unit) :
  wraps own expectation lead guarded (lead ;; reraise_as own expectation guarded ;; tail).
Proof.
  intros e e1 ex e2 Hlead Hg Hsub.
  unfold bind, reraise_as, try_except, raise. rewrite Hlead, Hg, Hsub. reflexivity.
Qed.

Lemma wraps_tail own expectation (guarded tail : M CompilationEngine unit) :
  wraps own expectation (ret tt) guarded (reraise_as own expectation guarded ;; tail).
Proof.
  intros e e1 ex e2 Hlead Hg Hsub. inversion Hlead; subst.
  unfold bind, reraise_as, try_except, raise. rewrite Hg, Hsub. reflexivity.
Qed.

Lemma wraps_alone own expectation (guarded : M CompilationEngine unit) :
  wraps own expectation (ret tt) guarded (reraise_as own expectation guarded).
Proof.
  intros e e1 ex e2 Hlead Hg Hsub. inversion Hlead; subst.
  unfold reraise_as, try_except, raise. rewrite Hg, Hsub. reflexivity.
Qed.

Lemma wraps_parameter_list (fuel : nat) :
  wraps CompileParameterListError "Expected a complete parameter list declaration: "
    (add_type false) (add_identifier "variable name") (compile_parameter_list (S fuel)).
Proof.
  intros e e1 ex e2 Hlead Hg Hsub.
  unfold compile_parameter_list. simpl parameter_list_loop.
  unfold bind, reraise_as, try_except, raise, ret. rewrite Hlead. rewrite Hg, Hsub. reflexivity.
Qed.

(** C7, as amended.  Each rule other than the class rule has a failure
    kind of its own: the fourteen kinds are distinct, each derives from
    [CompileError], and together with [CompileError] and the three kinds of
    the token helpers they are all the classes the file declares, so the
    class rule has none.  Each of these rules, once the part before its
    [try] block has gone through, turns a failure of the block that derives
    from [CompileError] into a failure of its own kind, whose message is
    its expectation text followed by the message of the failure it
    caught. *)
Theorem each_rule_wraps_its_failures (fuel : nat) (unary : bool) :
  wraps CompileClassVarDecError "Expected a complete static  or a field declaration: "
    (add_keywords ["static"; "field"]) (add_type_var_name_var_name fuel)
    (compile_class_var_dec fuel)
  /\ wraps CompileSubroutineError
       "Expected a complete method, function or constructor declaration: "
       (add_keywords ["constructor"; "function"; "method"]) (compile_subroutine_try fuel)
       (compile_subroutine fuel)
  /\ wraps CompileParameterListError "Expected a complete parameter list declaration: "
       (add_type false) (add_identifier "variable name") (compile_parameter_list (S fuel))
  /\ wraps CompileSubroutineBodyError "Expected a complete subroutine body declaration: "
       (ret tt) (compile_subroutine_body_try fuel) (compile_subroutine_body fuel)
  /\ wraps CompileVarDecError "Expected a complete variable declaration: "
       (add_keywords ["var"]) (add_type_var_name_var_name fuel) (compile_var_dec fuel)
  /\ wraps CompileLetError "Expected a complete let statement: "
       (ret tt) (compile_let_try fuel) (compile_let fuel)
  /\ wraps CompileIfError "Expected a complete if statement: "
       (ret tt) (compile_if_try fuel (compile_statements fuel)) (compile_if (S fuel))
  /\ wraps CompileWhileError "Exprected a complete while statement: "
       (ret tt) (compile_while_try fuel (compile_statements fuel)) (compile_while (S fuel))
  /\ wraps CompileDoError "Expected a complete do statement: "
       (ret tt) (compile_do_try fuel) (compile_do fuel)
  /\ wraps CompileReturnError "Expected a complete return statement: "
       (ret tt) (compile_return_try fuel) (compile_return fuel)
  /\ wraps CompileExpressionError "Expected a complete expression: "
       (write_non_terminal_start "expression")
       (compile_expression_try (expression_loop fuel) (compile_term fuel))
       (compile_expression (S fuel))
  /\ wraps CompileOpError "Expected an operator: "
       (ret tt) (add_op_or_unary_op_try unary) (add_op_or_unary_op unary)
  /\ wraps CompileKeywordConstantError "Expected a keyword constant: "
       (ret tt) add_keyword_constant_try add_keyword_constant
  /\ wraps CompileSubroutineCallError "Expected a complete subroutine call: "
       (ret tt)
       (add_subroutine_call_try (compile_expression_list fuel) (add_subroutine_call fuel))
       (add_subroutine_call (S fuel))
  /\ NoDup rule_classes
  /\ Forall (fun c => base_class c = Some CompileError) rule_classes
  /\ declared_classes
     = ([CompileError; CompileKeywordError; CompileSymbolError; CompileTypeError]
        ++ rule_classes)%list.
Proof.
  split; [apply wraps_lead_tail|].
  split; [apply wraps_lead_tail|].
  split; [apply wraps_parameter_list|].
  split; [apply wraps_tail|].
  split; [apply wraps_lead_tail|].
  split; [apply wraps_tail|].
  split; [apply (wraps_tail CompileIfError _
                   (compile_if_try fuel (compile_statements fuel)))|].
  split; [apply (wraps_tail CompileWhileError _
                   (compile_while_try fuel (compile_statements fuel)))|].
  split; [apply wraps_tail|].
  split; [apply wraps_tail|].
  split; [apply (wraps_lead_tail CompileExpressionError _ _
                   (compile_expression_try (expression_loop fuel) (compile_term fuel)))|].
  split; [apply wraps_alone|].
  split; [apply wraps_alone|].
  split; [apply (wraps_alone CompileSubroutineCallError _
                   (add_subroutine_call_try (compile_expression_list fuel)
                      (add_subroutine_call fuel)))|].
  split; [|split; [|reflexivity]].
  - compute_done.
  - unfold rule_classes. repeat constructor.
Qed.

Lemma leaves_follow_the_lexemes_witness :
  let run := analyze 100 ["class Main { }"] in
  run = (Ok tt, snd run)
  /\ exists emitted,
       sublist emitted (all_tokens ["class Main { }"])
       /\ leaves (_outfile (snd run)) = map leaf_of_lexeme emitted
       /\ leaf_contents (_outfile (snd run)) = map leaf_content emitted
       /\ Forall (fun t => verbatim t = true -> leaf_content t = t) emitted.
Proof.
  intros run. split; [vm_compute; reflexivity|].
  apply (leaves_follow_the_lexemes 100 ["class Main { }"] (snd run)).
  vm_compute. reflexivity.
Defined.

(** The claim as it stands fails on a unit with a string constant: the
    lexeme has its quotes, the leaf has not. *)
Lemma string_constant_leaf_differs_from_lexeme :
  let lines := ["class A { function void f ( ) { do g ( " ++ quoted "hi" ++ " ) ; return ; } }"] in
  let run := analyze 100 lines in
  fst run = Ok tt
  /\ all_tokens lines
     = ["class"; "A"; "{"; "function"; "void"; "f"; "("; ")"; "{"; "do"; "g"; "(";
        quoted "hi"; ")"; ";"; "return"; ";"; "}"; "}"]
  /\ leaf_contents (_outfile (snd run))
     = ["class"; "A"; "{"; "function"; "void"; "f"; "("; ")"; "{"; "do"; "g"; "(";
        "hi"; ")"; ";"; "return"; ";"; "}"; "}"]
  /\ leaf_contents (_outfile (snd run)) <> all_tokens lines.
Proof. vm_compute. repeat split; try reflexivity. discriminate. Qed.

(** Nor does every lexeme get a leaf: an integer constant is written as
    its value, a brace that opens the statements of a subroutine body is
    stepped over, and what follows the class is never read. *)
Lemma lexemes_without_their_leaf :
  let run := analyze 100 ["class A { function void f ( ) { { let x = 007 ; return ; } } extra"] in
  fst run = Ok tt
  /\ all_tokens ["class A { function void f ( ) { { let x = 007 ; return ; } } extra"]
     = ["class"; "A"; "{"; "function"; "void"; "f"; "("; ")"; "{"; "{"; "let"; "x"; "=";
        "007"; ";"; "return"; ";"; "}"; "}"; "extra"]
  /\ leaf_contents (_outfile (snd run))
     = ["class"; "A"; "{"; "function"; "void"; "f"; "("; ")"; "{"; "let"; "x"; "=";
        "7"; ";"; "return"; ";"; "}"; "}"].
Proof. vm_compute. repeat split; reflexivity. Qed.

(** The claim of a failure kind for every rule fails on the class rule:
    when the field declaration of [class A { field }] fails, the class
    rule raises the very exception its sub-rule raised, of the sub-rule's
    kind and with the sub-rule's message. *)
Lemma class_rule_passes_failure_through :
  let lines := ["class A { field }"] in
  let e1 := snd ((add_keywords ["class"] ;; add_identifier "class name" ;;
                  add_symbols (ListOf ["{"]) ;; write_non_terminal_start "class")
                   (fresh lines)) in
  let ex := Exn CompileClassVarDecError
              "Expected a complete static  or a field declaration: Expected '11'| '13'| '12'| 'className'" in
  fst (compile_class_var_dec 99 e1) = Raise ex
  /\ fst (analyze 100 lines) = Raise ex
  /\ ~ In "CompileClassError" (map class_name declared_classes).
Proof.
  vm_compute. repeat split; try reflexivity.
  intros H. repeat (destruct H as [H|H]; [discriminate H|]). exact H.
Qed.

Lemma each_rule_wraps_its_failures_witness :
  let e := fresh ["let x = 1 }"] in
  let e2 := snd (compile_let_try 100 e) in
  compile_let_try 100 e = (Raise (Exn CompileSymbolError "Expected ';'"), e2)
  /\ compile_let 100 e
     = (Raise (Exn CompileLetError "Expected a complete let statement: Expected ';'"), e2).
Proof.
  intros e e2.
  assert (Hg : compile_let_try 100 e = (Raise (Exn CompileSymbolError "Expected ';'"), e2))
    by (vm_compute; reflexivity).
  split; [exact Hg|].
  destruct (each_rule_wraps_its_failures 100 false) as (_ & _ & _ & _ & _ & Hlet & _).
  exact (Hlet e e _ e2 eq_refl Hg eq_refl).
Defined.

Lemma advance_cache (f : JackTokenizer) : token_cache (snd (advance f)) = token_cache f.
Proof.
  destruct f as [fd0 closed0 tok0 next0 q0 cache0 more0 line0 cls0].
  unfold advance, bind, get, has_more_tokens. simpl.
  destruct more0; [|reflexivity].
  destruct closed0; [reflexivity|]. simpl.
  unfold modify, try_except, bind, get, modify, next_lexeme, when, ret. simpl.
  destruct (truthy next0); simpl.
  - destruct (fold_left _ _ q0) as [|[|m rest]]; simpl; try reflexivity.
    destruct (truthy m); reflexivity.
  - destruct (fold_left _ _ q0) as [|[|m rest]]; simpl; try reflexivity.
    destruct rest as [|m' rest']; simpl; try reflexivity.
    destruct (truthy m'); reflexivity.
Qed.

Ltac pure_accessor Hok :=
  match goal with
  | |- exists f', bind token_type _ ?f = _ /\ _ =>
      let f1 := fresh "f1" in let H1 := fresh "H1" in
      let Hpos := fresh "Hpos" in let Hok1 := fresh "Hok1" in let Htok := fresh "Htok" in
      destruct (token_type_spec f Hok) as (f1 & H1 & Hpos & Hok1);
      rewrite (bind_run _ _ _ _ _ H1);
      pose proof Hpos as (_ & _ & Htok & _);
      destruct (is_type (classify (token f)) _) eqn:Hty;
      [ | exists f1; split; [reflexivity|split; [exact Hpos|exact Hok1]] ]
  end.

Lemma key_word_pure (f : JackTokenizer) :
  cache_ok f ->
  exists f', key_word f = (key_word_of (token f), f') /\ same_position f f' /\ cache_ok f'.
Proof.
  intros Hok. unfold key_word, key_word_of. pure_accessor Hok.
  unfold bind, get.
  destruct (cached ce_key_word f1) as [v|] eqn:E.
  - destruct (cached_ok _ _ _ Hok1 E) as (e & (_ & Hk & _) & Hv).
    rewrite Htok in Hk. rewrite (Hk _ Hv).
    exists f1. split; [reflexivity|split; [exact Hpos|exact Hok1]].
  - rewrite Htok. destruct (KEYWORDS_TABLE !! token f) as [k|] eqn:Et; simpl.
    + eexists. split; [reflexivity|].
      split; [unfold same_position in *; simpl; tauto|].
      apply cache_ok_store; [exact Hok1|]. rewrite Htok. entry_ok_single.
    + exists f1. split; [reflexivity|split; [exact Hpos|exact Hok1]].
Qed.

Lemma symbol_pure (f : JackTokenizer) :
  cache_ok f ->
  exists f', symbol f = (symbol_of (token f), f') /\ same_position f f' /\ cache_ok f'.
Proof.
  intros Hok. unfold symbol, symbol_of. pure_accessor Hok.
  unfold bind, get.
  destruct (cached ce_symbol f1) as [v|] eqn:E.
  - destruct (cached_ok _ _ _ Hok1 E) as (e & (_ & _ & Hk & _) & Hv).
    rewrite Htok in Hk. rewrite (Hk _ Hv).
    exists f1. split; [reflexivity|split; [exact Hpos|exact Hok1]].
  - rewrite Htok. simpl. eexists. split; [reflexivity|].
    split; [unfold same_position in *; simpl; tauto|].
    apply cache_ok_store; [exact Hok1|]. rewrite Htok. entry_ok_single.
Qed.

Lemma identifier_pure (f : JackTokenizer) :
  cache_ok f ->
  exists f', identifier f = (identifier_of (token f), f') /\ same_position f f' /\ cache_ok f'.
Proof.
  intros Hok. unfold identifier, identifier_of. pure_accessor Hok.
  unfold bind, get.
  destruct (cached ce_identifier f1) as [v|] eqn:E.
  - destruct (cached_ok _ _ _ Hok1 E) as (e & (_ & _ & _ & Hk & _) & Hv).
    rewrite Htok in Hk. rewrite (Hk _ Hv).
    exists f1. split; [reflexivity|split; [exact Hpos|exact Hok1]].
  - rewrite Htok. simpl. eexists. split; [reflexivity|].
    split; [unfold same_position in *; simpl; tauto|].
    apply cache_ok_store; [exact Hok1|]. rewrite Htok. entry_ok_single.
Qed.

Lemma int_val_pure (f : JackTokenizer) :
  cache_ok f ->
  exists f', int_val f = (int_val_of (token f), f') /\ same_position f f' /\ cache_ok f'.
Proof.
  intros Hok. unfold int_val, int_val_of. pure_accessor Hok.
  unfold bind, get.
  destruct (cached ce_int_val f1) as [v|] eqn:E.
  - destruct (cached_ok _ _ _ Hok1 E) as (e & (_ & _ & _ & _ & Hk & _) & Hv).
    rewrite Htok in Hk. rewrite (Hk _ Hv).
    exists f1. split; [reflexivity|split; [exact Hpos|exact Hok1]].
  - rewrite Htok. destruct (int (token f)) as [k|] eqn:Et; simpl.
    + eexists. split; [reflexivity|].
      split; [unfold same_position in *; simpl; tauto|].
      apply cache_ok_store; [exact Hok1|]. rewrite Htok. entry_ok_single.
    + exists f1. split; [reflexivity|split; [exact Hpos|exact Hok1]].
Qed.

Lemma string_val_pure (f : JackTokenizer) :
  cache_ok f ->
  exists f', string_val f = (string_val_of (token f), f') /\ same_position f f' /\ cache_ok f'.
Proof.
  intros Hok. unfold string_val, string_val_of. pure_accessor Hok.
  unfold bind, get.
  destruct (cached ce_string_val f1) as [v|] eqn:E.
  - destruct (cached_ok _ _ _ Hok1 E) as (e & (_ & _ & _ & _ & _ & Hk) & Hv).
    rewrite Htok in Hk. rewrite (Hk _ Hv).
    exists f1. split; [reflexivity|split; [exact Hpos|exact Hok1]].
  - rewrite Htok. simpl. eexists. split; [reflexivity|].
    split; [unfold same_position in *; simpl; tauto|].
    apply cache_ok_store; [exact Hok1|]. rewrite Htok. entry_ok_single.
Qed.

Lemma cache_ok_after_call (c : tokenizer_call) (f : JackTokenizer) :
  cache_ok f -> cache_ok (after_call c f).
Proof.
  intros Hok. destruct c; simpl.
  - intros t e H. rewrite advance_cache in H. apply (Hok t e H).
  - destruct (token_type_spec f Hok) as (f' & -> & _ & H). exact H.
  - destruct (key_word_pure f Hok) as (f' & -> & _ & H). exact H.
  - destruct (symbol_pure f Hok) as (f' & -> & _ & H). exact H.
  - destruct (identifier_pure f Hok) as (f' & -> & _ & H). exact H.
  - destruct (int_val_pure f Hok) as (f' & -> & _ & H). exact H.
  - destruct (string_val_pure f Hok) as (f' & -> & _ & H). exact H.
Qed.

Lemma cache_ok_after_calls (cs : list tokenizer_call) :
  forall f, cache_ok f -> cache_ok (after_calls cs f).
Proof.
  induction cs as [|c cs IH]; intros f Hok; [exact Hok|].
  apply IH, cache_ok_after_call, Hok.
Qed.

(** X1.  The cache never shows: after any calls on a tokenizer, [token_type]
    and the typed accessors return what the patterns and the decoding give
    for the current token, raise [TypeError] when the token is of another
    kind, and leave the tokenizer where it is. *)
Theorem cache_is_transparent (lines : list string) (cs : list tokenizer_call) :
  let f := after_calls cs (JackTokenizer_init lines) in
  fst (token_type f) = Ok (classify (token f))
  /\ fst (key_word f) = key_word_of (token f)
  /\ fst (symbol f) = symbol_of (token f)
  /\ fst (identifier f) = identifier_of (token f)
  /\ fst (int_val f) = int_val_of (token f)
  /\ fst (string_val f) = string_val_of (token f)
  /\ (forall c, c <> call_advance -> same_position f (after_call c f)).
Proof.
  intros f.
  assert (Hok : cache_ok f) by apply cache_ok_after_calls, cache_ok_init.
  destruct (token_type_spec f Hok) as (f1 & H1 & P1 & _).
  destruct (key_word_pure f Hok) as (f2 & H2 & P2 & _).
  destruct (symbol_pure f Hok) as (f3 & H3 & P3 & _).
  destruct (identifier_pure f Hok) as (f4 & H4 & P4 & _).
  destruct (int_val_pure f Hok) as (f5 & H5 & P5 & _).
  destruct (string_val_pure f Hok) as (f6 & H6 & P6 & _).
  rewrite H1, H2, H3, H4, H5, H6. repeat (split; [reflexivity|]).
  intros c Hc. destruct c; simpl; [congruence| | | | | |];
    rewrite ?H1, ?H2, ?H3, ?H4, ?H5, ?H6; assumption.
Qed.

Lemma get_ge_None (s : string) : forall i, (String.length s <= i)%nat -> String.get i s = None.
Proof.
  induction s as [|a s IH]; intros i H; simpl in *; [reflexivity|].
  destruct i as [|i]; [lia|]. apply IH. lia.
Qed.

Lemma rmatch_Lit {A} (w : string) :
  forall (s : string) (i : nat) (k : nat -> option A) (x : A),
    re.rmatch (re.Lit w) s i k = Some x ->
    k (i + String.length w)%nat = Some x
    /\ forall j, (j < String.length w)%nat -> String.get (i + j) s = String.get j w.
Proof.
  induction w as [|c w IH]; intros s i k x H.
  - simpl in H. rewrite Nat.add_0_r. split; [exact H|]. simpl. intros j Hj. lia.
  - assert (Hc : exists k', (String.get i s = Some c) /\ k' = (fun j => re.rmatch (re.Lit w) s j k)
                            /\ k' (S i) = Some x).
    { destruct w as [|c' w'].
      - simpl in H. destruct (String.get i s) as [c0|] eqn:E; [|discriminate].
        unfold is_char in H. destruct (Ascii.eqb_spec c c0) as [->|]; [|discriminate].
        eexists. split; [reflexivity|]. split; [reflexivity|]. exact H.
      - change (re.Lit (String c (String c' w')))
          with (re.Seq (re.Cls (is_char c)) (re.Lit (String c' w'))) in H.
        simpl in H. destruct (String.get i s) as [c0|] eqn:E; [|discriminate].
        unfold is_char in H. destruct (Ascii.eqb_spec c c0) as [->|]; [|discriminate].
        eexists. split; [reflexivity|]. split; [reflexivity|]. exact H. }
    destruct Hc as (k' & Hget & -> & Hk).
    apply IH in Hk. destruct Hk as (Hk & Hrest).
    simpl String.length. replace (i + S (String.length w))%nat with (S i + String.length w)%nat by lia.
    split; [exact Hk|].
    intros [|j] Hj.
    + rewrite Nat.add_0_r. exact Hget.
    + replace (i + S j)%nat with (S i + j)%nat by lia. simpl. apply Hrest. simpl in Hj. lia.
Qed.

Lemma rmatch_Alts {A} (rs : list re.regex) :
  forall (s : string) (i : nat) (k : nat -> option A) (x : A),
    re.rmatch (re.Alts rs) s i k = Some x ->
    exists r, In r rs /\ re.rmatch r s i k = Some x.
Proof.
  induction rs as [|r rs IH]; intros s i k x H.
  - simpl in H. destruct (String.get i s); discriminate.
  - destruct rs as [|r' rs'].
    + exists r. split; [left; reflexivity|exact H].
    + change (re.Alts (r :: r' :: rs')) with (re.Alt r (re.Alts (r' :: rs'))) in H.
      simpl in H. destruct (re.rmatch r s i k) as [y|] eqn:E.
      * exists r. split; [left; reflexivity|]. congruence.
      * apply IH in H. destruct H as (r0 & Hin & Hr). exists r0. split; [right; exact Hin|exact Hr].
Qed.

Lemma fullmatch_Lit (w s : string) :
  re.fullmatch (re.Lit w) s = true -> s = w.
Proof.
  unfold re.fullmatch. intros H.
  destruct (re.rmatch _ _ _ _) as [j|] eqn:E; [|discriminate].
  apply rmatch_Lit in E. destruct E as (Hk & Hget). simpl in Hk.
  destruct (Nat.eqb_spec (String.length w) (String.length s)) as [Hlen|]; [|discriminate].
  apply String.get_correct. intros n.
  destruct (Nat.lt_ge_cases n (String.length w)) as [Hn|Hn].
  - apply (Hget n Hn).
  - rewrite (get_ge_None w n Hn). apply get_ge_None. lia.
Qed.

Lemma fullmatch_KEYWORD (t : string) :
  re.fullmatch patterns.KEYWORD t = true -> In t keyword_words.
Proof.
  unfold re.fullmatch. intros H.
  destruct (re.rmatch _ _ _ _) as [j|] eqn:E; [|discriminate].
  unfold patterns.KEYWORD in E. apply rmatch_Alts in E.
  destruct E as (r & Hin & Hr). apply in_map_iff in Hin.
  destruct Hin as (w & <- & Hw).
  assert (t = w) as ->; [|exact Hw].
  apply fullmatch_Lit. unfold re.fullmatch. rewrite Hr. reflexivity.
Qed.

Lemma classify_keyword (t : string) :
  classify t = Some token_types.KEYWORD <-> In t keyword_words.
Proof.
  split.
  - unfold classify. intros H.
    destruct (re.fullmatch patterns.KEYWORD t) eqn:E; [apply fullmatch_KEYWORD, E|].
    repeat match type of H with
           | (if ?b then _ else _) = _ => destruct b; [discriminate H|]
           end.
    discriminate H.
  - intros H. unfold keyword_words in H.
    repeat (destruct H as [<-|H]; [reflexivity|]). destruct H.
Qed.

Lemma keyword_words_keys (t : string) :
  In t keyword_words <-> is_Some (KEYWORDS_TABLE !! t).
Proof.
  split.
  - intros H. unfold keyword_words in H.
    repeat (destruct H as [<-|H]; [eexists; reflexivity|]). destruct H.
  - intros [k Hk]. apply elem_of_list_to_map_2 in Hk.
    repeat (apply elem_of_cons in Hk; destruct Hk as [Hk|Hk];
            [inversion Hk; subst; unfold keyword_words; simpl; tauto|]).
    inversion Hk.
Qed.

Lemma keywords_table_keys (t : string) :
  classify t = Some token_types.KEYWORD <-> is_Some (KEYWORDS_TABLE !! t).
Proof. rewrite classify_keyword. apply keyword_words_keys. Qed.

(** X2.  [token_type] answers KEYWORD for the keys of [KEYWORDS_TABLE]
    and for nothing else, so on a keyword [key_word] finds its code in the
    table and does not raise [KeyError], and [NAMES_TABLE] leads from the
    code back to the keyword. *)
Theorem keywords_are_the_keys_of_the_table (t : string) :
  (classify t = Some token_types.KEYWORD <-> is_Some (KEYWORDS_TABLE !! t))
  /\ (forall k, KEYWORDS_TABLE !! t = Some k ->
        key_word_of t = Ok k /\ NAMES_TABLE !! k = Some t).
Proof.
  split; [apply keywords_table_keys|].
  intros k Hk.
  assert (Hc : classify t = Some token_types.KEYWORD).
  { apply keywords_table_keys. eexists; exact Hk. }
  split.
  - unfold key_word_of. rewrite Hc, Hk. reflexivity.
  - apply elem_of_list_to_map_2 in Hk.
    repeat (apply elem_of_cons in Hk; destruct Hk as [Hk|Hk];
            [inversion Hk; subst; reflexivity|]).
    inversion Hk.
Qed.

Lemma keywords_are_the_keys_of_the_table_witness :
  KEYWORDS_TABLE !! "while" = Some token_types.WHILE
  /\ key_word_of "while" = Ok token_types.WHILE
  /\ NAMES_TABLE !! token_types.WHILE = Some "while".
Proof.
  assert (H : KEYWORDS_TABLE !! "while" = Some token_types.WHILE) by reflexivity.
  split; [exact H|].
  apply (proj2 (keywords_are_the_keys_of_the_table "while") token_types.WHILE H).
Defined.

(** ** The matcher against what the patterns denote *)

Lemma rmatch_sound (s : string) (r : re.regex) :
  forall A i (k : nat -> option A) x,
    re.rmatch r s i k = Some x -> exists j, matches s r i j /\ k j = Some x.
Proof.
  induction r as [|p|r1 IH1 r2 IH2|r1 IH1 r2 IH2|r IH|positive ps];
    intros A i k x H; simpl in H.
  - exists i. split; [constructor|exact H].
  - destruct (String.get i s) as [c|] eqn:E; [|discriminate].
    destruct (p c) eqn:Ep; [|discriminate].
    exists (S i). split; [econstructor; eauto|exact H].
  - apply IH1 in H. destruct H as (j & H1 & H).
    apply IH2 in H. destruct H as (j' & H2 & H).
    exists j'. split; [econstructor; eauto|exact H].
  - destruct (re.rmatch r1 s i k) as [y|] eqn:E.
    + inversion H; subst y. apply IH1 in E. destruct E as (j & H1 & Hk).
      exists j. split; [apply matches_Alt_l, H1|exact Hk].
    + apply IH2 in H. destruct H as (j & H2 & Hk).
      exists j. split; [apply matches_Alt_r, H2|exact Hk].
  - remember (String.length s - i)%nat as fuel eqn:Ef. clear Ef. revert i H.
    induction fuel as [|fuel IHf]; intros i H; simpl in H.
    + exists i. split; [constructor|exact H].
    + destruct (re.rmatch r s i _) as [y|] eqn:E.
      * inversion H; subst y. apply IH in E. destruct E as (j & H1 & Hk).
        destruct (Nat.ltb_spec i j) as [Hij|]; [|discriminate].
        apply IHf in Hk. destruct Hk as (j' & H2 & Hk).
        exists j'. split; [eapply matches_Star_cons; eauto|exact Hk].
      * exists i. split; [constructor|exact H].
  - destruct (Bool.eqb positive (re.behind ps s i)) eqn:E; [|discriminate].
    apply Bool.eqb_prop in E.
    exists i. split; [constructor; congruence|exact H].
Qed.

Lemma matches_bounds (s : string) (r : re.regex) (i j : nat) :
  matches s r i j ->
  (i <= j)%nat /\ ((i <= String.length s)%nat -> (j <= String.length s)%nat).
Proof.
  induction 1; try (split; [lia|intros; lia]).
  apply get_Some_lt in H. split; lia.
Qed.

Lemma rmatch_refused (s : string) (r : re.regex) {A} (i : nat) (k : nat -> option A) :
  (forall j, matches s r i j -> k j = None) -> re.rmatch r s i k = None.
Proof.
  intros Hk. destruct (re.rmatch r s i k) as [x|] eqn:E; [|reflexivity].
  apply rmatch_sound in E. destruct E as (j & Hm & Hj).
  rewrite (Hk j Hm) in Hj. discriminate.
Qed.

(** The matcher consults its continuation only at positions from the
    start of the match to the end of the subject. *)
Lemma rmatch_ext (s : string) (r : re.regex) :
  forall A i (k1 k2 : nat -> option A),
    (i <= String.length s)%nat ->
    (forall j, (i <= j <= String.length s)%nat -> k1 j = k2 j) ->
    re.rmatch r s i k1 = re.rmatch r s i k2.
Proof.
  induction r as [|p|r1 IH1 r2 IH2|r1 IH1 r2 IH2|r IH|positive ps];
    intros A i k1 k2 Hi Hk; simpl.
  - apply Hk. lia.
  - destruct (String.get i s) as [c|] eqn:E; [|reflexivity].
    apply get_Some_lt in E. destruct (p c); [|reflexivity]. apply Hk. lia.
  - apply IH1; [exact Hi|]. intros j Hj. apply IH2; [lia|].
    intros j' Hj'. apply Hk. lia.
  - rewrite (IH1 _ i k1 k2 Hi Hk), (IH2 _ i k1 k2 Hi Hk). reflexivity.
  - remember (String.length s - i)%nat as fuel eqn:Ef. clear Ef. revert i Hi Hk.
    induction fuel as [|fuel IHf]; intros i Hi Hk; simpl.
    + apply Hk. lia.
    + rewrite (IH _ i _ (fun j => if (i <? j)%nat
                                  then re.star_loop (fun i' k' => re.rmatch r s i' k') k2 fuel j
                                  else None) Hi).
      * rewrite (Hk i) by lia. reflexivity.
      * intros j Hj. destruct (i <? j)%nat; [|reflexivity].
        apply IHf; [lia|]. intros j' Hj'. apply Hk. lia.
  - rewrite (Hk i) by lia. reflexivity.
Qed.

(** The budget of a star does not matter once it covers what is left of
    the subject. *)
Lemma star_loop_fuel (s : string) (r : re.regex) {A} (k : nat -> option A) :
  forall fuel1 fuel2 i,
    (i <= String.length s)%nat ->
    (String.length s - i <= fuel1)%nat -> (String.length s - i <= fuel2)%nat ->
    re.star_loop (fun i' k' => re.rmatch r s i' k') k fuel1 i
    = re.star_loop (fun i' k' => re.rmatch r s i' k') k fuel2 i.
Proof.
  assert (Hend : forall fuel i, i = String.length s ->
            re.star_loop (fun i' k' => re.rmatch r s i' k') k fuel i = k i).
  { intros [|fuel] i ->; [reflexivity|]. simpl.
    rewrite rmatch_refused; [reflexivity|].
    intros j Hj. apply matches_bounds in Hj.
    destruct (Nat.ltb_spec (String.length s) j); [lia|reflexivity]. }
  induction fuel1 as [|fuel1 IH]; intros fuel2 i Hi H1 H2.
  - rewrite !Hend by lia. reflexivity.
  - destruct fuel2 as [|fuel2]; [rewrite !Hend by lia; reflexivity|].
    simpl.
    rewrite (rmatch_ext s r _ i _
               (fun j => if (i <? j)%nat
                         then re.star_loop (fun i' k' => re.rmatch r s i' k') k fuel2 j
                         else None) Hi); [reflexivity|].
    intros j Hj. destruct (Nat.ltb_spec i j); [|reflexivity].
    apply IH; lia.
Qed.

Lemma rmatch_complete (s : string) (r : re.regex) (i j : nat) :
  matches s r i j -> (i <= String.length s)%nat ->
  forall A (k : nat -> option A), k j <> None -> re.rmatch r s i k <> None.
Proof.
  induction 1 as [i|p i c Hget Hp|r1 r2 i j k' H1 IH1 H2 IH2|r1 r2 i j H1 IH1
                  |r1 r2 i j H2 IH2|r i|r i j k' H1 IH1 Hij H2 IH2|positive ps i Hb];
    intros Hi A k Hk; simpl.
  - exact Hk.
  - rewrite Hget, Hp. exact Hk.
  - apply IH1; [exact Hi|]. apply IH2; [|exact Hk].
    apply matches_bounds in H1. lia.
  - specialize (IH1 Hi A k Hk). destruct (re.rmatch r1 s i k); congruence.
  - specialize (IH2 Hi A k Hk). destruct (re.rmatch r1 s i k); congruence.
  - destruct (String.length s - i)%nat; simpl; [exact Hk|].
    destruct (re.rmatch r s i _); congruence.
  - pose proof (matches_bounds _ _ _ _ H1) as Hb1.
    destruct (String.length s - i)%nat as [|fuel] eqn:Ef; [lia|]. simpl.
    assert (Hbody : re.rmatch r s i
                      (fun j0 => if (i <? j0)%nat
                                 then re.star_loop (fun i' k'0 => re.rmatch r s i' k'0) k fuel j0
                                 else None) <> None).
    { apply IH1; [exact Hi|].
      destruct (Nat.ltb_spec i j); [|lia].
      rewrite (star_loop_fuel s r k fuel (String.length s - j) j) by lia.
      apply (IH2 ltac:(lia) A k Hk). }
    destruct (re.rmatch r s i _); congruence.
  - rewrite Hb, Bool.eqb_reflx. exact Hk.
Qed.

(** [fullmatch] succeeds exactly on the strings the pattern matches from
    end to end. *)
Lemma fullmatch_matches (r : re.regex) (t : string) :
  re.fullmatch r t = true <-> matches t r 0 (String.length t).
Proof.
  unfold re.fullmatch. split.
  - destruct (re.rmatch r t 0 _) as [x|] eqn:E; [|discriminate]. intros _.
    apply rmatch_sound in E. destruct E as (j & Hm & Hj).
    destruct (Nat.eqb_spec j (String.length t)); [subst; exact Hm|discriminate].
  - intros Hm.
    pose proof (rmatch_complete t r 0 _ Hm ltac:(lia) nat
                  (fun j => if (j =? String.length t)%nat then Some j else None)) as H.
    cbv beta in H. rewrite Nat.eqb_refl in H.
    destruct (re.rmatch r t 0 _); [reflexivity|]. exfalso. apply H; congruence.
Qed.

Lemma match_at_matches (r : re.regex) (s : string) (i j : nat) :
  re.match_at r s i = Some j -> matches s r i j.
Proof.
  unfold re.match_at. intros H. apply rmatch_sound in H.
  destruct H as (j' & Hm & Hj). inversion Hj; subst. exact Hm.
Qed.

Lemma matches_match_at (r : re.regex) (s : string) (i j : nat) :
  matches s r i j -> (i <= String.length s)%nat ->
  exists j', re.match_at r s i = Some j'.
Proof.
  intros Hm Hi. unfold re.match_at.
  pose proof (rmatch_complete s r i j Hm Hi nat (fun j => Some j)) as H.
  destruct (re.rmatch r s i _) as [j'|]; [eauto|]. exfalso. apply H; congruence.
Qed.

(** ** Strings by position *)

Lemma length_append (s1 s2 : string) :
  String.length (s1 ++ s2) = (String.length s1 + String.length s2)%nat.
Proof. induction s1 as [|a s1 IH]; simpl; [reflexivity|]. rewrite IH. reflexivity. Qed.

Lemma length_substring (s : string) :
  forall i n, (i + n <= String.length s)%nat -> String.length (String.substring i n s) = n.
Proof.
  induction s as [|a s IH]; intros i n H; simpl in *.
  - destruct i, n; simpl; lia.
  - destruct i as [|i].
    + destruct n as [|n]; [reflexivity|]. simpl. rewrite IH; lia.
    + apply IH. lia.
Qed.

Lemma get_ext (s t : string) :
  String.length s = String.length t ->
  (forall n, (n < String.length s)%nat -> String.get n s = String.get n t) -> s = t.
Proof.
  intros Hlen H. apply String.get_correct. intros n.
  destruct (Nat.lt_ge_cases n (String.length s)) as [Hn|Hn]; [apply H, Hn|].
  rewrite !get_ge_None by lia. reflexivity.
Qed.

Lemma all_chars_get (p : ascii -> bool) (s : string) :
  all_chars p s = true <-> forall n c, String.get n s = Some c -> p c = true.
Proof.
  induction s as [|a s IH]; simpl.
  - split; [intros _ n c H; discriminate|reflexivity].
  - rewrite andb_true_iff, IH. split.
    + intros [Ha Hs] [|n] c H; [inversion H; subst; exact Ha|apply (Hs n c H)].
    + intros H. split; [apply (H 0%nat a); reflexivity|].
      intros n c Hn. apply (H (S n) c Hn).
Qed.

Lemma is_char_eq (a c : ascii) : is_char a c = true <-> c = a.
Proof. unfold is_char. rewrite Ascii.eqb_eq. split; congruence. Qed.

(** ** The shapes of the matches of the patterns *)

Lemma matches_Lit (s w : string) :
  forall i j,
    matches s (re.Lit w) i j
    <-> j = (i + String.length w)%nat
        /\ forall n, (n < String.length w)%nat -> String.get (i + n) s = String.get n w.
Proof.
  induction w as [|c w IH]; intros i j.
  - simpl. split.
    + intros H. inversion H; subst. split; [lia|intros n Hn; lia].
    + intros [-> _]. rewrite Nat.add_0_r. constructor.
  - assert (Hhead : forall k, matches s (re.Seq (re.Cls (is_char c)) (re.Lit w)) i k
                              <-> matches s (re.Lit (String c w)) i k).
    { intros k. destruct w as [|c' w']; [|reflexivity]. simpl. split.
      - intros H. inversion H; subst.
        match goal with H : matches _ re.Eps _ _ |- _ => inversion H; subst end.
        assumption.
      - intros H. inversion H; subst. econstructor; [exact H|constructor]. }
    rewrite <- Hhead. simpl String.length. split.
    + intros H. inversion H; subst.
      match goal with H : matches _ (re.Cls _) _ _ |- _ => inversion H; subst end.
      match goal with H : matches _ (re.Lit _) _ _ |- _ => apply IH in H; destruct H as [-> Hw] end.
      match goal with H : is_char _ _ = true |- _ => apply is_char_eq in H; subst end.
      split; [lia|]. intros [|n] Hn.
      * rewrite Nat.add_0_r. simpl. assumption.
      * replace (i + S n)%nat with (S i + n)%nat by lia. simpl. apply Hw. lia.
    + intros [-> Hw]. apply matches_Seq with (j := S i).
      * apply matches_Cls with (c := c); [|apply is_char_eq; reflexivity].
        specialize (Hw 0%nat ltac:(lia)). rewrite Nat.add_0_r in Hw. exact Hw.
      * apply IH. split; [lia|]. intros n Hn.
        specialize (Hw (S n) ltac:(lia)).
        replace (i + S n)%nat with (S i + n)%nat in Hw by lia. exact Hw.
Qed.

Lemma matches_Alts (s : string) (rs : list re.regex) (i j : nat) :
  matches s (re.Alts rs) i j <-> exists r, In r rs /\ matches s r i j.
Proof.
  induction rs as [|r rs IH].
  - simpl. split.
    + intros H. inversion H; subst. discriminate.
    + intros (r & [] & _).
  - destruct rs as [|r' rs'].
    + simpl. split; [intros H; exists r; auto|intros (r0 & [<-|[]] & H); exact H].
    + change (re.Alts (r :: r' :: rs')) with (re.Alt r (re.Alts (r' :: rs'))). split.
      * intros H. inversion H; subst.
        -- exists r. split; [left; reflexivity|assumption].
        -- match goal with
           | H : matches _ (match rs' with [] => _ | _ => _ end) _ _ |- _ =>
               apply IH in H; destruct H as (r0 & Hin & Hm)
           end.
           exists r0. split; [right; exact Hin|exact Hm].
      * intros (r0 & [<-|Hin] & Hm).
        -- apply matches_Alt_l, Hm.
        -- apply matches_Alt_r, IH. exists r0. auto.
Qed.

Lemma matches_Star_all (s : string) (r : re.regex) (q : nat -> Prop) :
  (forall i j, matches s r i j -> j = S i /\ q i) ->
  forall i j, matches s (re.Star r) i j ->
              (i <= j)%nat /\ forall n, (i <= n < j)%nat -> q n.
Proof.
  intros Hr i j H. remember (re.Star r) as r' eqn:E.
  induction H; inversion E; subst.
  - split; [lia|intros n Hn; lia].
  - destruct (IHmatches2 eq_refl) as [Hle Hall].
    apply Hr in H. destruct H as [-> Hq].
    split; [lia|]. intros n Hn.
    destruct (Nat.eq_dec n i) as [->|]; [exact Hq|apply Hall; lia].
Qed.

Lemma Star_all_matches (s : string) (r : re.regex) :
  forall d i,
    (forall n, (i <= n < i + d)%nat -> matches s r n (S n)) ->
    matches s (re.Star r) i (i + d).
Proof.
  induction d as [|d IH]; intros i H.
  - rewrite Nat.add_0_r. constructor.
  - apply matches_Star_cons with (j := S i); [apply H; lia|lia|].
    replace (i + S d)%nat with (S i + d)%nat by lia. apply IH.
    intros n Hn. apply H. lia.
Qed.

Lemma matches_Seq_iff (s : string) (r1 r2 : re.regex) (i k : nat) :
  matches s (re.Seq r1 r2) i k <-> exists j, matches s r1 i j /\ matches s r2 j k.
Proof.
  split.
  - intros H. inversion H; subst. eauto.
  - intros (j & H1 & H2). econstructor; eauto.
Qed.

Lemma matches_Cls_iff (s : string) (p : ascii -> bool) (i j : nat) :
  matches s (re.Cls p) i j <-> j = S i /\ char_at p s i.
Proof.
  split.
  - intros H. inversion H; subst. split; [reflexivity|]. eexists; eauto.
  - intros [-> (c & Hc & Hp)]. econstructor; eauto.
Qed.

(** ** The five patterns, one by one *)

Lemma in_range_spec (lo hi c : ascii) :
  in_range lo hi c = true <-> (code lo <= code c <= code hi)%nat.
Proof.
  unfold in_range. rewrite andb_true_iff, !Nat.leb_le. reflexivity.
Qed.

Lemma fullmatch_KEYWORD_iff (t : string) :
  re.fullmatch patterns.KEYWORD t = true <-> In t keyword_words.
Proof.
  split; [apply fullmatch_KEYWORD|].
  intros H. unfold keyword_words in H.
  repeat (destruct H as [<-|H]; [reflexivity|]). destruct H.
Qed.

(** Every keyword is two or more lower-case letters. *)
Lemma keyword_first_char (t : string) :
  In t keyword_words ->
  exists c c' rest, t = String c (String c' rest) /\ in_range "a" "z" c = true.
Proof.
  intros H. unfold keyword_words in H.
  repeat (destruct H as [<-|H]; [do 3 eexists; split; reflexivity|]). destruct H.
Qed.

Lemma fullmatch_SYMBOL (t : string) :
  re.fullmatch patterns.SYMBOL t = true
  <-> exists c, t = str1 c /\ one_of "{}()[].,;+-*/&|<>=~" c = true.
Proof.
  rewrite fullmatch_matches. unfold patterns.SYMBOL. rewrite matches_Cls_iff. split.
  - intros [Hlen (c & Hc & Hp)]. exists c. split; [|exact Hp].
    destruct t as [|a [|b t]]; simpl in *; try discriminate.
    unfold str1. congruence.
  - intros (c & -> & Hp). split; [reflexivity|]. exists c. split; [reflexivity|exact Hp].
Qed.

Ltac inv_matches :=
  repeat match goal with
         | H : matches _ (re.Seq _ _) _ _ |- _ => inversion H; clear H; subst
         | H : matches _ (re.Alt _ _) _ _ |- _ => inversion H; clear H; subst
         | H : matches _ (re.Cls _) _ _ |- _ => inversion H; clear H; subst
         | H : matches _ re.Eps _ _ |- _ => inversion H; clear H; subst
         | H : matches _ (re.Behind _ _) _ _ |- _ => inversion H; clear H; subst
         end.

Lemma matches_INT_CONST (s : string) (i j : nat) :
  matches s patterns.INT_CONST i j ->
  (forall n, (i <= n < j)%nat -> char_at is_digit s n)
  /\ ((i < j <= i + 4)%nat
      \/ (j = i + 5)%nat
         /\ re.behind [in_range "0" "3"; in_range "0" "2"; in_range "0" "7";
                       in_range "0" "6"; in_range "0" "7"] s j = true).
Proof.
  intros H.
  unfold patterns.INT_CONST, re.Rep, re.Times, re.UpTo, re.Opt in H.
  inv_matches;
    (split;
     [ intros n Hn;
       repeat match goal with
              | Hg : String.get ?m s = Some ?c |- _ =>
                  lazymatch goal with
                  | Hd : n <> m |- _ => fail
                  | _ => destruct (Nat.eq_dec n m) as [->|?]; [exists c; auto|]
                  end
              end; lia
     | first [left; lia | right; split; [lia|assumption]] ]).
Qed.

Lemma matches_string_char (s : string) (i j : nat) :
  matches s (re.Seq (re.Cls is_dot) (re.Behind false [is_char dquote])) i j
  <-> j = S i /\ char_at is_string_char s i.
Proof.
  assert (Hb : forall c, String.get i s = Some c ->
                         re.behind [is_char dquote] s (S i) = is_char dquote c).
  { intros c Hc. unfold re.behind. simpl. rewrite Nat.sub_0_r, Hc.
    apply andb_true_r. }
  split.
  - intros H. inv_matches. split; [reflexivity|].
    match goal with Hg : String.get i s = Some ?c |- _ =>
      exists c; split; [exact Hg|]; rewrite (Hb c Hg) in *
    end.
    unfold is_string_char.
    match goal with Hq : is_char dquote _ = false |- _ => rewrite Hq end.
    match goal with Hd : is_dot _ = true |- _ => rewrite Hd end. reflexivity.
  - intros [-> (c & Hc & Hp)]. unfold is_string_char in Hp.
    apply andb_true_iff in Hp. destruct Hp as [Hd Hq]. apply negb_true_iff in Hq.
    apply matches_Seq with (j := S i); [econstructor; eauto|].
    constructor. rewrite (Hb c Hc). exact Hq.
Qed.

Lemma matches_STRING_CONST (s : string) (i j : nat) :
  matches s patterns.STRING_CONST i j
  <-> (i + 2 <= j)%nat
      /\ char_at (is_char dquote) s i /\ char_at (is_char dquote) s (j - 1)
      /\ forall n, (i < n < j - 1)%nat -> char_at is_string_char s n.
Proof.
  unfold patterns.STRING_CONST. split.
  - intros H. inversion H; clear H; subst.
    match goal with H : matches _ (re.Cls _) _ _ |- _ =>
      apply matches_Cls_iff in H; destruct H as [-> Hopen] end.
    match goal with H : matches _ (re.Seq _ _) _ _ |- _ => inversion H; clear H; subst end.
    match goal with H : matches _ (re.Cls _) _ _ |- _ =>
      apply matches_Cls_iff in H; destruct H as [-> Hclose] end.
    match goal with H : matches _ (re.Star _) _ _ |- _ =>
      apply (matches_Star_all s _ (char_at is_string_char s)) in H;
      [destruct H as [Hle Hall]|intros ? ? Hm; apply matches_string_char, Hm]
    end.
    simpl. rewrite Nat.sub_0_r.
    split; [lia|]. split; [exact Hopen|]. split; [exact Hclose|].
    intros n Hn. apply Hall. lia.
  - intros (Hlen & Hopen & Hclose & Hall).
    apply matches_Seq with (j := S i); [apply matches_Cls_iff; auto|].
    apply matches_Seq with (j := (j - 1)%nat).
    + replace (j - 1)%nat with (S i + (j - 1 - S i))%nat by lia.
      apply Star_all_matches. intros n Hn. apply matches_string_char.
      split; [reflexivity|]. apply Hall. lia.
    + apply matches_Cls_iff. split; [lia|exact Hclose].
Qed.

Lemma matches_IDENTIFIER (s : string) (i j : nat) :
  matches s patterns.IDENTIFIER i j
  <-> (i < j)%nat /\ char_at is_identifier_start s i
      /\ forall n, (i < n < j)%nat -> char_at is_word s n.
Proof.
  unfold patterns.IDENTIFIER. split.
  - intros H. inversion H; clear H; subst.
    match goal with H : matches _ (re.Cls _) _ _ |- _ =>
      apply matches_Cls_iff in H; destruct H as [-> Hstart] end.
    match goal with H : matches _ (re.Star _) _ _ |- _ =>
      apply (matches_Star_all s _ (char_at is_word s)) in H;
      [destruct H as [Hle Hall]|intros ? ? Hm; apply matches_Cls_iff, Hm]
    end.
    split; [lia|]. split; [exact Hstart|]. intros n Hn. apply Hall. lia.
  - intros (Hlen & Hstart & Hall).
    apply matches_Seq with (j := S i); [apply matches_Cls_iff; auto|].
    replace j with (S i + (j - S i))%nat by lia.
    apply Star_all_matches. intros n Hn. apply matches_Cls_iff.
    split; [reflexivity|]. apply Hall. lia.
Qed.

(** ** The same for whole strings *)

Lemma char_at_head (p : ascii -> bool) (c : ascii) (rest : string) :
  char_at p (String c rest) 0 <-> p c = true.
Proof.
  unfold char_at. simpl. split.
  - intros (c' & Hc & Hp). congruence.
  - intros Hp. eauto.
Qed.

Lemma chars_at_tail (p : ascii -> bool) (c : ascii) (rest : string) :
  (forall n, (0 < n < S (String.length rest))%nat -> char_at p (String c rest) n)
  <-> all_chars p rest = true.
Proof.
  rewrite all_chars_get. unfold char_at. split.
  - intros H n a Hn. pose proof (get_Some_lt _ _ _ Hn) as Hlt.
    destruct (H (S n) ltac:(lia)) as (a' & Ha' & Hp). simpl in Ha'. congruence.
  - intros H [|n] Hn; [lia|]. simpl.
    destruct (get_lt_Some rest n ltac:(lia)) as (a & Ha). eauto.
Qed.

Lemma fullmatch_IDENTIFIER (t : string) :
  re.fullmatch patterns.IDENTIFIER t = true
  <-> exists c rest, t = String c rest /\ is_identifier_start c = true
                     /\ all_chars is_word rest = true.
Proof.
  rewrite fullmatch_matches, matches_IDENTIFIER. split.
  - intros (Hlen & Hstart & Hall).
    destruct t as [|c rest]; [simpl in Hlen; lia|].
    exists c, rest. split; [reflexivity|].
    split; [apply (char_at_head _ c rest), Hstart|apply (chars_at_tail _ c), Hall].
  - intros (c & rest & -> & Hstart & Hall). simpl String.length.
    split; [lia|]. split; [apply char_at_head, Hstart|apply chars_at_tail, Hall].
Qed.

Lemma length_quoted (body : string) :
  String.length (quoted body) = S (S (String.length body)).
Proof.
  unfold quoted, str1. rewrite !length_append. simpl. lia.
Qed.

Lemma get_quoted (body : string) (n : nat) :
  String.get n (quoted body)
  = if (n =? 0)%nat then Some dquote
    else if (n <=? String.length body)%nat then String.get (n - 1) body
    else if (n =? S (String.length body))%nat then Some dquote
    else None.
Proof.
  unfold quoted, str1. destruct n as [|n]; [reflexivity|].
  change (String.get (S n) (String dquote EmptyString ++ body ++ String dquote EmptyString))
    with (String.get n (body ++ String dquote EmptyString)).
  simpl Nat.eqb at 1. cbv iota. simpl Nat.sub. rewrite Nat.sub_0_r.
  destruct (Nat.leb_spec (S n) (String.length body)) as [Hn|Hn].
  - symmetry. apply String.append_correct1. lia.
  - destruct (Nat.eqb_spec (S n) (S (String.length body))) as [Heq|Hne].
    + assert (n = String.length body) as -> by lia.
      pose proof (String.append_correct2 body (String dquote EmptyString) 0) as E.
      simpl in E. symmetry. exact E.
    + apply get_ge_None. rewrite length_append. simpl. lia.
Qed.

Lemma quoted_of_positions (t : string) :
  (2 <= String.length t)%nat ->
  String.get 0 t = Some dquote ->
  String.get (String.length t - 1) t = Some dquote ->
  t = quoted (String.substring 1 (String.length t - 2) t).
Proof.
  intros Hlen H0 Hlast.
  assert (Hl : String.length (String.substring 1 (String.length t - 2) t)
               = (String.length t - 2)%nat) by (apply length_substring; lia).
  apply get_ext.
  - rewrite length_quoted, Hl. lia.
  - intros n Hn. rewrite get_quoted, Hl.
    destruct (Nat.eqb_spec n 0) as [->|Hn0]; [exact H0|].
    destruct (Nat.leb_spec n (String.length t - 2)) as [Hmid|Hmid].
    + rewrite String.substring_correct1 by lia. f_equal. lia.
    + replace n with (String.length t - 1)%nat by lia.
      destruct (Nat.eqb_spec (String.length t - 1) (S (String.length t - 2))); [|lia].
      exact Hlast.
Qed.

Lemma fullmatch_STRING_CONST (t : string) :
  re.fullmatch patterns.STRING_CONST t = true
  <-> exists body, t = quoted body /\ all_chars is_string_char body = true.
Proof.
  rewrite fullmatch_matches, matches_STRING_CONST. split.
  - intros (Hlen & (c0 & H0 & Hc0) & (c1 & H1 & Hc1) & Hall).
    apply is_char_eq in Hc0, Hc1. subst c0 c1. simpl in Hlen.
    exists (String.substring 1 (String.length t - 2) t).
    split; [apply quoted_of_positions; auto|].
    apply all_chars_get. intros n c Hn.
    pose proof (get_Some_lt _ _ _ Hn) as Hlt. rewrite length_substring in Hlt by lia.
    rewrite String.substring_correct1 in Hn by lia.
    destruct (Hall (n + 1)%nat ltac:(lia)) as (c' & Hc' & Hp). congruence.
  - intros (body & -> & Hall). rewrite length_quoted.
    rewrite all_chars_get in Hall. unfold char_at.
    split; [lia|]. split; [|split].
    + exists dquote. split; [reflexivity|apply is_char_eq; reflexivity].
    + exists dquote. split; [|apply is_char_eq; reflexivity].
      replace (S (S (String.length body)) - 1)%nat with (S (String.length body)) by lia.
      rewrite get_quoted.
      destruct (Nat.eqb_spec (S (String.length body)) 0); [lia|].
      destruct (Nat.leb_spec (S (String.length body)) (String.length body)); [lia|].
      rewrite Nat.eqb_refl. reflexivity.
    + intros n Hn. rewrite get_quoted.
      destruct (Nat.eqb_spec n 0); [lia|].
      destruct (Nat.leb_spec n (String.length body)); [|lia].
      destruct (get_lt_Some body (n - 1) ltac:(lia)) as (c & Hc).
      exists c. split; [exact Hc|apply (Hall _ _ Hc)].
Qed.

Lemma fullmatch_INT_CONST (t : string) :
  re.fullmatch patterns.INT_CONST t = true ->
  all_chars is_digit t = true
  /\ ((1 <= String.length t <= 4)%nat
      \/ String.length t = 5%nat
         /\ re.behind [in_range "0" "3"; in_range "0" "2"; in_range "0" "7";
                       in_range "0" "6"; in_range "0" "7"] t 5 = true).
Proof.
  rewrite fullmatch_matches. intros H. apply matches_INT_CONST in H.
  destruct H as [Hall Hlen]. split.
  - apply all_chars_get. intros n c Hn. pose proof (get_Some_lt _ _ _ Hn) as Hlt.
    destruct (Hall n ltac:(lia)) as (c' & Hc' & Hp). congruence.
  - destruct Hlen as [Hlen|[Hlen Hb]]; [left; lia|right].
    simpl in Hlen. rewrite Hlen in Hb. auto.
Qed.

(** ** The cascade of [token_type] *)

Lemma classify_cascade (t : string) :
  (classify t = Some token_types.KEYWORD <-> re.fullmatch patterns.KEYWORD t = true)
  /\ (classify t = Some token_types.SYMBOL
      <-> re.fullmatch patterns.KEYWORD t = false /\ re.fullmatch patterns.SYMBOL t = true)
  /\ (classify t = Some token_types.INT_CONST
      <-> re.fullmatch patterns.KEYWORD t = false /\ re.fullmatch patterns.SYMBOL t = false
          /\ re.fullmatch patterns.INT_CONST t = true)
  /\ (classify t = Some token_types.STRING_CONST
      <-> re.fullmatch patterns.KEYWORD t = false /\ re.fullmatch patterns.SYMBOL t = false
          /\ re.fullmatch patterns.INT_CONST t = false
          /\ re.fullmatch patterns.STRING_CONST t = true)
  /\ (classify t = Some token_types.IDENTIFIER
      <-> re.fullmatch patterns.KEYWORD t = false /\ re.fullmatch patterns.SYMBOL t = false
          /\ re.fullmatch patterns.INT_CONST t = false
          /\ re.fullmatch patterns.STRING_CONST t = false
          /\ re.fullmatch patterns.IDENTIFIER t = true)
  /\ (classify t = None
      <-> re.fullmatch patterns.KEYWORD t = false /\ re.fullmatch patterns.SYMBOL t = false
          /\ re.fullmatch patterns.INT_CONST t = false
          /\ re.fullmatch patterns.STRING_CONST t = false
          /\ re.fullmatch patterns.IDENTIFIER t = false).
Proof.
  unfold classify.
  destruct (re.fullmatch patterns.KEYWORD t), (re.fullmatch patterns.SYMBOL t),
    (re.fullmatch patterns.INT_CONST t), (re.fullmatch patterns.STRING_CONST t),
    (re.fullmatch patterns.IDENTIFIER t);
    repeat split; intros; try discriminate; try tauto;
    repeat match goal with H : _ /\ _ |- _ => destruct H end; discriminate.
Qed.

Lemma not_fullmatch (r : re.regex) (t : string) :
  ~ re.fullmatch r t = true -> re.fullmatch r t = false.
Proof. destruct (re.fullmatch r t); congruence. Qed.

(** ** What each kind of token looks like *)

Lemma digit_value (c : ascii) :
  is_digit c = true -> 0 <= Z.of_nat (code c - 48) <= 9.
Proof.
  unfold is_digit. rewrite in_range_spec.
  change (code "0") with 48%nat. change (code "9") with 57%nat. lia.
Qed.

Lemma digit_not_identifier_start (c : ascii) :
  is_digit c = true -> is_identifier_start c = false.
Proof.
  unfold is_digit, is_identifier_start. rewrite in_range_spec.
  change (code "0") with 48%nat. change (code "9") with 57%nat. intros H.
  apply orb_false_iff. split.
  - apply not_true_is_false. rewrite in_range_spec.
    change (code "A") with 65%nat. lia.
  - apply not_true_is_false. rewrite is_char_eq. intros ->.
    change (code "_") with 95%nat in H. lia.
Qed.

Lemma symbol_identifier_start (c : ascii) :
  one_of "{}()[].,;+-*/&|<>=~" c = true -> is_identifier_start c = true ->
  c = "["%char \/ c = "]"%char.
Proof.
  intros H Hs. cbn [one_of] in H.
  repeat match type of H with
         | (Ascii.eqb ?a c || _) = true =>
             apply orb_true_iff in H; destruct H as [H|H];
             [apply Ascii.eqb_eq in H; subst c; vm_compute in Hs; first [discriminate Hs|auto]|]
         end.
  discriminate H.
Qed.

Lemma drop_last_snoc (s : string) (c : ascii) : drop_last (s ++ str1 c) = s.
Proof.
  induction s as [|a s IH]; [reflexivity|].
  change (String a s ++ str1 c) with (String a (s ++ str1 c)).
  assert (Hcons : forall x, x <> "" -> drop_last (String a x) = String a (drop_last x)).
  { intros [|b x] Hx; [congruence|reflexivity]. }
  rewrite Hcons, IH; [reflexivity|]. destruct s; discriminate.
Qed.

Lemma slice_1_m1_quoted (body : string) : slice_1_m1 (quoted body) = body.
Proof. unfold quoted. apply (drop_last_snoc body dquote). Qed.

Lemma keyword_not_single (c : ascii) : ~ In (str1 c) keyword_words.
Proof.
  intros H. apply keyword_first_char in H. destruct H as (a & b & rest & H & _).
  discriminate.
Qed.

(** X4.  [token_type] answers SYMBOL exactly for the one-character
    strings made of one of the nineteen symbol characters, and what
    [symbol] returns for such a token is the token again once the XML
    escaping is undone. *)
Theorem symbols_are_the_nineteen_characters (t : string) :
  (classify t = Some token_types.SYMBOL
   <-> exists c, t = str1 c /\ one_of "{}()[].,;+-*/&|<>=~" c = true)
  /\ (classify t = Some token_types.SYMBOL ->
      exists v, symbol_of t = Ok v /\ xml_unescape v = t).
Proof.
  destruct (classify_cascade t) as (_ & Hs & _). split.
  - rewrite Hs, fullmatch_SYMBOL. split; [tauto|].
    intros (c & -> & Hc). split; [|eauto].
    apply not_fullmatch. rewrite fullmatch_KEYWORD_iff. apply keyword_not_single.
  - intros H. exists (xml_escape t). unfold symbol_of. rewrite H. simpl.
    split; [reflexivity|]. apply xml_unescape_escape. congruence.
Qed.

Lemma symbols_are_the_nineteen_characters_witness :
  classify "<" = Some token_types.SYMBOL
  /\ exists v, symbol_of "<" = Ok v /\ xml_unescape v = "<".
Proof.
  assert (H : classify "<" = Some token_types.SYMBOL).
  { apply (proj1 (symbols_are_the_nineteen_characters "<")).
    exists "<"%char. split; reflexivity. }
  split; [exact H|]. apply (proj2 (symbols_are_the_nineteen_characters "<") H).
Defined.

(** X5.  [token_type] answers IDENTIFIER exactly for the strings that
    start with a character of the range from [A] to [z] or an underscore,
    go on with word characters only, and are neither a keyword nor one of
    the two brackets that lie in that range. *)
Theorem identifiers_are_words_outside_the_keywords (t : string) :
  classify t = Some token_types.IDENTIFIER
  <-> (exists c rest, t = String c rest /\ is_identifier_start c = true
                      /\ all_chars is_word rest = true)
      /\ ~ In t keyword_words /\ t <> "[" /\ t <> "]".
Proof.
  destruct (classify_cascade t) as (_ & _ & _ & _ & Hi & _). rewrite Hi. split.
  - intros (Hk & Hs & _ & _ & Hid). split; [apply fullmatch_IDENTIFIER, Hid|].
    split; [rewrite <- fullmatch_KEYWORD_iff; congruence|].
    split; intros ->; discriminate Hs.
  - intros ((c & rest & -> & Hstart & Hrest) & Hk & Hl & Hr).
    split; [apply not_fullmatch; rewrite fullmatch_KEYWORD_iff; exact Hk|].
    split; [|split; [|split]].
    + apply not_fullmatch. rewrite fullmatch_SYMBOL. intros (c' & Hc' & Hone).
      inversion Hc'; subst.
      destruct (symbol_identifier_start _ Hone Hstart) as [->| ->]; congruence.
    + apply not_fullmatch. intros H. apply fullmatch_INT_CONST in H.
      destruct H as [H _]. simpl in H. apply andb_true_iff in H. destruct H as [H _].
      rewrite (digit_not_identifier_start _ H) in Hstart. discriminate.
    + apply not_fullmatch. rewrite fullmatch_STRING_CONST. intros (body & Hb & _).
      inversion Hb; subst. discriminate Hstart.
    + apply fullmatch_IDENTIFIER. eauto.
Qed.

Lemma identifiers_are_words_outside_the_keywords_witness :
  classify "classes" = Some token_types.IDENTIFIER.
Proof.
  apply (identifiers_are_words_outside_the_keywords "classes").
  split; [exists "c"%char, "lasses"; repeat split; reflexivity|].
  split; [|split; discriminate].
  unfold keyword_words. simpl. intros H.
  repeat (destruct H as [H|H]; [discriminate H|]). exact H.
Defined.

Lemma classify_quoted (body : string) :
  all_chars is_string_char body = true ->
  classify (quoted body) = Some token_types.STRING_CONST.
Proof.
  intros Hall.
  destruct (classify_cascade (quoted body)) as (_ & _ & _ & Hs & _). apply Hs.
  split; [|split; [|split]].
  - apply not_fullmatch. rewrite fullmatch_KEYWORD_iff. intros H.
    apply keyword_first_char in H. destruct H as (a & b & rest & H & Ha).
    inversion H; subst. discriminate Ha.
  - apply not_fullmatch. rewrite fullmatch_SYMBOL. intros (c & H & _).
    apply (f_equal String.length) in H. rewrite length_quoted in H. discriminate.
  - apply not_fullmatch. intros H. apply fullmatch_INT_CONST in H.
    destruct H as [H _]. unfold quoted in H. simpl in H. discriminate.
  - apply fullmatch_STRING_CONST. eauto.
Qed.

(** X6.  [token_type] answers STRING_CONST exactly for a double quote,
    any characters other than a double quote and a line feed, and a double
    quote; [string_val] then returns the characters between the quotes. *)
Theorem string_constants_are_quoted_bodies :
  (forall t, classify t = Some token_types.STRING_CONST
             <-> exists body, t = quoted body /\ all_chars is_string_char body = true)
  /\ (forall body, all_chars is_string_char body = true ->
                   string_val_of (quoted body) = Ok body).
Proof.
  split.
  - intros t. split.
    + intros H. destruct (classify_cascade t) as (_ & _ & _ & Hs & _).
      apply Hs in H. apply fullmatch_STRING_CONST. tauto.
    + intros (body & -> & Hall). apply classify_quoted, Hall.
  - intros body Hall. unfold string_val_of.
    rewrite (classify_quoted body Hall), slice_1_m1_quoted. reflexivity.
Qed.

Lemma string_constants_are_quoted_bodies_witness :
  string_val_of (quoted "te;s.<t") = Ok "te;s.<t".
Proof.
  apply (proj2 string_constants_are_quoted_bodies). reflexivity.
Defined.

Ltac digits_of H :=
  simpl in H;
  repeat match type of H with
         | (_ && _) = true => let Hd := fresh "Hd" in
                              apply andb_true_iff in H; destruct H as [Hd H]
         end.

Lemma integer_range_digits (t : string) :
  classify t = Some token_types.INT_CONST -> all_chars is_digit t = true.
Proof.
  intros H. destruct (classify_cascade t) as (_ & _ & Hi & _).
  apply Hi in H. destruct H as (_ & _ & H). apply fullmatch_INT_CONST in H. tauto.
Qed.

(** X3.  A token that [token_type] takes for an integer constant is made
    of digits, and [int_val] returns for it a number from 0 to 32767: it
    never fails to convert the token. *)
Theorem integer_constants_are_in_range (t : string) :
  classify t = Some token_types.INT_CONST ->
  exists n, int_val_of t = Ok n /\ 0 <= n <= 32767 /\ all_chars is_digit t = true.
Proof.
  intros H. unfold int_val_of. rewrite H. simpl.
  destruct (classify_cascade t) as (_ & _ & Hi & _).
  apply Hi in H. destruct H as (_ & _ & H). apply fullmatch_INT_CONST in H.
  destruct H as [Hall Hlen].
  assert (Hint : exists n, int t = Some n /\ 0 <= n <= 32767).
  { destruct Hlen as [Hlen|[Hlen Hb]].
    - destruct t as [|a [|b [|c [|d [|e t]]]]]; simpl in Hlen; try lia;
        digits_of Hall; unfold int; simpl;
        repeat match goal with
               | Hd : is_digit ?x = true |- _ =>
                   rewrite Hd; apply digit_value in Hd
               end;
        eexists; (split; [reflexivity|lia]).
    - destruct t as [|a [|b [|c [|d [|e [|f t]]]]]]; simpl in Hlen; try lia.
      digits_of Hall. unfold re.behind in Hb. digits_of Hb.
      repeat match goal with
             | Hr : in_range _ _ _ = true |- _ =>
                 apply in_range_spec in Hr; unfold code in Hr;
                 repeat match type of Hr with
                        | context [nat_of_ascii (Ascii ?b0 ?b1 ?b2 ?b3 ?b4 ?b5 ?b6 ?b7)] =>
                            let v := eval vm_compute in
                                       (nat_of_ascii (Ascii b0 b1 b2 b3 b4 b5 b6 b7)) in
                            change (nat_of_ascii (Ascii b0 b1 b2 b3 b4 b5 b6 b7)) with v in Hr
                        end
             end.
      unfold int. simpl.
      repeat match goal with
             | Hd : is_digit ?x = true |- _ =>
                 rewrite Hd; apply digit_value in Hd
             end.
      eexists. split; [reflexivity|]. unfold code in *. lia. }
  destruct Hint as (n & Hn & Hr). exists n. rewrite Hn. auto.
Qed.

Lemma integer_constants_are_in_range_witness :
  classify "32767" = Some token_types.INT_CONST
  /\ exists n, int_val_of "32767" = Ok n /\ 0 <= n <= 32767
               /\ all_chars is_digit "32767" = true.
Proof.
  split; [reflexivity|]. apply (integer_constants_are_in_range "32767"). reflexivity.
Defined.

(** ** The lexemes of a line *)

(** Every match that the scan yields is the text between the two ends of
    a match of the pattern. *)
Lemma scan_matched (r : re.regex) (s : string) :
  forall fuel i m,
    In m (re.matched (re.scan fuel r s i)) ->
    exists i' j', re.match_at r s i' = Some j' /\ (i' < j')%nat
                  /\ (i' < String.length s)%nat
                  /\ m = String.substring i' (j' - i') s.
Proof.
  induction fuel as [|fuel IH]; intros i m H; simpl in H; [destruct H|].
  destruct (String.get i s) as [c|] eqn:Hget; [|destruct H].
  apply get_Some_lt in Hget.
  destruct (re.match_at r s i) as [j|] eqn:Hm; [|apply (IH _ _ H)].
  destruct (Nat.ltb_spec i j) as [Hij|Hij]; [|apply (IH _ _ H)].
  destruct H as [<-|H]; [|apply (IH _ _ H)].
  exists i, j. auto.
Qed.

Lemma lexeme_is_a_match (lines : list string) (t : string) :
  In t (lexemes lines) ->
  exists line i j,
    In line (next_clean_line lines)
    /\ re.match_at patterns.ALL_TERMINATORS line i = Some j
    /\ (i < j <= String.length line)%nat
    /\ t = String.substring i (j - i) line.
Proof.
  unfold lexemes. intros H. apply in_flat_map in H. destruct H as (line & Hline & H).
  apply scan_matched in H. destruct H as (i & j & Hm & Hij & Hi & ->).
  exists line, i, j. split; [exact Hline|]. split; [exact Hm|]. split; [|reflexivity].
  assert (Hle : (i <= String.length line)%nat) by lia.
  pose proof (match_at_bounds _ _ _ _ ALL_TERMINATORS_nonnull Hle Hm). lia.
Qed.

Section piece.
Variables (s : string) (i j : nat).
Hypothesis Hij : (i <= j <= String.length s)%nat.

Lemma length_piece : String.length (String.substring i (j - i) s) = (j - i)%nat.
Proof. apply length_substring. lia. Qed.

Lemma get_piece (n : nat) :
  (n < j - i)%nat -> String.get n (String.substring i (j - i) s) = String.get (i + n) s.
Proof.
  intros Hn. rewrite String.substring_correct1 by exact Hn. f_equal. lia.
Qed.

Lemma char_at_piece (p : ascii -> bool) (n : nat) :
  (n < j - i)%nat ->
  char_at p s (i + n) -> char_at p (String.substring i (j - i) s) n.
Proof.
  intros Hn (c & Hc & Hp). exists c. rewrite get_piece by exact Hn. auto.
Qed.

End piece.

Lemma behind_from_ext (ps : list (ascii -> bool)) (s t : string) :
  forall a b,
    (forall k, (k < length ps)%nat -> String.get (a + k) s = String.get (b + k) t) ->
    re.behind_from ps s a = re.behind_from ps t b.
Proof.
  induction ps as [|p ps IH]; intros a b H; simpl; [reflexivity|].
  pose proof (H 0%nat ltac:(simpl; lia)) as H0. rewrite !Nat.add_0_r in H0. rewrite H0.
  destruct (String.get b t); [|reflexivity]. f_equal.
  apply IH. intros k Hk. specialize (H (S k) ltac:(simpl; lia)).
  replace (a + S k)%nat with (S a + k)%nat in H by lia.
  replace (b + S k)%nat with (S b + k)%nat in H by lia. exact H.
Qed.

Lemma behind_window (ps : list (ascii -> bool)) (s t : string) (a n : nat) :
  n = length ps ->
  (forall k, (k < n)%nat -> String.get (a + k) s = String.get k t) ->
  re.behind ps s (a + n) = re.behind ps t n.
Proof.
  intros -> H. unfold re.behind.
  destruct (Nat.leb_spec (length ps) (a + length ps)); [|lia].
  rewrite Nat.leb_refl. simpl andb.
  replace (a + length ps - length ps)%nat with a by lia. rewrite Nat.sub_diag.
  apply behind_from_ext. intros k Hk. rewrite H by exact Hk. reflexivity.
Qed.

Lemma INT_CONST_matches (s : string) (i j : nat) :
  (forall n, (i <= n < j)%nat -> char_at is_digit s n) ->
  (i < j <= i + 4)%nat
  \/ (j = i + 5)%nat
     /\ re.behind [in_range "0" "3"; in_range "0" "2"; in_range "0" "7";
                   in_range "0" "6"; in_range "0" "7"] s j = true ->
  matches s patterns.INT_CONST i j.
Proof.
  intros Hall Hlen.
  assert (Hd : forall n, (i <= n < j)%nat -> matches s (re.Cls is_digit) n (S n)).
  { intros n Hn. apply matches_Cls_iff. split; [reflexivity|apply Hall, Hn]. }
  unfold patterns.INT_CONST, re.Rep, re.Times, re.UpTo, re.Opt.
  destruct Hlen as [Hlen|[-> Hb]].
  - apply matches_Alt_l.
    assert (j = S i \/ j = S (S i) \/ j = S (S (S i)) \/ j = S (S (S (S i)))) as Hj by lia.
    destruct Hj as [->|[->|[->| ->]]].
    + eapply matches_Seq; [apply Hd; lia|]. apply matches_Alt_r. constructor.
    + eapply matches_Seq; [apply Hd; lia|]. apply matches_Alt_l.
      eapply matches_Seq; [apply Hd; lia|]. apply matches_Alt_r. constructor.
    + eapply matches_Seq; [apply Hd; lia|]. apply matches_Alt_l.
      eapply matches_Seq; [apply Hd; lia|]. apply matches_Alt_l.
      eapply matches_Seq; [apply Hd; lia|]. apply matches_Alt_r. constructor.
    + eapply matches_Seq; [apply Hd; lia|]. apply matches_Alt_l.
      eapply matches_Seq; [apply Hd; lia|]. apply matches_Alt_l.
      eapply matches_Seq; [apply Hd; lia|]. apply matches_Alt_l.
      eapply matches_Seq; [apply Hd; lia|]. constructor.
  - apply matches_Alt_r.
    replace (i + 5)%nat with (S (S (S (S (S i))))) in * by lia.
    eapply matches_Seq; [|constructor; exact Hb].
    repeat (eapply matches_Seq; [apply Hd; lia|]). apply Hd. lia.
Qed.

(** The text of a match of the combined pattern is matched from end to
    end by one of the five patterns. *)
Lemma piece_fullmatch (s : string) (i j : nat) :
  (i < j <= String.length s)%nat ->
  matches s patterns.ALL_TERMINATORS i j ->
  exists r, In r [patterns.KEYWORD; patterns.SYMBOL; patterns.INT_CONST;
                  patterns.STRING_CONST; patterns.IDENTIFIER]
            /\ re.fullmatch r (String.substring i (j - i) s) = true.
Proof.
  intros Hij H. unfold patterns.ALL_TERMINATORS in H. apply matches_Alts in H.
  destruct H as (r & Hin & Hm). exists r. split; [exact Hin|].
  assert (Hb : (i <= j <= String.length s)%nat) by lia.
  pose proof (length_piece s i j Hb) as Hlen.
  simpl in Hin. destruct Hin as [<-|[<-|[<-|[<-|[<-|[]]]]]].
  - apply fullmatch_KEYWORD_iff. unfold patterns.KEYWORD in Hm.
    apply matches_Alts in Hm. destruct Hm as (r & Hin & Hm).
    apply in_map_iff in Hin. destruct Hin as (w & <- & Hw).
    apply matches_Lit in Hm. destruct Hm as [-> Hget].
    replace (String.substring i (i + String.length w - i) s) with w; [exact Hw|].
    symmetry. apply get_ext; [rewrite Hlen; lia|].
    rewrite Hlen. intros n Hn. rewrite get_piece by lia. apply Hget. lia.
  - apply fullmatch_SYMBOL. unfold patterns.SYMBOL in Hm.
    apply matches_Cls_iff in Hm. destruct Hm as [-> (c & Hc & Hp)].
    exists c. split; [|exact Hp].
    apply get_ext; [rewrite Hlen; simpl; lia|].
    rewrite Hlen. intros n Hn. rewrite get_piece by lia.
    replace n with 0%nat by lia. rewrite Nat.add_0_r. exact Hc.
  - apply fullmatch_matches. rewrite Hlen. apply matches_INT_CONST in Hm.
    destruct Hm as [Hall Hl]. apply INT_CONST_matches.
    + intros n Hn. apply char_at_piece; [exact Hb|lia|apply Hall; lia].
    + destruct Hl as [Hl|[-> Hbh]]; [left; lia|right].
      split; [lia|]. etransitivity; [|exact Hbh]. symmetry.
      replace (i + 5 - i)%nat with 5%nat by lia.
      apply (behind_window _ s _ i 5); [reflexivity|]. intros k Hk.
      pose proof (get_piece s i (i + 5) Hb k) as Hg.
      replace (i + 5 - i)%nat with 5%nat in Hg by lia. symmetry. apply Hg. lia.
  - apply fullmatch_matches. rewrite Hlen. apply matches_STRING_CONST in Hm.
    destruct Hm as (Hl & Hopen & Hclose & Hall). apply matches_STRING_CONST.
    split; [lia|]. split; [|split].
    + apply char_at_piece; [exact Hb|lia|]. rewrite Nat.add_0_r. exact Hopen.
    + apply char_at_piece; [exact Hb|lia|].
      replace (i + (j - i - 1))%nat with (j - 1)%nat by lia. exact Hclose.
    + intros n Hn. apply char_at_piece; [exact Hb|lia|]. apply Hall. lia.
  - apply fullmatch_matches. rewrite Hlen. apply matches_IDENTIFIER in Hm.
    destruct Hm as (Hl & Hstart & Hall). apply matches_IDENTIFIER.
    split; [lia|]. split.
    + apply char_at_piece; [exact Hb|lia|]. rewrite Nat.add_0_r. exact Hstart.
    + intros n Hn. apply char_at_piece; [exact Hb|lia|]. apply Hall. lia.
Qed.

Lemma classify_of_fullmatch (t : string) (r : re.regex) :
  In r [patterns.KEYWORD; patterns.SYMBOL; patterns.INT_CONST;
        patterns.STRING_CONST; patterns.IDENTIFIER] ->
  re.fullmatch r t = true -> classify t <> None.
Proof.
  intros Hin H Hnone.
  destruct (classify_cascade t) as (_ & _ & _ & _ & _ & Hn).
  apply Hn in Hnone. destruct Hnone as (H1 & H2 & H3 & H4 & H5).
  simpl in Hin. destruct Hin as [<-|[<-|[<-|[<-|[<-|[]]]]]]; congruence.
Qed.

Lemma leaf_name_of_classified (t : string) :
  classify t <> None -> In (fst (leaf_of_lexeme t)) leaf_names.
Proof.
  intros H. unfold leaf_of_lexeme, leaf_names.
  destruct (classify_cascade t) as (Hk & Hs & Hi & Hc & Hd & Hn).
  unfold classify in *.
  destruct (re.fullmatch patterns.KEYWORD t); [simpl; tauto|].
  destruct (re.fullmatch patterns.SYMBOL t); [simpl; tauto|].
  destruct (re.fullmatch patterns.INT_CONST t); [simpl; tauto|].
  destruct (re.fullmatch patterns.STRING_CONST t); [simpl; tauto|].
  destruct (re.fullmatch patterns.IDENTIFIER t); [simpl; tauto|].
  congruence.
Qed.

(** X7.  Every lexeme that the tokenizer cuts out of a unit is one that
    [token_type] classifies: it never answers [None] for a token that
    [advance] delivers, and the leaf written for the token carries one of
    the five element names. *)
Theorem every_lexeme_is_classified (lines : list string) (t : string) :
  In t (lexemes lines) ->
  classify t <> None /\ In (fst (leaf_of_lexeme t)) leaf_names.
Proof.
  intros H. apply lexeme_is_a_match in H.
  destruct H as (line & i & j & _ & Hm & Hij & ->).
  apply match_at_matches in Hm.
  destruct (piece_fullmatch line i j Hij Hm) as (r & Hin & Hr).
  pose proof (classify_of_fullmatch _ r Hin Hr) as Hc.
  split; [exact Hc|apply leaf_name_of_classified, Hc].
Qed.

Lemma every_lexeme_is_classified_witness :
  In "x" (lexemes ["let # x $ = 1 ;"])
  /\ classify "x" <> None /\ In (fst (leaf_of_lexeme "x")) leaf_names.
Proof.
  assert (H : In "x" (lexemes ["let # x $ = 1 ;"])) by (vm_compute; tauto).
  split; [exact H|]. apply (every_lexeme_is_classified ["let # x $ = 1 ;"] "x" H).
Defined.

(** ** Which alternative of the combined pattern wins *)

Lemma rmatch_Alt {A} (r1 r2 : re.regex) (s : string) (i : nat) (k : nat -> option A) :
  re.rmatch (re.Alt r1 r2) s i k
  = match re.rmatch r1 s i k with
    | Some x => Some x
    | None => re.rmatch r2 s i k
    end.
Proof. reflexivity. Qed.

Lemma ALL_TERMINATORS_alternatives :
  patterns.ALL_TERMINATORS
  = re.Alt patterns.KEYWORD
      (re.Alt patterns.SYMBOL
         (re.Alt patterns.INT_CONST (re.Alt patterns.STRING_CONST patterns.IDENTIFIER))).
Proof. reflexivity. Qed.

Lemma matches_KEYWORD (s : string) (i j : nat) :
  matches s patterns.KEYWORD i j
  <-> exists w, In w keyword_words /\ j = (i + String.length w)%nat
                /\ forall n, (n < String.length w)%nat ->
                             String.get (i + n) s = String.get n w.
Proof.
  unfold patterns.KEYWORD. rewrite matches_Alts. split.
  - intros (r & Hin & Hm). apply in_map_iff in Hin. destruct Hin as (w & <- & Hw).
    apply matches_Lit in Hm. exists w. tauto.
  - intros (w & Hw & Hj & Hget). exists (re.Lit w).
    split; [apply in_map, Hw|]. apply matches_Lit. auto.
Qed.

Lemma agree_prefix (w : string) :
  forall w',
    (forall n, (n < String.length w)%nat -> (n < String.length w')%nat ->
               String.get n w = String.get n w') ->
    String.prefix w w' = true \/ String.prefix w' w = true.
Proof.
  induction w as [|a w IH]; intros w' H; [left; destruct w'; reflexivity|].
  destruct w' as [|b w']; [right; reflexivity|].
  pose proof (H 0%nat ltac:(simpl; lia) ltac:(simpl; lia)) as H0.
  simpl in H0. inversion H0; subst b.
  destruct (IH w') as [Hp|Hp].
  - intros n Hn Hn'. apply (H (S n)); simpl; lia.
  - left. simpl. destruct (ascii_dec a a); [exact Hp|congruence].
  - right. simpl. destruct (ascii_dec a a); [exact Hp|congruence].
Qed.

(** No keyword begins another. *)
Lemma keyword_prefix_free (w w' : string) :
  In w keyword_words -> In w' keyword_words -> String.prefix w w' = true -> w = w'.
Proof.
  assert (H : forallb (fun w => forallb (fun w' =>
                implb (String.prefix w w') (String.eqb w w')) keyword_words)
                keyword_words = true) by (vm_compute; reflexivity).
  intros Hw Hw' Hp.
  rewrite forallb_forall in H. specialize (H w Hw).
  rewrite forallb_forall in H. specialize (H w' Hw').
  rewrite Hp in H. simpl in H. apply String.eqb_eq, H.
Qed.

Lemma get_middle (pre w rest : string) (n : nat) :
  (n < String.length w)%nat ->
  String.get (String.length pre + n) (pre ++ w ++ rest) = String.get n w.
Proof.
  intros Hn. rewrite (Nat.add_comm (String.length pre) n).
  rewrite <- String.append_correct2. symmetry. apply String.append_correct1, Hn.
Qed.

Lemma substring_middle (pre w rest : string) :
  String.substring (String.length pre) (String.length w) (pre ++ w ++ rest) = w.
Proof.
  assert (Hlen : String.length (String.substring (String.length pre) (String.length w)
                                  (pre ++ w ++ rest)) = String.length w).
  { apply length_substring. rewrite !length_append. lia. }
  apply get_ext; [exact Hlen|]. rewrite Hlen. intros n Hn.
  rewrite String.substring_correct1 by exact Hn.
  rewrite (Nat.add_comm n). apply get_middle, Hn.
Qed.

(** X8.  Wherever the scan of a line stands at the letters of a keyword,
    it cuts the keyword off as a lexeme of its own, whatever follows: a
    longer word that begins with a keyword is split behind the keyword. *)
Theorem keywords_are_cut_out_of_longer_words (pre w rest : string) :
  In w keyword_words ->
  re.match_at patterns.ALL_TERMINATORS (pre ++ w ++ rest) (String.length pre)
  = Some (String.length pre + String.length w)%nat
  /\ lexemes_from (pre ++ w ++ rest) (String.length pre)
     = w :: lexemes_from (pre ++ w ++ rest) (String.length pre + String.length w).
Proof.
  intros Hw.
  set (line := pre ++ w ++ rest). set (i := String.length pre).
  assert (Hi : (i <= String.length line)%nat).
  { unfold line, i. rewrite length_append. lia. }
  assert (Hm : matches line patterns.KEYWORD i (i + String.length w)).
  { apply matches_KEYWORD. exists w. split; [exact Hw|]. split; [reflexivity|].
    intros n Hn. apply get_middle, Hn. }
  destruct (matches_match_at _ _ _ _ Hm Hi) as (j & Hj).
  assert (j = (i + String.length w)%nat) as ->.
  { apply match_at_matches, matches_KEYWORD in Hj.
    destruct Hj as (w' & Hw' & -> & Hget). f_equal. f_equal.
    destruct (agree_prefix w w') as [Hp|Hp].
    - intros n Hn Hn'. rewrite <- (Hget n Hn'). symmetry. apply get_middle, Hn.
    - symmetry. apply keyword_prefix_free; assumption.
    - apply keyword_prefix_free; assumption. }
  assert (Hall : re.match_at patterns.ALL_TERMINATORS line i = Some (i + String.length w)%nat).
  { unfold re.match_at in *. rewrite ALL_TERMINATORS_alternatives, rmatch_Alt, Hj.
    reflexivity. }
  split; [exact Hall|].
  destruct (lexemes_from_match line i _ Hi Hall) as [_ ->]. f_equal.
  replace (i + String.length w - i)%nat with (String.length w) by lia.
  apply substring_middle.
Qed.

Lemma keywords_are_cut_out_of_longer_words_witness :
  In "do" keyword_words
  /\ re.match_at patterns.ALL_TERMINATORS ("var " ++ "do" ++ "uble x;") 4 = Some 6%nat
  /\ lexemes_from ("var " ++ "do" ++ "uble x;") 4
     = "do" :: lexemes_from ("var " ++ "do" ++ "uble x;") 6.
Proof.
  assert (H : In "do" keyword_words) by (vm_compute; tauto).
  split; [exact H|]. apply (keywords_are_cut_out_of_longer_words "var " "do" "uble x;" H).
Defined.

(** ** Runs of digits *)

Lemma digit_not_lower (c : ascii) : is_digit c = true -> in_range "a" "z" c = false.
Proof.
  unfold is_digit. rewrite in_range_spec.
  change (code "0") with 48%nat. change (code "9") with 57%nat. intros H.
  apply not_true_is_false. rewrite in_range_spec. change (code "a") with 97%nat. lia.
Qed.

Lemma digit_not_symbol (c : ascii) :
  is_digit c = true -> one_of "{}()[].,;+-*/&|<>=~" c = false.
Proof.
  intros Hd. apply not_true_is_false. intros H. cbn [one_of] in H.
  repeat match type of H with
         | (Ascii.eqb ?a c || _) = true =>
             apply orb_true_iff in H; destruct H as [H|H];
             [apply Ascii.eqb_eq in H; subst c; vm_compute in Hd; discriminate Hd|]
         end.
  discriminate H.
Qed.

(** At a digit the combined pattern matches digits only, four at most. *)
Lemma match_at_digit (s : string) (i j : nat) (c : ascii) :
  String.get i s = Some c -> is_digit c = true ->
  re.match_at patterns.ALL_TERMINATORS s i = Some j -> (i < j <= i + 4)%nat.
Proof.
  intros Hc Hd Hm. pose proof (get_Some_lt _ _ _ Hc) as Hlt.
  unfold re.match_at in Hm. rewrite ALL_TERMINATORS_alternatives in Hm.
  rewrite rmatch_Alt, rmatch_refused in Hm.
  2:{ intros j' Hk. exfalso. apply matches_KEYWORD in Hk.
      destruct Hk as (w & Hw & _ & Hget).
      apply keyword_first_char in Hw. destruct Hw as (a & b & rest & -> & Ha).
      specialize (Hget 0%nat ltac:(simpl; lia)). rewrite Nat.add_0_r, Hc in Hget.
      simpl in Hget. inversion Hget; subst a.
      rewrite (digit_not_lower _ Hd) in Ha. discriminate. }
  rewrite rmatch_Alt, rmatch_refused in Hm.
  2:{ intros j' Hk. exfalso. unfold patterns.SYMBOL in Hk.
      apply matches_Cls_iff in Hk. destruct Hk as [_ (c' & Hc' & Hp)].
      rewrite Hc in Hc'. inversion Hc'; subst c'.
      rewrite (digit_not_symbol _ Hd) in Hp. discriminate. }
  rewrite rmatch_Alt in Hm. unfold patterns.INT_CONST in Hm at 1.
  rewrite rmatch_Alt in Hm.
  assert (Hfirst : matches s (re.Rep 1 3 (re.Cls is_digit)) i (S i)).
  { unfold re.Rep, re.Times, re.UpTo, re.Opt.
    eapply matches_Seq; [econstructor; eauto|]. apply matches_Alt_r. constructor. }
  destruct (matches_match_at _ _ _ _ Hfirst ltac:(lia)) as (j' & Hj').
  unfold re.match_at in Hj'. rewrite Hj' in Hm. inversion Hm; subst j'.
  apply (match_at_matches _ _ _ _) in Hj'.
  unfold re.Rep, re.Times, re.UpTo, re.Opt in Hj'. inv_matches; lia.
Qed.

Lemma int_of_four_digits (t : string) :
  all_chars is_digit t = true -> (1 <= String.length t <= 4)%nat ->
  exists n, int t = Some n /\ 0 <= n <= 9999.
Proof.
  intros Hall Hlen.
  destruct t as [|a [|b [|c [|d [|e t]]]]]; simpl in Hlen; try lia;
    digits_of Hall; unfold int; simpl;
    repeat match goal with
           | Hd : is_digit ?x = true |- _ => rewrite Hd; apply digit_value in Hd
           end;
    eexists; (split; [reflexivity|lia]).
Qed.

(** X9.  Of a run of digits the tokenizer takes four at a time: no
    integer constant that [advance] delivers has more than four digits, so
    [int_val] never returns more than 9999 for a token of a unit. *)
Theorem integer_lexemes_have_at_most_four_digits (lines : list string) (t : string) :
  In t (lexemes lines) -> classify t = Some token_types.INT_CONST ->
  (String.length t <= 4)%nat /\ exists n, int_val_of t = Ok n /\ 0 <= n <= 9999.
Proof.
  intros Hin Hc.
  pose proof (integer_range_digits t Hc) as Hall.
  apply lexeme_is_a_match in Hin. destruct Hin as (line & i & j & _ & Hm & Hij & ->).
  assert (Hb : (i <= j <= String.length line)%nat) by lia.
  pose proof (length_piece line i j Hb) as Hlen.
  destruct (get_lt_Some line i ltac:(lia)) as (c & Hget).
  assert (Hd : is_digit c = true).
  { rewrite all_chars_get in Hall. apply (Hall 0%nat).
    rewrite get_piece by lia. rewrite Nat.add_0_r. exact Hget. }
  pose proof (match_at_digit _ _ _ _ Hget Hd Hm) as Hfour.
  split; [lia|].
  destruct (int_of_four_digits _ Hall ltac:(lia)) as (n & Hn & Hr).
  exists n. unfold int_val_of. rewrite Hc, Hn. auto.
Qed.

Lemma integer_lexemes_have_at_most_four_digits_witness :
  lexemes ["let x = 32767;"] = ["let"; "x"; "="; "3276"; "7"; ";"]
  /\ (String.length "3276" <= 4)%nat
  /\ exists n, int_val_of "3276" = Ok n /\ 0 <= n <= 9999.
Proof.
  split; [vm_compute; reflexivity|].
  apply (integer_lexemes_have_at_most_four_digits ["let x = 32767;"] "3276").
  - vm_compute. tauto.
  - reflexivity.
Defined.

(** ** Comments *)

Lemma append_nil_r (s : string) : s ++ "" = s.
Proof. induction s as [|a s IH]; [reflexivity|]. change (String a s ++ "") with (String a (s ++ "")). rewrite IH. reflexivity. Qed.

Lemma substring_cons (s : string) :
  forall i n c, String.get i s = Some c ->
                String.substring i (S n) s = String c (String.substring (S i) n s).
Proof.
  induction s as [|a s IH]; intros i n c H; [discriminate|].
  destruct i as [|i]; simpl in *.
  - inversion H; subst. destruct s, n; reflexivity.
  - apply IH, H.
Qed.

Lemma substring_none (s : string) : forall i, String.substring i 0 s = "".
Proof. induction s as [|a s IH]; intros [|i]; simpl; auto. Qed.

Lemma substring_full (s : string) : String.substring 0 (String.length s) s = s.
Proof. induction s as [|a s IH]; [reflexivity|]. simpl. rewrite IH. reflexivity. Qed.

Lemma scan_end (r : re.regex) (s : string) (fuel i : nat) :
  (String.length s <= i)%nat -> re.scan fuel r s i = [].
Proof.
  intros H. destruct fuel; [reflexivity|]. simpl. rewrite get_ge_None by exact H. reflexivity.
Qed.

(** Characters at which the pattern does not match are kept. *)
Lemma unmatched_skip (r : re.regex) (s : string) :
  forall n i fuel,
    (forall k, (i <= k < i + n)%nat -> re.match_at r s k = None) ->
    (i + n <= String.length s)%nat -> (n <= fuel)%nat ->
    re.unmatched (re.scan fuel r s i)
    = String.substring i n s ++ re.unmatched (re.scan (fuel - n) r s (i + n)).
Proof.
  induction n as [|n IH]; intros i fuel Hnone Hlen Hfuel.
  - rewrite Nat.sub_0_r, Nat.add_0_r, substring_none. reflexivity.
  - destruct fuel as [|fuel]; [lia|].
    destruct (get_lt_Some s i ltac:(lia)) as (c & Hc).
    simpl re.scan. rewrite Hc, (Hnone i ltac:(lia)). simpl re.unmatched.
    rewrite (IH (S i) fuel) by (try lia; intros k Hk; apply Hnone; lia).
    rewrite (substring_cons s i n c Hc).
    replace (S i + n)%nat with (i + S n)%nat by lia. reflexivity.
Qed.

Lemma sub_empty_no_match (r : re.regex) (s : string) :
  (forall k, re.match_at r s k = None) -> re.sub_empty r s = s.
Proof.
  intros H. unfold re.sub_empty, re.pieces.
  rewrite (unmatched_skip r s (String.length s) 0) by (auto; lia).
  rewrite substring_full, Nat.sub_diag. simpl. apply append_nil_r.
Qed.

Lemma no_match (r : re.regex) (s : string) (i : nat) :
  (forall j, ~ matches s r i j) -> re.match_at r s i = None.
Proof.
  intros H. destruct (re.match_at r s i) as [j|] eqn:E; [|reflexivity].
  apply match_at_matches in E. destruct (H j E).
Qed.

Lemma matches_LINE_COMMENT (s : string) (i j : nat) :
  matches s patterns.LINE_COMMENT i j ->
  String.get i s = Some "/"%char /\ String.get (S i) s = Some "/"%char
  /\ (i + 3 <= j)%nat /\ String.get (j - 1) s = Some newline
  /\ forall n, (i + 2 <= n < j - 1)%nat -> char_at is_dot s n.
Proof.
  unfold patterns.LINE_COMMENT. intros H.
  apply matches_Seq_iff in H. destruct H as (j1 & H1 & H).
  apply matches_Seq_iff in H. destruct H as (j2 & H2 & H3).
  apply matches_Lit in H1. destruct H1 as [-> Hlit].
  apply matches_Cls_iff in H3. destruct H3 as [-> (c & Hc & Hnl)].
  apply (matches_Star_all s _ (char_at is_dot s)) in H2;
    [destruct H2 as [Hle Hall]|intros ? ? Hm; apply matches_Cls_iff, Hm].
  apply is_char_eq in Hnl. subst c. simpl String.length in *.
  pose proof (Hlit 0%nat ltac:(lia)) as H0. pose proof (Hlit 1%nat ltac:(lia)) as H1.
  rewrite Nat.add_0_r in H0. replace (i + 1)%nat with (S i) in H1 by lia.
  simpl in H0, H1. simpl Nat.sub. rewrite Nat.sub_0_r.
  split; [exact H0|]. split; [exact H1|]. split; [lia|]. split; [exact Hc|].
  intros n Hn. apply Hall. lia.
Qed.

Lemma is_dot_newline (c : ascii) : is_dot c = true <-> c <> newline.
Proof.
  unfold is_dot. rewrite negb_true_iff. split.
  - intros H ->. rewrite Ascii.eqb_refl in H. discriminate.
  - intros H. apply Ascii.eqb_neq, H.
Qed.

Lemma not_slash_spec (c : ascii) : not_slash c = true <-> c <> "/"%char.
Proof.
  unfold not_slash, is_char. rewrite negb_true_iff. split.
  - intros H ->. rewrite Ascii.eqb_refl in H. discriminate.
  - intros H. apply Ascii.eqb_neq. congruence.
Qed.

Lemma get_append_l (s1 s2 : string) (n : nat) :
  (n < String.length s1)%nat -> String.get n (s1 ++ s2) = String.get n s1.
Proof. intros H. symmetry. apply String.append_correct1, H. Qed.

Lemma get_append_r (s1 s2 : string) (n : nat) :
  String.get (String.length s1 + n) (s1 ++ s2) = String.get n s2.
Proof. rewrite Nat.add_comm. symmetry. apply String.append_correct2. Qed.

(** X10.  A line comment is removed only together with the line feed
    that ends it: from a line that ends in a comment and a line feed,
    [clean] keeps what stands before the two slashes; a line without a
    line feed (the last line of a file may be one) keeps its comment,
    which is then cut into lexemes like any other text. *)
Theorem line_comments_end_in_a_line_feed (pre comment : string) :
  all_chars not_slash pre = true -> all_chars is_dot comment = true ->
  clean (pre ++ "//" ++ comment ++ str1 newline) = join " " (split pre)
  /\ (all_chars is_dot pre = true ->
      clean (pre ++ "//" ++ comment) = join " " (split (pre ++ "//" ++ comment))).
Proof.
  intros Hpre Hcom. rewrite all_chars_get in Hpre, Hcom. split.
  - unfold clean. f_equal. f_equal.
    set (s := pre ++ "//" ++ comment ++ str1 newline).
    set (p := String.length pre).
    assert (Hlen : String.length s = (p + 2 + String.length comment + 1)%nat).
    { unfold s, p. rewrite !length_append. simpl. lia. }
    assert (Hget_pre : forall n, (n < p)%nat -> String.get n s = String.get n pre).
    { intros n Hn. apply get_append_l, Hn. }
    assert (Hget_com : forall n, String.get (p + 2 + n) s
                                 = String.get n (comment ++ str1 newline)).
    { intros n. unfold s, p. rewrite <- Nat.add_assoc, get_append_r.
      apply (get_append_r "//"). }
    assert (Hp0 : String.get p s = Some "/"%char).
    { unfold s, p. rewrite <- (Nat.add_0_r (String.length pre)), get_append_r. reflexivity. }
    assert (Hp1 : String.get (S p) s = Some "/"%char).
    { unfold s, p. replace (S (String.length pre)) with (String.length pre + 1)%nat by lia.
      rewrite get_append_r. reflexivity. }
    assert (Hnl : String.get (p + 2 + String.length comment) s = Some newline).
    { rewrite Hget_com, <- (Nat.add_0_r (String.length comment)), get_append_r.
      reflexivity. }
    assert (Hm : matches s patterns.LINE_COMMENT p (String.length s)).
    { unfold patterns.LINE_COMMENT.
      apply matches_Seq with (j := (p + 2)%nat).
      - apply matches_Lit. split; [reflexivity|]. intros [|[|n]] Hn; simpl in Hn; try lia.
        + rewrite Nat.add_0_r. exact Hp0.
        + replace (p + 1)%nat with (S p) by lia. exact Hp1.
      - apply matches_Seq with (j := (p + 2 + String.length comment)%nat).
        + apply Star_all_matches. intros n Hn. apply matches_Cls_iff.
          split; [reflexivity|]. unfold char_at.
          replace n with (p + 2 + (n - (p + 2)))%nat by lia. rewrite Hget_com.
          rewrite get_append_l by lia.
          destruct (get_lt_Some comment (n - (p + 2)) ltac:(lia)) as (c & Hc).
          exists c. split; [exact Hc|apply (Hcom _ _ Hc)].
        + apply matches_Cls_iff. split; [lia|].
          exists newline. split; [exact Hnl|apply is_char_eq; reflexivity]. }
    destruct (matches_match_at _ _ _ _ Hm ltac:(lia)) as (j & Hj).
    assert (j = String.length s) as ->.
    { assert (Hple : (p <= String.length s)%nat) by lia.
      pose proof (match_at_bounds patterns.LINE_COMMENT s p j eq_refl Hple Hj) as Hb.
      apply match_at_matches, matches_LINE_COMMENT in Hj.
      destruct Hj as (_ & _ & Hj3 & Hjnl & _).
      destruct (Nat.eq_dec j (String.length s)) as [|Hne]; [assumption|exfalso].
      replace (j - 1)%nat with (p + 2 + (j - 1 - (p + 2)))%nat in Hjnl by lia.
      rewrite Hget_com, get_append_l in Hjnl by lia.
      apply Hcom in Hjnl. discriminate. }
    unfold re.sub_empty, re.pieces.
    rewrite (unmatched_skip _ s p 0).
    + simpl Nat.add.
      replace (String.length s - p)%nat with (S (String.length s - p - 1)) by lia.
      simpl re.scan. rewrite Hp0, Hj.
      destruct (Nat.ltb_spec p (String.length s)); [|lia].
      rewrite scan_end by lia. simpl.
      rewrite append_nil_r. apply (substring_middle "" pre).
    + intros k Hk. apply no_match. intros j' Hk'.
      apply matches_LINE_COMMENT in Hk'. destruct Hk' as (Hk0 & _).
      rewrite Hget_pre in Hk0 by lia. apply Hpre in Hk0. discriminate.
    + lia.
    + lia.
  - intros Hpre'. rewrite all_chars_get in Hpre'. unfold clean. f_equal. f_equal.
    apply sub_empty_no_match. intros k. apply no_match. intros j Hm.
    apply matches_LINE_COMMENT in Hm. destruct Hm as (_ & _ & _ & Hnl & _).
    set (n := (j - 1)%nat) in *.
    destruct (Nat.lt_ge_cases n (String.length pre)) as [Hn|Hn].
    + rewrite get_append_l in Hnl by exact Hn. apply Hpre' in Hnl. discriminate.
    + replace n with (String.length pre + (n - String.length pre))%nat in Hnl by lia.
      rewrite get_append_r in Hnl.
      destruct (n - String.length pre)%nat as [|[|m]]; try discriminate.
      simpl in Hnl. apply Hcom in Hnl. discriminate.
Qed.

Lemma line_comments_end_in_a_line_feed_witness :
  clean ("let x = 1;  " ++ "//" ++ " one" ++ str1 newline) = "let x = 1;"
  /\ clean ("let x = 1;  " ++ "//" ++ " one") = "let x = 1; // one"
  /\ lexemes ["let x = 1;  // one"] = ["let"; "x"; "="; "1"; ";"; "/"; "/"; "one"].
Proof.
  destruct (line_comments_end_in_a_line_feed "let x = 1;  " " one") as [H1 H2];
    [reflexivity|reflexivity|].
  split; [exact H1|]. split; [apply H2; reflexivity|vm_compute; reflexivity].
Defined.

Lemma append_assoc (a b c : string) : (a ++ b) ++ c = a ++ b ++ c.
Proof.
  induction a as [|x a IH]; [reflexivity|].
  change (String x (a ++ b) ++ c = String x (a ++ b ++ c)).
  change (String x ((a ++ b) ++ c) = String x (a ++ b ++ c)). rewrite IH. reflexivity.
Qed.

Lemma substring_append_r (a b : string) :
  String.substring (String.length a) (String.length b) (a ++ b) = b.
Proof.
  pose proof (substring_middle a b "") as H. rewrite append_nil_r in H. exact H.
Qed.

Lemma rmatch_Lit_eq {A} (s w : string) :
  forall i (k : nat -> option A),
    (forall n, (n < String.length w)%nat -> String.get (i + n) s = String.get n w) ->
    re.rmatch (re.Lit w) s i k = k (i + String.length w)%nat.
Proof.
  induction w as [|c w IH]; intros i k H.
  - simpl. rewrite Nat.add_0_r. reflexivity.
  - pose proof (H 0%nat ltac:(simpl; lia)) as H0. rewrite Nat.add_0_r in H0. simpl in H0.
    assert (Hrest : re.rmatch (re.Lit w) s (S i) k = k (S i + String.length w)%nat).
    { apply IH. intros n Hn. specialize (H (S n) ltac:(simpl; lia)).
      replace (i + S n)%nat with (S i + n)%nat in H by lia. exact H. }
    simpl String.length. replace (i + S (String.length w))%nat
      with (S i + String.length w)%nat by lia.
    rewrite <- Hrest.
    destruct w as [|c' w']; simpl; rewrite H0; unfold is_char; rewrite Ascii.eqb_refl;
      reflexivity.
Qed.

(** The star over any character is greedy: it hands over at the last
    position that the rest of the pattern accepts. *)
Lemma greedy_loop {A} (s : string) (body : nat -> (nat -> option A) -> option A)
    (k : nat -> option A) (j0 : nat) (x : A) :
  (forall i C, (i < String.length s)%nat -> body i C = C (S i)) ->
  (j0 <= String.length s)%nat -> k j0 = Some x ->
  (forall j, (j0 < j <= String.length s)%nat ->
             re.star_loop body k (String.length s - j) j = None) ->
  forall d i, j0 = (i + d)%nat ->
              re.star_loop body k (String.length s - i) i = Some x.
Proof.
  intros Hbody Hj0 Hk Hnone. induction d as [|d IH]; intros i Hi.
  - assert (i = j0) as -> by lia.
    destruct (String.length s - j0)%nat as [|f] eqn:Ef; cbn [re.star_loop]; [exact Hk|].
    rewrite Hbody by lia. destruct (Nat.ltb_spec j0 (S j0)); [|lia].
    replace f with (String.length s - S j0)%nat by lia.
    rewrite Hnone by lia. exact Hk.
  - destruct (String.length s - i)%nat as [|f] eqn:Ef; [lia|]. cbn [re.star_loop].
    rewrite Hbody by lia. destruct (Nat.ltb_spec i (S i)); [|lia].
    replace f with (String.length s - S i)%nat by lia.
    rewrite (IH (S i)) by lia. reflexivity.
Qed.

Lemma greedy_any {A} (s : string) (k : nat -> option A) (j0 : nat) (x : A) :
  (j0 <= String.length s)%nat -> k j0 = Some x ->
  (forall j, (j0 < j <= String.length s)%nat -> k j = None) ->
  forall i, (i <= j0)%nat ->
    re.rmatch (re.Star (re.Cls (fun _ => true))) s i k = Some x.
Proof.
  intros Hj0 Hk Hnone i Hi.
  change (re.star_loop (fun i' k' => re.rmatch (re.Cls (fun _ => true)) s i' k') k
            (String.length s - i) i = Some x).
  apply (greedy_loop s _ k j0 x) with (d := (j0 - i)%nat); auto; [| |lia].
  - intros i' C Hi'. simpl. destruct (get_lt_Some s i' Hi') as (c & ->). reflexivity.
  - intros j Hj.
    apply (rmatch_refused s (re.Star (re.Cls (fun _ => true)))).
    intros j' Hm. apply matches_bounds in Hm. apply Hnone. lia.
Qed.

(** Where a star and a slash stand next to each other. *)
Lemma closes_substring (s : string) (m : nat) :
  String.get m s = Some "*"%char /\ String.get (S m) s = Some "/"%char
  <-> String.substring m 2 s = "*/".
Proof.
  split.
  - intros [H1 H2]. rewrite (substring_cons s m 1 _ H1), (substring_cons s (S m) 0 _ H2).
    rewrite substring_none. reflexivity.
  - intros H.
    assert (Hlen : (m + 2 <= String.length s)%nat).
    { destruct (Nat.le_gt_cases (m + 2) (String.length s)) as [|Hgt]; [assumption|].
      exfalso.
      destruct (Nat.le_gt_cases (String.length s) m) as [Hle|Hlt].
      - assert (String.get 0 (String.substring m 2 s) = None).
        { rewrite String.substring_correct1 by lia. apply get_ge_None. lia. }
        rewrite H in *. discriminate.
      - assert (String.get 1 (String.substring m 2 s) = None).
        { rewrite String.substring_correct1 by lia. apply get_ge_None. lia. }
        rewrite H in *. discriminate. }
    pose proof (String.substring_correct1 s m 2 0 ltac:(lia)) as H0.
    pose proof (String.substring_correct1 s m 2 1 ltac:(lia)) as H1.
    rewrite H in H0, H1. simpl in H0, H1.
    replace (1 + m)%nat with (S m) in H1 by lia. auto.
Qed.

Lemma matches_BLOCK_COMMENT (s : string) (i j : nat) :
  matches s patterns.BLOCK_COMMENT i j ->
  String.get i s = Some "/"%char /\ String.get (S i) s = Some "*"%char
  /\ (i + 4 <= j)%nat
  /\ String.get (j - 2) s = Some "*"%char /\ String.get (S (j - 2)) s = Some "/"%char.
Proof.
  unfold patterns.BLOCK_COMMENT. intros H.
  apply matches_Seq_iff in H. destruct H as (j1 & H1 & H).
  apply matches_Seq_iff in H. destruct H as (j2 & H2 & H3).
  apply matches_Lit in H1. destruct H1 as [-> Ho].
  apply matches_Lit in H3. destruct H3 as [-> Hc].
  apply matches_bounds in H2. destruct H2 as [H2 _]. simpl String.length in *.
  pose proof (Ho 0%nat ltac:(lia)) as Ho0. pose proof (Ho 1%nat ltac:(lia)) as Ho1.
  pose proof (Hc 0%nat ltac:(lia)) as Hc0. pose proof (Hc 1%nat ltac:(lia)) as Hc1.
  rewrite Nat.add_0_r in Ho0, Hc0.
  replace (i + 1)%nat with (S i) in Ho1 by lia.
  replace (j2 + 1)%nat with (S j2) in Hc1 by lia.
  replace (j2 + 2 - 2)%nat with j2 by lia.
  simpl in Ho0, Ho1, Hc0, Hc1. split; [exact Ho0|]. split; [exact Ho1|].
  split; [lia|]. split; [exact Hc0|exact Hc1].
Qed.

Lemma search_BLOCK_COMMENT_START (rest : string) :
  re.search patterns.BLOCK_COMMENT_START ("/*" ++ rest) = true.
Proof.
  unfold re.search, re.pieces, patterns.BLOCK_COMMENT_START.
  change (String.length ("/*" ++ rest)) with (S (S (String.length rest))).
  cbn [re.scan]. change (String.get 0 ("/*" ++ rest)) with (Some "/"%char).
  unfold re.match_at. rewrite rmatch_Lit_eq; [reflexivity|].
  intros [|[|n]] Hn; simpl in Hn; try lia; reflexivity.
Qed.

(** X11.  [BLOCK_COMMENT] runs from the first slash-star to the last
    star-slash of the text it is applied to: a line that begins with a
    block comment and holds another one loses everything up to the end of
    the last comment, the program text between the comments included. *)
Theorem text_between_block_comments_is_lost (x post : string) (rest : list string) :
  all_chars not_slash post = true ->
  re.sub_empty patterns.BLOCK_COMMENT ("/*" ++ x ++ "*/" ++ post) = post
  /\ next_clean_line (("/*" ++ x ++ "*/" ++ post) :: rest)
     = ((if truthy (clean post) then [clean post] else []) ++ next_clean_line rest)%list.
Proof.
  intros Hpost. rewrite all_chars_get in Hpost.
  set (s := "/*" ++ x ++ "*/" ++ post).
  set (a := (2 + String.length x)%nat).
  assert (Hlen : String.length s = (a + 2 + String.length post)%nat).
  { unfold s, a. rewrite !length_append. simpl. lia. }
  assert (Hclose : forall n, String.get (a + n) s = String.get n ("*/" ++ post)).
  { intros n. unfold s, a. rewrite <- Nat.add_assoc.
    rewrite (get_append_r "/*"). apply get_append_r. }
  assert (Hget_post : forall n, String.get (a + 2 + n) s = String.get n post).
  { intros n. rewrite <- Nat.add_assoc, Hclose. apply (get_append_r "*/"). }
  assert (Hno_slash : forall n, (a + 2 <= n)%nat -> String.get n s <> Some "/"%char).
  { intros n Hn H. replace n with (a + 2 + (n - (a + 2)))%nat in H by lia.
    rewrite Hget_post in H. apply Hpost in H. discriminate. }
  assert (Hm : re.match_at patterns.BLOCK_COMMENT s 0 = Some (a + 2)%nat).
  { unfold re.match_at, patterns.BLOCK_COMMENT.
    change (re.rmatch (re.Lit "/*") s 0
              (fun j => re.rmatch (re.Star (re.Cls (fun _ => true))) s j
                          (fun j' => re.rmatch (re.Lit "*/") s j' (fun j'' => Some j'')))
            = Some (a + 2)%nat).
    rewrite rmatch_Lit_eq by (intros [|[|n]] Hn; simpl in Hn; try lia; reflexivity).
    apply (greedy_any s _ a).
    - lia.
    - rewrite rmatch_Lit_eq; [reflexivity|].
      intros [|[|n]] Hn; simpl in Hn; try lia; rewrite Hclose; reflexivity.
    - intros j Hj. apply rmatch_refused. intros j' Hm. exfalso.
      apply matches_Lit in Hm. destruct Hm as [_ Hm].
      specialize (Hm 1%nat ltac:(simpl; lia)). simpl in Hm.
      apply (Hno_slash (j + 1)%nat ltac:(lia) Hm).
    - simpl. unfold a. lia. }
  assert (Hsub : re.sub_empty patterns.BLOCK_COMMENT s = post).
  { unfold re.sub_empty, re.pieces.
    replace (String.length s) with (S (String.length s - 1)) by lia.
    cbn [re.scan]. change (String.get 0 s) with (Some "/"%char). rewrite Hm.
    destruct (Nat.ltb_spec 0 (a + 2)); [|lia]. cbn [re.unmatched].
    rewrite (unmatched_skip _ s (String.length post) (a + 2)).
    - rewrite scan_end by lia. simpl re.unmatched. rewrite append_nil_r.
      replace s with (("/*" ++ x ++ "*/") ++ post)
        by (unfold s; rewrite !append_assoc; reflexivity).
      replace (a + 2)%nat with (String.length ("/*" ++ x ++ "*/"))
        by (rewrite !length_append; simpl; unfold a; lia).
      apply substring_append_r.
    - intros k Hk. apply no_match. intros j Hk'.
      apply matches_BLOCK_COMMENT in Hk'. destruct Hk' as (Hk0 & _).
      apply (Hno_slash k ltac:(lia) Hk0).
    - lia.
    - lia. }
  split; [exact Hsub|].
  unfold next_clean_line. cbn [next_clean_line_from].
  fold s. unfold s at 1. rewrite search_BLOCK_COMMENT_START.
  change ("" ++ s) with s. rewrite Hsub.
  assert (Hne : String.eqb post s = false).
  { apply String.eqb_neq. intros H. apply (f_equal String.length) in H. lia. }
  rewrite Hne. simpl negb. cbv iota. unfold truthy.
  destruct (negb (clean post =? "")%string); reflexivity.
Qed.

Lemma text_between_block_comments_is_lost_witness :
  next_clean_line
    [ "/*" ++ " a " ++ "*/" ++ " let x = 1; /* b */" ++ str1 newline;
      "let y = 2;" ++ str1 newline ]
  = ["let y = 2;"].
Proof.
  change (next_clean_line
            [ "/*" ++ " a */ let x = 1; /* b " ++ "*/" ++ str1 newline;
              "let y = 2;" ++ str1 newline ] = ["let y = 2;"]).
  rewrite (proj2 (text_between_block_comments_is_lost " a */ let x = 1; /* b "
                    (str1 newline) ["let y = 2;" ++ str1 newline] eq_refl)).
  reflexivity.
Defined.

Lemma concat_cons_empty (line : string) (rest : list string) :
  String.concat "" (line :: rest) = line ++ String.concat "" rest.
Proof.
  destruct rest as [|l rest]; [symmetry; apply append_nil_r|reflexivity].
Qed.

Lemma no_close_prefix (a b : string) :
  (forall m, String.substring m 2 (a ++ b) <> "*/") ->
  forall m, String.substring m 2 a <> "*/".
Proof.
  intros H m Hm. apply closes_substring in Hm. destruct Hm as [H1 H2].
  apply (H m). apply closes_substring.
  pose proof (get_Some_lt _ _ _ H2) as Hlt.
  rewrite !get_append_l by lia. auto.
Qed.

Lemma sub_empty_no_close (s : string) :
  (forall m, String.substring m 2 s <> "*/") ->
  re.sub_empty patterns.BLOCK_COMMENT s = s.
Proof.
  intros H. apply sub_empty_no_match. intros k. apply no_match. intros j Hm.
  apply matches_BLOCK_COMMENT in Hm. destruct Hm as (_ & _ & _ & H1 & H2).
  apply (H (j - 2)%nat). apply closes_substring. auto.
Qed.

Lemma inside_block_comment_to_the_end (lines : list string) :
  forall block_comment,
    (forall m, String.substring m 2 (block_comment ++ String.concat "" lines) <> "*/") ->
    next_clean_line_from true block_comment lines = [].
Proof.
  induction lines as [|line rest IH]; intros bc H; [reflexivity|].
  rewrite concat_cons_empty, <- append_assoc in H.
  cbn [next_clean_line_from].
  assert (Hin : (if re.search patterns.BLOCK_COMMENT_START line then true else true) = true)
    by (destruct (re.search _ line); reflexivity).
  rewrite Hin.
  rewrite (sub_empty_no_close (bc ++ line)) by (apply (no_close_prefix _ _ H)).
  rewrite String.eqb_refl. simpl. apply IH, H.
Qed.

(** X12.  A block comment that is never closed takes the rest of the
    unit with it: from the line that opens it on, [next_clean_line] yields
    nothing. *)
Theorem unterminated_block_comment_swallows_the_rest (first : string) (rest : list string) :
  re.search patterns.BLOCK_COMMENT_START first = true ->
  String.index 0 "*/" (String.concat "" (first :: rest)) = None ->
  next_clean_line (first :: rest) = [] /\ lexemes (first :: rest) = [].
Proof.
  intros Hs Hi.
  assert (Hno : forall m, String.substring m 2 (String.concat "" (first :: rest)) <> "*/").
  { intros m. apply (String.index_correct3 0 m "*/" _ Hi); [discriminate|lia]. }
  assert (H : next_clean_line (first :: rest) = []).
  { unfold next_clean_line. apply (inside_block_comment_to_the_end (first :: rest) "") in Hno.
    cbn [next_clean_line_from] in *. rewrite Hs in *. exact Hno. }
  split; [exact H|]. unfold lexemes. rewrite H. reflexivity.
Qed.

Lemma unterminated_block_comment_swallows_the_rest_witness :
  next_clean_line ["class Main { /* never closed"; "function void main() {"; "} }"] = []
  /\ lexemes ["class Main { /* never closed"; "function void main() {"; "} }"] = [].
Proof.
  apply (unterminated_block_comment_swallows_the_rest
           "class Main { /* never closed" ["function void main() {"; "} }"]);
    vm_compute; reflexivity.
Defined.

(** ** The first call of [advance] and the line count *)

Lemma advance_running_line (consumed remaining : list string) (x : string)
    (f : JackTokenizer) :
  Forall (fun m => m <> "") (x :: remaining) ->
  running consumed (x :: remaining) f ->
  line_number (snd (advance f)) = line_number f + 1.
Proof.
  intros Hne (Hfd & Htok & Hnext & Hq & Hmore & Hclosed).
  destruct f as [fd0 closed0 tok0 next0 q0 cache0 more0 line0 cls0]; simpl in *. subst.
  inversion Hne as [|? ? Hx Hrem]; subst.
  unfold advance, bind, get, has_more_tokens; simpl.
  unfold try_except, bind, get, modify, next_lexeme; simpl.
  rewrite (truthy_nonempty _ Hx). simpl.
  destruct remaining as [|y rem]; simpl; [reflexivity|].
  inversion Hrem as [|? ? Hy _]; subst.
  unfold when. simpl. rewrite (truthy_nonempty _ Hy). reflexivity.
Qed.

Lemma advance_init_line (lines : list string) :
  next_clean_line lines <> [] ->
  line_number (snd (advance (JackTokenizer_init lines)))
  = if is_nil (lexemes lines) then 1 else 2.
Proof.
  intros Hclean.
  pose proof (lexemes_nonempty lines) as Hne.
  pose proof (queue_after_reading lines) as Hq.
  destruct (next_clean_line lines) as [|l ls] eqn:Ecl; [congruence|].
  unfold advance, bind, get, has_more_tokens, JackTokenizer_init, modify; simpl.
  rewrite Ecl. rewrite Hq.
  unfold try_except, bind, get, modify, next_lexeme; simpl.
  destruct (lexemes lines) as [|x [|y rem]]; simpl; try reflexivity.
  inversion Hne as [|? ? _ Hrest]; subst. inversion Hrest as [|? ? Hy _]; subst.
  unfold when. simpl. rewrite (truthy_nonempty _ Hy). reflexivity.
Qed.

Lemma advance_init_unread (lines : list string) :
  next_clean_line lines = [] ->
  advance (JackTokenizer_init lines)
  = (Raise (Exn TypeError "'list' object is not an iterator"),
     set_fd [] (JackTokenizer_init lines)).
Proof.
  intros Hclean.
  unfold advance, bind, get, has_more_tokens, JackTokenizer_init, modify; simpl.
  rewrite Hclean. reflexivity.
Qed.

(** X13.  [line_number] counts the calls of [advance] that delivered a
    token, not the lines of the file: after the [k]-th token of a unit has
    become current it is [k + 1], on whichever line the token stands. *)
Theorem line_number_counts_tokens (lines : list string) (x : string) (rest : list string) :
  lexemes lines = x :: rest ->
  forall k, (k < length (x :: rest))%nat ->
    line_number (snd (advance_n (S k) (JackTokenizer_init lines))) = Z.of_nat k + 2.
Proof.
  intros HL. set (L := x :: rest).
  assert (Hne : Forall (fun m => m <> "") L).
  { unfold L. rewrite <- HL. apply lexemes_nonempty. }
  assert (Hclean : next_clean_line lines <> []).
  { intros E. unfold lexemes in HL. rewrite E in HL. discriminate. }
  induction k as [|k IH]; intros Hk.
  - simpl. unfold bind, ret. rewrite (advance_init_line lines Hclean), HL. reflexivity.
  - assert (Hk' : (k < length L)%nat) by lia.
    destruct (advance_n_running lines x rest HL k Hk') as (f & Hf & Hrun).
    specialize (IH Hk'). rewrite Hf in IH. simpl in IH.
    change (advance_n (S (S k))) with (advance_n (S k) ;; advance)%monad.
    unfold bind at 1. rewrite Hf.
    fold L in Hrun. rewrite (skipn_cons_nth "" L (S k)) in Hrun by exact Hk.
    assert (Hsuf : Forall (fun m => m <> "") (nth (S k) L "" :: skipn (S (S k)) L)).
    { rewrite <- (skipn_cons_nth "" L (S k)) by exact Hk. apply Forall_skipn, Hne. }
    destruct (advance f) as [r f'] eqn:Ea.
    pose proof (advance_running_line _ _ _ f Hsuf Hrun) as Hl. rewrite Ea in Hl.
    simpl in Hl. destruct r; simpl; rewrite Hl, IH; lia.
Qed.

Lemma line_number_counts_tokens_witness :
  lexemes [""; ""; ""; "let x"] = ["let"; "x"]
  /\ line_number (snd (advance_n 1 (JackTokenizer_init [""; ""; ""; "let x"]))) = 2
  /\ line_number (snd (advance_n 2 (JackTokenizer_init [""; ""; ""; "let x"]))) = 3.
Proof.
  assert (H : lexemes [""; ""; ""; "let x"] = ["let"; "x"]) by reflexivity.
  split; [exact H|]. split.
  - apply (line_number_counts_tokens _ _ _ H 0%nat). simpl. lia.
  - apply (line_number_counts_tokens _ _ _ H 1%nat). simpl. lia.
Defined.

(** X14.  A unit in which [next_clean_line] finds no line (an empty file,
    or one of blank lines and comments only) makes the first [advance]
    fail with the [TypeError] of calling [next] on a list, and this is how
    [compile_class] ends on it; not being a [CompileError], the failure is
    not reported by [analyze] but leaves it. *)
Theorem unit_without_text_raises_TypeError
    (fuel : nat) (in_base_name : string) (lines : list string) :
  next_clean_line lines = [] ->
  fst (advance (JackTokenizer_init lines))
  = Raise (Exn TypeError "'list' object is not an iterator")
  /\ fst (analyze fuel lines) = Raise (Exn TypeError "'list' object is not an iterator")
  /\ analyze_prints fuel in_base_name lines
     = Raise (Exn TypeError "'list' object is not an iterator").
Proof.
  intros Hclean. pose proof (advance_init_unread lines Hclean) as Ha.
  assert (Hrun : analyze fuel lines
                 = (Raise (Exn TypeError "'list' object is not an iterator"),
                    set_infile (set_fd [] (JackTokenizer_init lines))
                      (CompilationEngine_init (JackTokenizer_init lines)))).
  { unfold analyze, compile_class, add_keywords.
    unfold bind at 1. unfold bind at 1. rewrite step_if_safe_eq. simpl _safe_to_step.
    cbv iota. simpl _infile. rewrite Ha. reflexivity. }
  split; [rewrite Ha; reflexivity|]. split; [rewrite Hrun; reflexivity|].
  unfold analyze_prints. rewrite Hrun. reflexivity.
Qed.

Lemma unit_without_text_raises_TypeError_witness :
  next_clean_line ["// nothing but a comment" ++ str1 newline; str1 newline] = []
  /\ analyze_prints 10 "Main.jack" ["// nothing but a comment" ++ str1 newline; str1 newline]
     = Raise (Exn TypeError "'list' object is not an iterator").
Proof.
  assert (H : next_clean_line ["// nothing but a comment" ++ str1 newline; str1 newline] = [])
    by reflexivity.
  split; [exact H|].
  apply (unit_without_text_raises_TypeError 10 "Main.jack" _ H).
Defined.

Lemma f_key_word_run (e : CompilationEngine) :
  cache_ok (_infile e) ->
  exists e', f_ key_word e = (key_word_of (token (_infile e)), e')
             /\ quiet e e' /\ cache_ok (_infile e').
Proof.
  intros Hok. destruct (key_word_pure _ Hok) as (f' & Hf & Hpos & Hok').
  exists (set_infile f' e). unfold f_. rewrite Hf.
  split; [reflexivity|]. split; [|exact Hok'].
  unfold quiet. simpl. tauto.
Qed.

Lemma keyword_class (t : string) :
  KEYWORDS_TABLE !! t = Some token_types.CLASS -> t = "class".
Proof.
  intros H. symmetry. apply (name_of_keyword t token_types.CLASS "class" H). reflexivity.
Qed.

(** The first thing [compile_class] does. *)
Lemma expects_class (lines : list string) :
  next_clean_line lines <> [] -> List.hd "" (lexemes lines) <> "class" ->
  exists e',
    add_keywords ["class"] (fresh lines)
    = (Raise (Exn CompileKeywordError "Expected 'class'"), e')
    /\ _outfile e' = []
    /\ line_number (_infile e') = if is_nil (lexemes lines) then 1 else 2.
Proof.
  intros Hclean Hhd.
  destruct (advance_first_clean lines Hclean) as (f1 & Ha & Hrun).
  pose proof (advance_init_line lines Hclean) as Hline. rewrite Ha in Hline. simpl in Hline.
  assert (Htok : token f1 = List.hd "" (lexemes lines)).
  { destruct Hrun as (_ & Ht & _). rewrite Ht. destruct (lexemes lines); reflexivity. }
  assert (Hok1 : cache_ok f1).
  { intros t e H. pose proof (advance_cache (JackTokenizer_init lines)) as Hc.
    rewrite Ha in Hc. simpl in Hc. rewrite Hc in H. simpl in H.
    rewrite lookup_empty in H. discriminate. }
  set (e1 := set_safe_to_step false (set_infile f1 (fresh lines))).
  assert (Hstep : step_if_safe (fresh lines) = (Ok tt, e1)).
  { rewrite step_if_safe_eq. simpl. rewrite Ha. reflexivity. }
  destruct (f_token_type_run e1 Hok1) as (e2 & Ht & Hq2 & Hok2).
  pose proof (quiet_token _ _ Hq2) as Htok2. simpl in Htok2.
  unfold add_keywords.
  rewrite (bind_run _ _ _ _ _ Hstep), (bind_run _ _ _ _ _ Ht).
  simpl token. rewrite Htok.
  assert (Hend : forall e, _outfile e = [] ->
                           line_number (_infile e) = line_number f1 ->
            exists e', raise (A:=unit) CompileKeywordError
                         ("Expected " ++ expected_list ["class"]) e
                       = (Raise (Exn CompileKeywordError "Expected 'class'"), e')
                       /\ _outfile e' = []
                       /\ line_number (_infile e')
                          = (if is_nil (lexemes lines) then 1 else 2)).
  { intros e Ho Hl. exists e. split; [reflexivity|]. split; [exact Ho|congruence]. }
  assert (Hout2 : _outfile e2 = []) by (destruct Hq2 as (_ & -> & _); reflexivity).
  assert (Hl2 : line_number (_infile e2) = line_number f1).
  { destruct Hq2 as ((_ & _ & _ & _ & _ & _ & Hl) & _). exact Hl. }
  destruct (is_type (classify (List.hd "" (lexemes lines))) token_types.KEYWORD) eqn:Ety.
  - destruct (f_key_word_run e2 Hok2) as (e3 & Hk & Hq3 & Hok3).
    rewrite Htok2, Htok in Hk.
    apply is_type_true in Ety.
    destruct (proj1 (keywords_table_keys _) Ety) as (k & Hkw).
    assert (Hkof : key_word_of (List.hd "" (lexemes lines)) = Ok k).
    { unfold key_word_of. rewrite Ety, Hkw. reflexivity. }
    rewrite Hkof in Hk.
    assert (Hne : (k =? token_types.CLASS)%Z = false).
    { apply Z.eqb_neq. intros ->. apply Hhd, keyword_class, Hkw. }
    cbn [mapM]. unfold bind at 1. unfold bind at 1. unfold bind at 1. unfold bind at 1.
    rewrite Hk. unfold bind at 1.
    change (subscript KEYWORDS_TABLE "class" "class" e3) with (Ok token_types.CLASS, e3).
    cbv iota beta. unfold ret at 1. cbv iota beta.
    unfold ret at 1. unfold bind at 1. unfold ret at 1. cbv iota beta.
    unfold ret at 1. cbv iota beta. rewrite Hne. simpl any. cbv iota.
    apply Hend.
    + destruct Hq3 as (_ & -> & _). exact Hout2.
    + destruct Hq3 as ((_ & _ & _ & _ & _ & _ & Hl) & _). congruence.
  - unfold bind at 1. unfold ret at 1. cbv iota beta. apply Hend; assumption.
Qed.

(** X15.  A unit with text in it whose first lexeme is not [class] (or
    which has no lexeme at all) is rejected at once: [compile_class] raises
    [CompileKeywordError] before anything is written, and [analyze]
    reports it with the count of tokens read so far where the line ought
    to be. *)
Theorem unit_must_begin_with_class
    (fuel : nat) (in_base_name : string) (lines : list string) :
  next_clean_line lines <> [] -> List.hd "" (lexemes lines) <> "class" ->
  fst (analyze fuel lines) = Raise (Exn CompileKeywordError "Expected 'class'")
  /\ _outfile (snd (analyze fuel lines)) = []
  /\ analyze_prints fuel in_base_name lines
     = Ok ["In " ++ in_base_name ++ " (line "
             ++ (if is_nil (lexemes lines) then "1" else "2") ++ "): Expected 'class'"].
Proof.
  intros Hclean Hhd.
  destruct (expects_class lines Hclean Hhd) as (e' & Hadd & Hout & Hline).
  assert (Hrun : analyze fuel lines
                 = (Raise (Exn CompileKeywordError "Expected 'class'"), e')).
  { unfold analyze, compile_class. fold (fresh lines). unfold bind at 1.
    rewrite Hadd. reflexivity. }
  rewrite Hrun. split; [reflexivity|]. split; [exact Hout|].
  unfold analyze_prints. rewrite Hrun. simpl. rewrite Hline.
  destruct (is_nil (lexemes lines)); reflexivity.
Qed.

Lemma unit_must_begin_with_class_witness :
  analyze_prints 10 "Main.jack" [""; ""; "function void main() { }"]
  = Ok ["In Main.jack (line 2): Expected 'class'"]
  /\ analyze_prints 10 "Main.jack" ["#"]
     = Ok ["In Main.jack (line 1): Expected 'class'"].
Proof.
  split.
  - apply (unit_must_begin_with_class 10 "Main.jack" [""; ""; "function void main() { }"]);
      vm_compute; congruence.
  - apply (unit_must_begin_with_class 10 "Main.jack" ["#"]); vm_compute; congruence.
Defined.

(** ** The driver *)

Lemma hd_rsplit_acc (sep : ascii) (a b : string) :
  all_chars (fun c => negb (is_char sep c)) a = true ->
  forall piece,
    List.hd "" (rsplit_acc sep piece (a ++ String sep b)) = piece ++ a.
Proof.
  induction a as [|c a IH]; intros Ha piece.
  - simpl. rewrite Ascii.eqb_refl. simpl. symmetry. apply append_nil_r.
  - simpl in Ha. apply andb_true_iff in Ha. destruct Ha as [Hc Ha].
    change (String c a ++ String sep b) with (String c (a ++ String sep b)).
    cbn [rsplit_acc].
    assert (Hne : Ascii.eqb c sep = false).
    { apply negb_true_iff in Hc. unfold is_char in Hc.
      rewrite Ascii.eqb_sym. exact Hc. }
    rewrite Hne, (IH Ha), append_assoc. reflexivity.
Qed.

Lemma hd_rsplit_dot (stem rest : string) :
  all_chars not_dot stem = true ->
  List.hd "" (rsplit "." (stem ++ "." ++ rest)) = stem.
Proof.
  intros H. unfold rsplit. apply (hd_rsplit_acc "." stem rest H "").
Qed.

(** X16.  The name that [get_files] yields beside a file is the path of
    the file up to its first dot, not the path without its extension: for
    a path that has a dot before the extension, a relative path that
    begins with a dot or a directory with a dot in its name, the text
    behind that dot is lost, and all the files of such a directory get the
    same name. *)
Theorem get_files_names_end_at_the_first_dot
    (stem rest : string) (listdir : list string) :
  all_chars not_dot stem = true ->
  Forall (fun name => String.prefix "/" name = false) listdir ->
  Forall (fun yielded => snd yielded = stem) (get_files (stem ++ "." ++ rest) listdir)
  /\ (endswith (stem ++ "." ++ rest) ".jack" = true ->
      get_files (stem ++ "." ++ rest) listdir = [(stem ++ "." ++ rest, stem)]).
Proof.
  intros Hstem Hnames. unfold get_files.
  destruct (endswith (stem ++ "." ++ rest) ".jack") eqn:E.
  - rewrite hd_rsplit_dot by exact Hstem. split; [|reflexivity].
    constructor; [reflexivity|constructor].
  - split; [|discriminate].
    apply List.Forall_forall. intros [file name] Hin. apply in_flat_map in Hin.
    destruct Hin as (n & Hn & Hin).
    rewrite List.Forall_forall in Hnames. specialize (Hnames n Hn).
    destruct (endswith n ".jack"); [|destruct Hin].
    destruct Hin as [Hin|[]]. inversion Hin; subst. simpl.
    unfold os_path_join. rewrite Hnames.
    destruct ((stem ++ "." ++ rest =? "")%string || endswith (stem ++ "." ++ rest) "/").
    + rewrite !append_assoc. apply hd_rsplit_dot, Hstem.
    + rewrite !append_assoc. apply hd_rsplit_dot, Hstem.
Qed.

Lemma get_files_names_end_at_the_first_dot_witness :
  get_files ("" ++ "." ++ "/Main.jack") [] = [("./Main.jack", "")]
  /\ Forall (fun yielded => snd yielded = "proj")
       (get_files ("proj" ++ "." ++ "v2") ["Main.jack"; "Square.jack"; "notes.txt"])
  /\ get_files "proj.v2" ["Main.jack"; "Square.jack"; "notes.txt"]
     = [("proj.v2/Main.jack", "proj"); ("proj.v2/Square.jack", "proj")].
Proof.
  split; [|split].
  - apply (get_files_names_end_at_the_first_dot "" "/Main.jack" []);
      [reflexivity|constructor|reflexivity].
  - apply (get_files_names_end_at_the_first_dot "proj" "v2"); [reflexivity|].
    repeat constructor.
  - reflexivity.
Defined.

Lemma compare_from_silent (mine : list string) :
  Forall (fun l => l <> "") mine ->
  forall theirs index,
    Forall (fun l => l <> "") theirs ->
    (compare_from index mine theirs = [] <-> mine = theirs).
Proof.
  induction mine as [|m mine IH]; intros Hm theirs index Ht.
  - simpl. destruct theirs as [|t theirs]; simpl.
    + split; reflexivity.
    + inversion Ht; subst. rewrite truthy_nonempty by assumption.
      split; discriminate.
  - inversion Hm as [|? ? Hm0 Hm']; subst. cbn [compare_from].
    destruct theirs as [|t theirs]; cbn [List.hd List.tl].
    + assert (E : String.eqb m "" = false) by (apply String.eqb_neq, Hm0).
      rewrite E. simpl. split; discriminate.
    + inversion Ht as [|? ? Ht0 Ht']; subst.
      destruct (String.eqb_spec m t) as [->|Hne]; simpl.
      * rewrite (IH Hm' theirs (S index) Ht'). split; congruence.
      * split; [discriminate|congruence].
Qed.

Lemma compare_from_index (mine : list string) :
  forall theirs index n c m,
    In (Lines_differ n c m) (compare_from index mine theirs) ->
    (index <= n)%nat /\ nth_error mine (n - index) = Some m
    /\ c = nth (n - index) theirs "" /\ m <> c.
Proof.
  induction mine as [|m0 mine IH]; intros theirs index n c m H.
  - simpl in H. destruct (truthy _); [destruct H as [H|[]]|destruct H]. discriminate.
  - cbn [compare_from] in H. apply in_app_or in H. destruct H as [H|H].
    + destruct (String.eqb_spec m0 (List.hd "" theirs)) as [|Hne]; [destruct H|].
      destruct H as [H|[]]. inversion H; subst.
      rewrite Nat.sub_diag. split; [lia|]. split; [reflexivity|].
      split; [destruct theirs; reflexivity|exact Hne].
    + apply IH in H. destruct H as (Hle & Hm & Hc & Hne).
      replace (n - index)%nat with (S (n - S index)) by lia.
      split; [lia|]. split; [exact Hm|]. split; [|exact Hne].
      destruct theirs as [|t theirs]; [|exact Hc].
      simpl in Hc. rewrite Hc. destruct (n - S index)%nat; reflexivity.
Qed.

(** X17.  The comparison at the end of [analyze] prints nothing exactly
    when the file written and the file compared with have the same lines;
    the index it prints with two lines that differ counts the lines from
    0. *)
Theorem comparison_is_silent_on_equal_files (mine theirs : list string) :
  Forall (fun l => l <> "") mine -> Forall (fun l => l <> "") theirs ->
  (compare_files mine theirs = [] <-> mine = theirs)
  /\ (forall n c m, In (Lines_differ n c m) (compare_files mine theirs) ->
                    nth_error mine n = Some m /\ c = nth n theirs "" /\ m <> c).
Proof.
  intros Hm Ht. split; [apply compare_from_silent; assumption|].
  intros n c m H. apply compare_from_index in H. rewrite Nat.sub_0_r in H. tauto.
Qed.

Lemma comparison_is_silent_on_equal_files_witness :
  compare_files ["<class>"; "</class>"] ["<class>"; "</class>"] = []
  /\ compare_files ["<class>"; "<x>"] ["<class>"; "</class>"; "<y>"]
     = [Lines_differ 1 "</class>" "<x>"; File_too_short].
Proof.
  split; [|reflexivity].
  apply (comparison_is_silent_on_equal_files ["<class>"; "</class>"] ["<class>"; "</class>"]);
    [repeat constructor; discriminate|repeat constructor; discriminate|reflexivity].
Defined.

(** X18.  However a run of [compile_class] ends, by returning, by an
    exception of any kind or by running out of budget, the leaves it has
    written followed by the leaves it has queued are leaves of lexemes of
    the unit, in the order of the lexemes: none is invented, none written
    twice and none out of order. *)
Theorem output_follows_the_lexemes_however_the_run_ends (fuel : nat) (lines : list string) :
  let e' := snd (analyze fuel lines) in
  exists emitted,
    sublist emitted (lexemes lines)
    /\ (leaves (_outfile e') ++ _body e')%list = map leaf_of_lexeme emitted.
Proof.
  unfold analyze. destruct (compile_class fuel _) as [r e'] eqn:H. simpl.
  pose proof (keeps_compile_class (lexemes lines) fuel _ _ _ (Inv_fresh lines) H) as HI.
  destruct HI as (_ & _ & consumed & emitted & Hat & Hleaves & Hsub).
  exists emitted. split; [|exact Hleaves].
  apply sublist_consumed in Hsub.
  destruct Hat as [(-> & _)|(remaining & Hc & _)].
  - apply sublist_nil_r in Hsub. subst. apply sublist_nil_l.
  - rewrite Hc. etransitivity; [exact Hsub|]. apply sublist_inserts_r. reflexivity.
Qed.

(** ** Indentation *)

Lemma read_line_None floor (out : list written) :
  fold_left (read_line floor) out None = None.
Proof. induction out as [|w out IH]; [reflexivity|exact IH]. Qed.

Lemma reads_nil floor i : reads floor [] i i.
Proof. reflexivity. Qed.

Lemma reads_app floor (a b : list written) i j k :
  reads floor a i j -> reads floor b j k -> reads floor (a ++ b) i k.
Proof. unfold reads. intros Ha Hb. rewrite fold_left_app, Ha. exact Hb. Qed.

Lemma read_line_mono floor floor' st w st' :
  floor' <= floor -> read_line floor st w = Some st' -> read_line floor' st w = Some st'.
Proof.
  intros Hle H. destruct st as [[i [n|]]|]; simpl in *; try discriminate; [exact H|].
  destruct w; try discriminate.
  destruct (Z.leb_spec floor n); [|discriminate].
  destruct (Z.leb_spec floor' n); [exact H|lia].
Qed.

Lemma reads_mono floor floor' (out : list written) i i' :
  floor' <= floor -> reads floor out i i' -> reads floor' out i i'.
Proof.
  unfold reads. intros Hle. generalize (Some (i, @None Z)).
  induction out as [|w out IH]; intros st H; [exact H|]. simpl in *.
  destruct (read_line floor st w) as [st'|] eqn:E.
  - rewrite (read_line_mono _ _ _ _ _ Hle E). apply IH, H.
  - rewrite read_line_None in H. discriminate.
Qed.

Lemma read_indent floor i n :
  floor <= n -> read_line floor (Some (i, None)) (W_indent n) = Some (i, Some n).
Proof. intros H. unfold read_line. destruct (Z.leb_spec floor n); [reflexivity|lia]. Qed.

Lemma read_terminal floor i element terminal :
  read_line floor (Some (i, Some i)) (W_terminal element terminal) = Some (i, None).
Proof. unfold read_line. rewrite Z.eqb_refl. reflexivity. Qed.

Lemma read_start floor i element :
  read_line floor (Some (i, Some i)) (W_start element) = Some (i + 2, None).
Proof. unfold read_line. rewrite Z.eqb_refl. reflexivity. Qed.

Lemma read_end floor i element :
  read_line floor (Some (i, Some (i - 2))) (W_end element) = Some (i - 2, None).
Proof. unfold read_line. rewrite Z.eqb_refl. reflexivity. Qed.

Lemma reads_entries floor i (entries : list (string * terminal_value)) :
  floor <= i -> reads floor (written_entries i entries) i i.
Proof.
  intros Hle. unfold reads, written_entries.
  induction entries as [|[el t] entries IH]; [reflexivity|].
  cbn [flat_map fst snd app fold_left].
  rewrite read_indent by exact Hle. rewrite read_terminal. exact IH.
Qed.

Lemma reads_start floor i element :
  floor <= i -> reads floor [W_indent i; W_start element] i (i + 2).
Proof.
  intros Hle. unfold reads. cbn [fold_left].
  rewrite read_indent by exact Hle. apply read_start.
Qed.

Lemma reads_end floor i element :
  floor <= i - 2 -> reads floor [W_indent (i - 2); W_end element] i (i - 2).
Proof.
  intros Hle. unfold reads. cbn [fold_left].
  rewrite read_indent by exact Hle. apply read_end.
Qed.

(** Computations that leave the output alone. *)
Lemma still_ret {A} (a : A) : still (ret a).
Proof. intros e r e' H. inversion H; subst. auto. Qed.

Lemma still_raise {A} c msg : still (raise (A:=A) c msg).
Proof. intros e r e' H. inversion H; subst. auto. Qed.

Lemma still_out_of_fuel {A} : still (out_of_fuel (A:=A)).
Proof. intros e r e' H. inversion H; subst. auto. Qed.

Lemma still_bind {A B} (m : M CompilationEngine A) (k : A -> M CompilationEngine B) :
  still m -> (forall a, still (k a)) -> still (bind m k).
Proof.
  intros Hm Hk e r e' H.
  apply bind_inv in H. destruct H as [(a & e1 & H1 & H2)|[(x & H1 & _)|(H1 & _)]].
  - apply Hm in H1. apply Hk in H2. destruct H1, H2. split; congruence.
  - apply (Hm _ _ _ H1).
  - apply (Hm _ _ _ H1).
Qed.

Lemma still_try_except {A} (m : M CompilationEngine A) c h :
  still m -> (forall x, still (h x)) -> still (try_except m c h).
Proof.
  intros Hm Hh e r e' H. unfold try_except in H.
  destruct (m e) as [[a|x|] e1] eqn:E.
  - inversion H; subst. apply (Hm _ _ _ E).
  - destruct (issubclass (exn_cls x) c).
    + apply Hm in E. apply Hh in H. destruct E, H. split; congruence.
    + inversion H; subst. apply (Hm _ _ _ E).
  - inversion H; subst. apply (Hm _ _ _ E).
Qed.

Lemma still_mapM {A B} (g : A -> M CompilationEngine B) (l : list A) :
  (forall a, still (g a)) -> still (mapM g l).
Proof.
  intros Hg. induction l as [|a l IH]; simpl.
  - apply still_ret.
  - apply still_bind; [apply Hg|]. intros b.
    apply still_bind; [exact IH|]. intros bs. apply still_ret.
Qed.

Lemma still_f {A} (m : M JackTokenizer A) : still (f_ m).
Proof.
  intros e r e' H. apply f_inv in H. destruct H as (f' & _ & ->). auto.
Qed.

Lemma still_body_add element terminal : still (body_add element terminal).
Proof. intros e r e' H. inversion H; subst. auto. Qed.

Lemma still_set_safe_to_step b : still (modify (set_safe_to_step b)).
Proof. intros e r e' H. inversion H; subst. auto. Qed.

Lemma still_gets {A} (g : CompilationEngine -> A) : still (gets g).
Proof. intros e r e' H. inversion H; subst. auto. Qed.

Lemma still_subscript {K V} `{Countable K} (table : gmap K V) (key : K) shown :
  still (subscript (S:=CompilationEngine) table key shown).
Proof. unfold subscript. destruct (table !! key); [apply still_ret|apply still_raise]. Qed.

Lemma still_when (b : bool) (m : M CompilationEngine unit) : still m -> still (when b m).
Proof. intros Hm. destruct b; [exact Hm|apply still_ret]. Qed.

Ltac still_tac :=
  cbv zeta;
  repeat
    lazymatch goal with
    | |- still (ret _) => apply still_ret
    | |- still (raise _ _) => apply still_raise
    | |- still out_of_fuel => apply still_out_of_fuel
    | |- still (f_ _) => apply still_f
    | |- still (body_add _ _) => apply still_body_add
    | |- still (modify (set_safe_to_step _)) => apply still_set_safe_to_step
    | |- still (gets _) => apply still_gets
    | |- still (subscript _ _ _) => apply still_subscript
    | |- still (mapM _ _) => apply still_mapM; intros
    | |- still (when _ _) => apply still_when
    | |- still (try_except _ _ _) => apply still_try_except; [|intros]
    | |- still (bind _ _) => apply still_bind; [|intros]
    | |- still (if ?b then _ else _) => destruct b
    | H : still ?m |- still ?m => exact H
    end.

Lemma still_step : still step.
Proof. unfold step. still_tac. Qed.

Lemma still_step_if_safe : still step_if_safe.
Proof. unfold step_if_safe. still_tac. Qed.

Lemma still_add_keywords keywords : still (add_keywords keywords).
Proof. unfold add_keywords. pose proof still_step_if_safe. still_tac. Qed.

Lemma still_add_symbols symbols : still (add_symbols symbols).
Proof. unfold add_symbols. pose proof still_step_if_safe. still_tac. Qed.

Lemma still_add_identifier identifier_ : still (add_identifier identifier_).
Proof. unfold add_identifier. pose proof still_step_if_safe. still_tac. Qed.

Lemma still_add_type void : still (add_type void).
Proof. unfold add_type. pose proof still_step_if_safe. still_tac. Qed.

(** Moving the indentation. *)
Lemma shifts_weaken lo ok lo' ok' {A} (m : M CompilationEngine A) :
  shifts lo ok m -> lo' <= lo -> ok' <= ok -> shifts lo' ok' m.
Proof.
  intros Hm Hlo Hok e r e' H. destruct (Hm _ _ _ H) as (new & Ho & Hr & Hl & Hk).
  exists new. split; [exact Ho|]. split; [apply (reads_mono (_indent e + lo)); [lia|exact Hr]|].
  split; [lia|]. intros a Ha. specialize (Hk a Ha). lia.
Qed.

Lemma shifts_still lo ok {A} (m : M CompilationEngine A) :
  still m -> lo <= 0 -> ok <= 0 -> shifts lo ok m.
Proof.
  intros Hm Hlo Hok e r e' H. destruct (Hm _ _ _ H) as [Ho Hi].
  exists []. rewrite app_nil_r, Hi. split; [exact Ho|]. split; [apply reads_nil|].
  split; [lia|]. intros; lia.
Qed.

Lemma shifts_never lo ok {A} (m : M CompilationEngine A) :
  still m -> (forall e a e', m e <> (Ok a, e')) -> lo <= 0 -> shifts lo ok m.
Proof.
  intros Hm Hnever Hlo e r e' H. destruct (Hm _ _ _ H) as [Ho Hi].
  exists []. rewrite app_nil_r, Hi. split; [exact Ho|]. split; [apply reads_nil|].
  split; [lia|]. intros a ->. destruct (Hnever _ _ _ H).
Qed.

Lemma shifts_bind lo1 ok1 lo2 ok2 lo ok {A B}
    (m : M CompilationEngine A) (k : A -> M CompilationEngine B) :
  shifts lo1 ok1 m -> (forall a, shifts lo2 ok2 (k a)) ->
  lo <= lo1 -> lo <= ok1 + lo2 -> ok <= ok1 + ok2 ->
  shifts lo ok (bind m k).
Proof.
  intros Hm Hk H1 H2 H3 e r e' H.
  apply bind_inv in H. destruct H as [(a & e1 & Hm1 & Hk1)|[(x & Hm1 & ->)|(Hm1 & ->)]].
  - destruct (Hm _ _ _ Hm1) as (new1 & Ho1 & Hr1 & Hl1 & Hok1).
    destruct (Hk a _ _ _ Hk1) as (new2 & Ho2 & Hr2 & Hl2 & Hok2).
    specialize (Hok1 a eq_refl).
    exists (new1 ++ new2)%list. rewrite Ho2, Ho1, app_assoc.
    split; [reflexivity|]. split; [|split; [lia|]].
    + eapply reads_app; [eapply reads_mono; [|exact Hr1]|eapply reads_mono; [|exact Hr2]]; lia.
    + intros b Hb. specialize (Hok2 b Hb). lia.
  - destruct (Hm _ _ _ Hm1) as (new1 & Ho1 & Hr1 & Hl1 & Hok1).
    exists new1. split; [exact Ho1|]. split; [eapply reads_mono; [|exact Hr1]; lia|].
    split; [lia|]. intros b Hb. discriminate.
  - destruct (Hm _ _ _ Hm1) as (new1 & Ho1 & Hr1 & Hl1 & Hok1).
    exists new1. split; [exact Ho1|]. split; [eapply reads_mono; [|exact Hr1]; lia|].
    split; [lia|]. intros b Hb. discriminate.
Qed.

Lemma shifts_try_except lo1 ok1 lo2 ok2 lo ok {A} (m : M CompilationEngine A) c h :
  shifts lo1 ok1 m -> (forall x, shifts lo2 ok2 (h x)) ->
  lo <= lo1 -> lo <= lo1 + lo2 -> ok <= ok1 -> ok <= lo1 + ok2 ->
  shifts lo ok (try_except m c h).
Proof.
  intros Hm Hh H1 H2 H3 H4 e r e' H. unfold try_except in H.
  destruct (m e) as [[a|x|] e1] eqn:E; destruct (Hm _ _ _ E) as (new1 & Ho1 & Hr1 & Hl1 & Hok1).
  - inversion H; subst. exists new1. split; [exact Ho1|].
    split; [eapply reads_mono; [|exact Hr1]; lia|]. split; [lia|].
    intros b Hb. specialize (Hok1 a eq_refl). lia.
  - destruct (issubclass (exn_cls x) c).
    + destruct (Hh x _ _ _ H) as (new2 & Ho2 & Hr2 & Hl2 & Hok2).
      exists (new1 ++ new2)%list. rewrite Ho2, Ho1, app_assoc.
      split; [reflexivity|]. split; [|split; [lia|]].
      * eapply reads_app; [eapply reads_mono; [|exact Hr1]|eapply reads_mono; [|exact Hr2]];
          lia.
      * intros b Hb. specialize (Hok2 b Hb). lia.
    + inversion H; subst. exists new1. split; [exact Ho1|].
      split; [eapply reads_mono; [|exact Hr1]; lia|]. split; [lia|].
      intros b Hb. discriminate.
  - inversion H; subst. exists new1. split; [exact Ho1|].
    split; [eapply reads_mono; [|exact Hr1]; lia|]. split; [lia|].
    intros b Hb. discriminate.
Qed.

Lemma shifts_reraise_as lo ok {A} c prefix (m : M CompilationEngine A) :
  shifts lo ok m -> shifts lo ok (reraise_as c prefix m).
Proof.
  intros Hm e r e' H. unfold reraise_as, try_except in H.
  destruct (m e) as [[a|x|] e1] eqn:E; destruct (Hm _ _ _ E) as (new1 & Ho1 & Hr1 & Hl1 & Hok1).
  - inversion H; subst. exists new1. auto.
  - destruct (issubclass (exn_cls x) CompileError); inversion H; subst;
      exists new1; (split; [exact Ho1|]); (split; [exact Hr1|]); (split; [exact Hl1|]);
      intros b Hb; discriminate.
  - inversion H; subst. exists new1. split; [exact Ho1|]. split; [exact Hr1|].
    split; [exact Hl1|]. intros b Hb. discriminate.
Qed.

Lemma shifts_when lo ok (b : bool) (m : M CompilationEngine unit) :
  shifts lo ok m -> lo <= 0 -> ok <= 0 -> shifts lo ok (when b m).
Proof.
  intros Hm Hlo Hok. destruct b; [exact Hm|]. apply shifts_still; [apply still_ret|lia|lia].
Qed.

Lemma shifts_write_body lo ok : lo <= 0 -> ok <= 0 -> shifts lo ok write_body.
Proof.
  intros Hlo Hok e r e' H. rewrite write_body_eq in H. inversion H; subst. simpl.
  exists (written_entries (_indent e) (_body e)). split; [reflexivity|].
  split; [apply reads_entries; lia|]. split; [lia|]. intros; lia.
Qed.

Lemma shifts_write_non_terminal_start lo ok element :
  lo <= 0 -> ok <= 2 -> shifts lo ok (write_non_terminal_start element).
Proof.
  intros Hlo Hok e r e' H. unfold write_non_terminal_start in H.
  unfold bind at 1 in H. unfold gets at 1 in H. unfold bind at 1 in H.
  unfold emit at 1, modify at 1 in H. unfold bind at 1 in H.
  unfold emit at 1, modify at 1 in H. unfold bind at 1 in H.
  unfold modify at 1 in H. rewrite write_body_eq in H. inversion H; subst. simpl.
  exists ([W_indent (_indent e); W_start element]
          ++ written_entries (_indent e + 2) (_body e))%list.
  rewrite <- !app_assoc. split; [reflexivity|].
  split; [|split; [lia|intros; lia]].
  eapply reads_app; [apply reads_start; lia|apply reads_entries; lia].
Qed.

Lemma shifts_write_non_terminal_end lo ok element :
  lo <= -2 -> ok <= -2 -> shifts lo ok (write_non_terminal_end element).
Proof.
  intros Hlo Hok e r e' H. unfold write_non_terminal_end in H.
  unfold bind at 1 in H. rewrite write_body_eq in H.
  unfold bind at 1 in H. unfold modify at 1 in H.
  unfold bind at 1 in H. unfold gets at 1 in H. unfold bind at 1 in H.
  unfold emit at 1, modify at 1 in H. unfold emit, modify in H.
  inversion H; subst. simpl.
  exists (written_entries (_indent e) (_body e)
          ++ [W_indent (_indent e - 2); W_end element])%list.
  rewrite <- !app_assoc. split; [reflexivity|].
  split; [|split; [lia|intros; lia]].
  eapply reads_app; [apply reads_entries; lia|apply reads_end; lia].
Qed.

Ltac still_all :=
  cbv zeta;
  repeat
    lazymatch goal with
    | |- still step => apply still_step
    | |- still step_if_safe => apply still_step_if_safe
    | |- still (add_keywords _) => apply still_add_keywords
    | |- still (add_symbols _) => apply still_add_symbols
    | |- still (add_identifier _) => apply still_add_identifier
    | |- still (add_type _) => apply still_add_type
    | |- still (ret _) => apply still_ret
    | |- still (raise _ _) => apply still_raise
    | |- still out_of_fuel => apply still_out_of_fuel
    | |- still (f_ _) => apply still_f
    | |- still (body_add _ _) => apply still_body_add
    | |- still (modify (set_safe_to_step _)) => apply still_set_safe_to_step
    | |- still (gets _) => apply still_gets
    | |- still (subscript _ _ _) => apply still_subscript
    | |- still (mapM _ _) => apply still_mapM; intros
    | |- still (when _ _) => apply still_when
    | |- still (reraise_as _ _ _) => unfold reraise_as
    | |- still (try_except _ _ _) => apply still_try_except; [|intros]
    | |- still (bind _ _) => apply still_bind; [|intros]
    | |- still (if ?b then _ else _) => destruct b
    | H : still ?m |- still ?m => exact H
    end.

Lemma shifts_raise lo ok {A} c msg : lo <= 0 -> shifts lo ok (raise (A:=A) c msg).
Proof.
  intros H. apply shifts_never; [apply still_raise| |exact H].
  intros e a e' E. discriminate.
Qed.

Lemma shifts_out_of_fuel lo ok {A} : lo <= 0 -> shifts lo ok (out_of_fuel (A:=A)).
Proof.
  intros H. apply shifts_never; [apply still_out_of_fuel| |exact H].
  intros e a e' E. discriminate.
Qed.

Lemma shifts_write_non_terminal lo ok element :
  lo <= 0 -> ok <= 0 -> shifts lo ok (write_non_terminal element).
Proof.
  intros Hlo Hok. unfold write_non_terminal.
  apply (shifts_bind 0 2 (-2) (-2));
    [apply shifts_write_non_terminal_start; lia
    |intros; apply shifts_write_non_terminal_end; lia|lia|lia|lia].
Qed.

Ltac shifts_leaf :=
  lazymatch goal with
  | |- shifts _ _ write_body => apply shifts_write_body; lia
  | |- shifts _ _ (write_non_terminal _) => apply shifts_write_non_terminal; lia
  | |- shifts _ _ (write_non_terminal_start _) => apply shifts_write_non_terminal_start; lia
  | |- shifts _ _ (write_non_terminal_end _) => apply shifts_write_non_terminal_end; lia
  | |- shifts _ _ (raise _ _) => apply shifts_raise; lia
  | |- shifts _ _ out_of_fuel => apply shifts_out_of_fuel; lia
  | |- shifts _ _ ?m =>
      first
        [ match goal with
          | H : shifts ?lo' ?ok' m |- _ => apply (shifts_weaken lo' ok'); [exact H|lia|lia]
          end
        | apply shifts_still; [solve [still_all]|lia|lia] ]
  end.

Ltac shifts_tac :=
  cbv zeta;
  lazymatch goal with
  | |- shifts ?lo ?ok (bind (write_non_terminal_start _) _) =>
      apply (shifts_bind 0 2 (lo - 2) (ok - 2));
      [apply shifts_write_non_terminal_start; lia|intros; shifts_tac|lia|lia|lia]
  | |- shifts ?lo ?ok (bind (reraise_as _ _ ?body) _) =>
      first
        [ match goal with
          | H : shifts 0 2 body |- _ =>
              apply (shifts_bind 0 2 (lo - 2) (ok - 2));
              [apply shifts_reraise_as; exact H|intros; shifts_tac|lia|lia|lia]
          end
        | apply (shifts_bind 0 0 lo ok); [shifts_tac|intros; shifts_tac|lia|lia|lia] ]
  | |- shifts ?lo ?ok (bind _ _) =>
      apply (shifts_bind 0 0 lo ok); [shifts_tac|intros; shifts_tac|lia|lia|lia]
  | |- shifts ?lo ?ok (try_except _ _ _) =>
      apply (shifts_try_except 0 0 0 0 lo ok);
      [shifts_tac|intros; shifts_tac|lia|lia|lia|lia]
  | |- shifts _ _ (reraise_as _ _ _) => apply shifts_reraise_as; shifts_tac
  | |- shifts _ _ (when _ _) => apply shifts_when; [shifts_tac|lia|lia]
  | |- shifts _ _ (if ?b then _ else _) => destruct b; shifts_tac
  | |- _ => shifts_leaf
  end.

Lemma still_more_vars_loop fuel : still (more_vars_loop fuel).
Proof. induction fuel as [|fuel IH]; simpl; still_all. Qed.

Lemma still_add_type_var_name_var_name fuel : still (add_type_var_name_var_name fuel).
Proof. unfold add_type_var_name_var_name. pose proof (still_more_vars_loop fuel). still_all. Qed.

Lemma shifts_compile_class_var_dec fuel : shifts 0 0 (compile_class_var_dec fuel).
Proof.
  unfold compile_class_var_dec.
  pose proof (still_add_type_var_name_var_name fuel).
  shifts_tac.
Qed.

Lemma shifts_compile_var_dec fuel : shifts 0 0 (compile_var_dec fuel).
Proof.
  unfold compile_var_dec.
  pose proof (still_add_type_var_name_var_name fuel).
  shifts_tac.
Qed.

Lemma still_parameter_list_loop fuel : still (parameter_list_loop fuel).
Proof. induction fuel as [|fuel IH]; simpl; still_all. Qed.

Lemma shifts_compile_parameter_list fuel : shifts 0 0 (compile_parameter_list fuel).
Proof.
  unfold compile_parameter_list.
  pose proof (still_parameter_list_loop fuel).
  shifts_tac.
Qed.

Lemma still_add_keyword_constant : still add_keyword_constant.
Proof. unfold add_keyword_constant, add_keyword_constant_try. still_all. Qed.

Lemma still_add_op_or_unary_op unary : still (add_op_or_unary_op unary).
Proof. unfold add_op_or_unary_op, add_op_or_unary_op_try. still_all. Qed.

Section expression_shifts.
Variables compile_expression expression_loop compile_term compile_expression_list
  expression_list_loop add_subroutine_call : M CompilationEngine unit.
Hypotheses (H1 : shifts 0 0 compile_expression) (H2 : shifts 0 0 expression_loop)
  (H3 : shifts 0 0 compile_term) (H4 : shifts 0 0 compile_expression_list)
  (H5 : shifts 0 0 expression_list_loop) (H6 : shifts 0 0 add_subroutine_call).

Lemma shifts_compile_expression_body :
  shifts 0 0 (compile_expression_body expression_loop compile_term).
Proof. unfold compile_expression_body, compile_expression_try. shifts_tac. Qed.

Lemma shifts_expression_loop_body :
  shifts 0 0 (expression_loop_body expression_loop compile_term).
Proof.
  unfold expression_loop_body. pose proof (still_add_op_or_unary_op false). shifts_tac.
Qed.

Lemma shifts_compile_term_dispatch :
  shifts 0 0 (compile_term_dispatch compile_expression compile_term
                compile_expression_list add_subroutine_call).
Proof.
  unfold compile_term_dispatch.
  pose proof still_add_keyword_constant. pose proof (still_add_op_or_unary_op true).
  shifts_tac.
Qed.

Lemma shifts_compile_term_body :
  shifts 0 0 (compile_term_body compile_expression compile_term
                compile_expression_list add_subroutine_call).
Proof.
  unfold compile_term_body. pose proof shifts_compile_term_dispatch. shifts_tac.
Qed.

Lemma shifts_compile_expression_list_body :
  shifts 0 0 (compile_expression_list_body expression_list_loop).
Proof. unfold compile_expression_list_body. shifts_tac. Qed.

Lemma shifts_expression_list_loop_body :
  shifts 0 0 (expression_list_loop_body compile_expression expression_list_loop).
Proof. unfold expression_list_loop_body. shifts_tac. Qed.

Lemma shifts_add_subroutine_call_body :
  shifts 0 0 (add_subroutine_call_body compile_expression_list add_subroutine_call).
Proof. unfold add_subroutine_call_body, add_subroutine_call_try. shifts_tac. Qed.

End expression_shifts.

Lemma shifts_expression_rules (fuel : nat) :
  shifts 0 0 (compile_expression fuel) /\ shifts 0 0 (expression_loop fuel)
  /\ shifts 0 0 (compile_term fuel) /\ shifts 0 0 (compile_expression_list fuel)
  /\ shifts 0 0 (expression_list_loop fuel) /\ shifts 0 0 (add_subroutine_call fuel).
Proof.
  induction fuel as [|fuel (IH1 & IH2 & IH3 & IH4 & IH5 & IH6)].
  - repeat (split; [apply shifts_out_of_fuel; lia|]). apply shifts_out_of_fuel; lia.
  - split; [apply (shifts_compile_expression_body _ _ IH2 IH3)|].
    split; [apply (shifts_expression_loop_body _ _ IH2 IH3)|].
    split; [apply (shifts_compile_term_body _ _ _ _ IH1 IH3 IH4 IH6)|].
    split; [apply (shifts_compile_expression_list_body _ IH5)|].
    split; [apply (shifts_expression_list_loop_body _ _ IH1 IH5)|].
    apply (shifts_add_subroutine_call_body _ _ IH4 IH6).
Qed.

Lemma shifts_compile_expression fuel : shifts 0 0 (compile_expression fuel).
Proof. apply shifts_expression_rules. Qed.

Lemma shifts_add_subroutine_call fuel : shifts 0 0 (add_subroutine_call fuel).
Proof. apply shifts_expression_rules. Qed.

Lemma shifts_compile_do_try fuel : shifts 0 2 (compile_do_try fuel).
Proof. unfold compile_do_try. pose proof (shifts_add_subroutine_call fuel). shifts_tac. Qed.

Lemma shifts_compile_do fuel : shifts 0 0 (compile_do fuel).
Proof. unfold compile_do. pose proof (shifts_compile_do_try fuel). shifts_tac. Qed.

Lemma shifts_compile_let_try fuel : shifts 0 2 (compile_let_try fuel).
Proof. unfold compile_let_try. pose proof (shifts_compile_expression fuel). shifts_tac. Qed.

Lemma shifts_compile_let fuel : shifts 0 0 (compile_let fuel).
Proof. unfold compile_let. pose proof (shifts_compile_let_try fuel). shifts_tac. Qed.

Lemma shifts_compile_return_try fuel : shifts 0 2 (compile_return_try fuel).
Proof.
  unfold compile_return_try. pose proof (shifts_compile_expression fuel). shifts_tac.
Qed.

Lemma shifts_compile_return fuel : shifts 0 0 (compile_return fuel).
Proof. unfold compile_return. pose proof (shifts_compile_return_try fuel). shifts_tac. Qed.

Section statement_shifts.
Variable fuel : nat.
Variables compile_statements statements_loop compile_while compile_if
  : M CompilationEngine unit.
Hypotheses (H1 : shifts 0 0 compile_statements) (H2 : shifts 0 0 statements_loop)
  (H3 : shifts 0 0 compile_while) (H4 : shifts 0 0 compile_if).

Lemma shifts_compile_statements_body :
  shifts 0 0 (compile_statements_body statements_loop).
Proof. unfold compile_statements_body. shifts_tac. Qed.

Lemma shifts_statements_loop_body :
  shifts 0 0 (statements_loop_body fuel statements_loop compile_while compile_if).
Proof.
  unfold statements_loop_body.
  pose proof (shifts_compile_let fuel). pose proof (shifts_compile_do fuel).
  pose proof (shifts_compile_return fuel). shifts_tac.
Qed.

Lemma shifts_compile_while_try : shifts 0 2 (compile_while_try fuel compile_statements).
Proof. unfold compile_while_try. pose proof (shifts_compile_expression fuel). shifts_tac. Qed.

Lemma shifts_compile_while_body : shifts 0 0 (compile_while_body fuel compile_statements).
Proof. unfold compile_while_body. pose proof shifts_compile_while_try. shifts_tac. Qed.

Lemma shifts_compile_if_try : shifts 0 2 (compile_if_try fuel compile_statements).
Proof. unfold compile_if_try. pose proof (shifts_compile_expression fuel). shifts_tac. Qed.

Lemma shifts_compile_if_body : shifts 0 0 (compile_if_body fuel compile_statements).
Proof. unfold compile_if_body. pose proof shifts_compile_if_try. shifts_tac. Qed.

End statement_shifts.

Lemma shifts_statement_rules (fuel : nat) :
  shifts 0 0 (compile_statements fuel) /\ shifts 0 0 (statements_loop fuel)
  /\ shifts 0 0 (compile_while fuel) /\ shifts 0 0 (compile_if fuel).
Proof.
  induction fuel as [|fuel (IH1 & IH2 & IH3 & IH4)].
  - repeat (split; [apply shifts_out_of_fuel; lia|]). apply shifts_out_of_fuel; lia.
  - split; [apply (shifts_compile_statements_body _ IH2)|].
    split; [apply (shifts_statements_loop_body fuel _ _ _ IH2 IH3 IH4)|].
    split; [apply (shifts_compile_while_body fuel _ IH1)|].
    apply (shifts_compile_if_body fuel _ IH1).
Qed.

Lemma shifts_var_dec_loop fuel : shifts 0 0 (var_dec_loop fuel).
Proof.
  induction fuel as [|fuel IH]; simpl; [apply shifts_out_of_fuel; lia|].
  pose proof (shifts_compile_var_dec fuel). shifts_tac.
Qed.

Lemma shifts_compile_subroutine_body_try fuel :
  shifts 0 2 (compile_subroutine_body_try fuel).
Proof.
  unfold compile_subroutine_body_try.
  pose proof (shifts_var_dec_loop fuel).
  pose proof (proj1 (shifts_statement_rules fuel)). shifts_tac.
Qed.

Lemma shifts_compile_subroutine_body fuel : shifts 0 0 (compile_subroutine_body fuel).
Proof.
  unfold compile_subroutine_body. pose proof (shifts_compile_subroutine_body_try fuel).
  shifts_tac.
Qed.

Lemma shifts_compile_subroutine_try fuel : shifts 0 2 (compile_subroutine_try fuel).
Proof.
  unfold compile_subroutine_try.
  pose proof (shifts_compile_parameter_list fuel).
  pose proof (shifts_compile_subroutine_body fuel). shifts_tac.
Qed.

Lemma shifts_compile_subroutine fuel : shifts 0 0 (compile_subroutine fuel).
Proof.
  unfold compile_subroutine. pose proof (shifts_compile_subroutine_try fuel). shifts_tac.
Qed.

Lemma shifts_class_var_dec_loop fuel : shifts 0 0 (class_var_dec_loop fuel).
Proof.
  induction fuel as [|fuel IH]; simpl; [apply shifts_out_of_fuel; lia|].
  pose proof (shifts_compile_class_var_dec fuel). shifts_tac.
Qed.

Lemma shifts_subroutine_loop fuel : shifts 0 0 (subroutine_loop fuel).
Proof.
  induction fuel as [|fuel IH]; simpl; [apply shifts_out_of_fuel; lia|].
  pose proof (shifts_compile_subroutine fuel). shifts_tac.
Qed.

Lemma shifts_compile_class fuel : shifts 0 0 (compile_class fuel).
Proof.
  unfold compile_class.
  pose proof (shifts_class_var_dec_loop fuel). pose proof (shifts_subroutine_loop fuel).
  shifts_tac.
Qed.

(** X19.  However a run of [compile_class] ends, its output reads from
    the top as whole lines, each an indentation and one tag, with a
    counter that a start tag moves in by two and an end tag moves out by
    two: every leaf and start tag is indented by the counter, every end tag
    by the counter it leaves, no indentation is negative (so no end tag is
    written when no region is open), and the counter ends at the engine's
    [_indent]. *)
Theorem indentation_follows_the_open_regions (fuel : nat) (lines : list string) :
  let e' := snd (analyze fuel lines) in
  reads 0 (_outfile e') 0 (_indent e') /\ 0 <= _indent e'.
Proof.
  unfold analyze. destruct (compile_class fuel _) as [r e'] eqn:H. simpl.
  destruct (shifts_compile_class fuel _ _ _ H) as (new & Ho & Hr & Hl & _).
  simpl in Ho, Hr, Hl. rewrite Ho. auto.
Qed.
